(** * project-settings-sync: the reconciliation engine and the drift guard

    A shallow embedding of [src/lib/merge.ts] (three-way merge of env files,
    conflict resolution) and [src/lib/manifest.ts] (manifest fingerprint),
    with the properties the specification states about them.

    Conventions of the embedding:
    - a TypeScript value of type [string | undefined] is an [option string];
    - a JavaScript [Map<string, string>] is the list of its entries in
      insertion order ([JsMap]), with [get], [set], [delete] as ECMAScript
      defines them;
    - arrays that are only pushed to and read are lists;
    - where a claim is about object identity or mutation, objects live in a
      store ([Heap]) and functions thread it explicitly. *)

From Stdlib Require Import String Ascii ZArith Bool List Permutation Sorted Lia.
From Stdlib Require Import DecimalString OrdersEx.
From stdpp Require Import base option list strings gmap sorting.

Local Open Scope string_scope.

(** ** JavaScript values used by the engine *)

(** [v !== undefined] *)
Definition is_defined (v : option string) : bool :=
  match v with Some _ => true | None => false end.

(** [a === b] on [string | undefined] *)
Definition strict_eq (a b : option string) : bool :=
  match a, b with
  | Some x, Some y => String.eqb x y
  | None, None => true
  | _, _ => false
  end.

(** ** [Map<string, string>]: entries in insertion order *)

Module JsMap.

Definition t := list (string * string).

(** [new Map()] *)
Definition empty : t := [].

(** [m.get(k)] *)
Fixpoint get (m : t) (k : string) : option string :=
  match m with
  | [] => None
  | (k', v) :: m' => if String.eqb k' k then Some v else get m' k
  end.

(** [m.has(k)] *)
Definition has (m : t) (k : string) : bool := is_defined (get m k).

(** [m.set(k, v)]: an existing entry keeps its place, a new one goes last *)
Fixpoint set (m : t) (k v : string) : t :=
  match m with
  | [] => [(k, v)]
  | (k', v') :: m' =>
      if String.eqb k' k then (k, v) :: m' else (k', v') :: set m' k v
  end.

(** [m.delete(k)] *)
Fixpoint delete (m : t) (k : string) : t :=
  match m with
  | [] => []
  | (k', v') :: m' =>
      if String.eqb k' k then delete m' k else (k', v') :: delete m' k
  end.

(** [[...m.keys()]] *)
Definition keys (m : t) : list string := map fst m.

(** A map holds every key once. *)
Definition wf (m : t) : Prop := NoDup (keys m).

End JsMap.

(** ** Types of [src/types/index.ts] *)

Inductive ConflictType := divergent_edit | edit_vs_delete | new_key_collision.

Inductive AutoMergeAction :=
| added_from_local
| added_from_remote
| deleted
| updated_from_local
| updated_from_remote.

Record ConflictEntry := {
  ce_key : string;
  ce_conflictType : ConflictType;
  ce_baseValue : option string;
  ce_localValue : option string;
  ce_remoteValue : option string;
}.

Record AutoMergeEntry := {
  am_key : string;
  am_action : AutoMergeAction;
  am_value : option string;
}.

Inductive MergeStatus := clean | auto_merged | conflicted.

(** The object [threeWayMergeEnvFile] returns: [fileName], [status],
    [merged], [conflicts], [autoMerged]. *)
Record FileMergeResult := {
  fileName : string;
  status : MergeStatus;
  merged : JsMap.t;
  conflicts : list ConflictEntry;
  autoMerged : list AutoMergeEntry;
}.

Inductive ResolutionChoice :=
| choice_local
| choice_remote
| choice_base
| choice_manual
| choice_skip.

Record ConflictResolution := {
  cr_key : string;
  cr_choice : ResolutionChoice;
  cr_manualValue : option string;
}.

(** ** [mergeKey]: the fate of one key *)

(** [KeyMergeResult], a union tagged by its [type] field. *)
Inductive KeyMergeResult :=
| Unchanged (value : option string)
| AutoMerged (action : AutoMergeAction) (value : option string)
| Conflict (conflictType : ConflictType).

(** The [type] field of a [KeyMergeResult]. *)
Definition result_type (r : KeyMergeResult) : string :=
  match r with
  | Unchanged _ => "unchanged"
  | AutoMerged _ _ => "auto_merged"
  | Conflict _ => "conflict"
  end.

Definition is_conflict (r : KeyMergeResult) : bool :=
  match r with Conflict _ => true | _ => false end.

(** [mergeKey], statement by statement; every [if (c) return e;] of the
    source is one [if c then e else ...] here. *)
Definition mergeKey (key : string) (baseVal localVal remoteVal : option string)
  : KeyMergeResult :=
  let localExists := is_defined localVal in
  let remoteExists := is_defined remoteVal in
  let baseExists := is_defined baseVal in
  if negb baseExists then
    if localExists && remoteExists then
      if strict_eq localVal remoteVal then Unchanged localVal
      else Conflict new_key_collision
    else if localExists && negb remoteExists then
      AutoMerged added_from_local localVal
    else if negb localExists && remoteExists then
      AutoMerged added_from_remote remoteVal
    else Unchanged None
  else
    let localChanged := negb (strict_eq localVal baseVal) in
    let remoteChanged := negb (strict_eq remoteVal baseVal) in
    let localDeleted := negb localExists in
    let remoteDeleted := negb remoteExists in
    if negb localChanged && negb remoteChanged
       && negb localDeleted && negb remoteDeleted then Unchanged baseVal
    else if localDeleted && remoteDeleted then AutoMerged deleted None
    else if localDeleted && negb remoteChanged then AutoMerged deleted None
    else if remoteDeleted && negb localChanged then AutoMerged deleted None
    else if localDeleted && remoteChanged then Conflict edit_vs_delete
    else if remoteDeleted && localChanged then Conflict edit_vs_delete
    else if localChanged && negb remoteChanged then
      AutoMerged updated_from_local localVal
    else if negb localChanged && remoteChanged then
      AutoMerged updated_from_remote remoteVal
    else if strict_eq localVal remoteVal then Unchanged localVal
    else Conflict divergent_edit.

(** *** The decision table of the specification (section 4.1)

    Written from the specification, not from the code: the rows in the
    order the specification lists them, the first row whose condition holds
    gives the outcome, and there is no default row. *)

Fixpoint first_row (rows : list (bool * KeyMergeResult)) : option KeyMergeResult :=
  match rows with
  | [] => None
  | (cond, outcome) :: rows' => if cond then Some outcome else first_row rows'
  end.

Definition spec_resolve (key : string) (baseVal localVal remoteVal : option string)
  : option KeyMergeResult :=
  let localPresent := is_defined localVal in
  let remotePresent := is_defined remoteVal in
  let equal := strict_eq localVal remoteVal in
  match baseVal with
  | None =>
      first_row
        [ (localPresent && remotePresent && equal, Unchanged localVal);
          (localPresent && remotePresent && negb equal, Conflict new_key_collision);
          (localPresent && negb remotePresent, AutoMerged added_from_local localVal);
          (remotePresent && negb localPresent, AutoMerged added_from_remote remoteVal) ]
  | Some _ =>
      let localChanged := negb (strict_eq localVal baseVal) in
      let remoteChanged := negb (strict_eq remoteVal baseVal) in
      let localDeleted := negb localPresent in
      let remoteDeleted := negb remotePresent in
      first_row
        [ (negb localChanged && negb remoteChanged
           && negb localDeleted && negb remoteDeleted, Unchanged baseVal);
          (localDeleted && remoteDeleted, AutoMerged deleted None);
          (localDeleted && negb remoteDeleted && negb remoteChanged,
            AutoMerged deleted None);
          (remoteDeleted && negb localDeleted && negb localChanged,
            AutoMerged deleted None);
          (localDeleted && remoteChanged && negb remoteDeleted,
            Conflict edit_vs_delete);
          (remoteDeleted && localChanged && negb localDeleted,
            Conflict edit_vs_delete);
          (localChanged && negb remoteChanged,
            AutoMerged updated_from_local localVal);
          (remoteChanged && negb localChanged,
            AutoMerged updated_from_remote remoteVal);
          (localChanged && remoteChanged && equal, Unchanged localVal);
          (localChanged && remoteChanged && negb equal, Conflict divergent_edit) ]
  end.


(** ** The control flow of [mergeKey]

    The body of [mergeKey] is a sequence of statements: [const]
    declarations, [if (c) return e;], [if (c) { ... }] with no [else], and
    [return e;]. A statement either returns from the function or completes,
    and control passes to the statement after it. A call whose body
    completes without a [return] gives no result ([undefined]). The body has
    no [throw], no call and no property access; its expressions are [===],
    [!==], [!] and [&&] on values that are strings or [undefined], and none
    of them can throw. *)

Inductive Flow (A : Type) :=
| Return (a : A)
| Next.

Arguments Return {A} a.
Arguments Next {A}.

(** [if (c) { block }] *)
Definition flow_if {A} (c : bool) (block : Flow A) : Flow A :=
  if c then block else Next.

(** [{ s1 s2 ... }]: the statements in their order, up to the first that
    returns *)
Fixpoint flow_block {A} (statements : list (Flow A)) : Flow A :=
  match statements with
  | [] => Next
  | Return a :: _ => Return a
  | Next :: rest => flow_block rest
  end.

(** The result of a call with this body; [None] when the end of the body is
    reached. *)
Definition flow_call {A} (body : Flow A) : option A :=
  match body with
  | Return a => Some a
  | Next => None
  end.

(** The body of [mergeKey], one entry for each statement of the source;
    the declarations after the first block scope over the rest of the
    body. *)
Definition mergeKey_body (key : string) (baseVal localVal remoteVal : option string)
  : Flow KeyMergeResult :=
  let localExists := is_defined localVal in
  let remoteExists := is_defined remoteVal in
  let baseExists := is_defined baseVal in
  flow_block
    [ flow_if (negb baseExists)
        (flow_block
           [ flow_if (localExists && remoteExists)
               (flow_block
                  [ flow_if (strict_eq localVal remoteVal)
                      (Return (Unchanged localVal));
                    Return (Conflict new_key_collision) ]);
             flow_if (localExists && negb remoteExists)
               (Return (AutoMerged added_from_local localVal));
             flow_if (negb localExists && remoteExists)
               (Return (AutoMerged added_from_remote remoteVal));
             Return (Unchanged None) ]);
      let localChanged := negb (strict_eq localVal baseVal) in
      let remoteChanged := negb (strict_eq remoteVal baseVal) in
      let localDeleted := negb localExists in
      let remoteDeleted := negb remoteExists in
      flow_block
        [ flow_if (negb localChanged && negb remoteChanged
                   && negb localDeleted && negb remoteDeleted)
            (Return (Unchanged baseVal));
          flow_if (localDeleted && remoteDeleted) (Return (AutoMerged deleted None));
          flow_if (localDeleted && negb remoteChanged)
            (Return (AutoMerged deleted None));
          flow_if (remoteDeleted && negb localChanged)
            (Return (AutoMerged deleted None));
          flow_if (localDeleted && remoteChanged) (Return (Conflict edit_vs_delete));
          flow_if (remoteDeleted && localChanged) (Return (Conflict edit_vs_delete));
          flow_if (localChanged && negb remoteChanged)
            (Return (AutoMerged updated_from_local localVal));
          flow_if (negb localChanged && remoteChanged)
            (Return (AutoMerged updated_from_remote remoteVal));
          flow_if (strict_eq localVal remoteVal) (Return (Unchanged localVal));
          Return (Conflict divergent_edit) ] ].

(** ** [threeWayMergeEnvFile]: the driver over all keys *)

(** [s.add(x)] on a [Set<string>] kept as the list of its elements in
    insertion order. *)
Definition set_add (s : list string) (x : string) : list string :=
  if existsb (String.eqb x) s then s else s ++ [x].

(** [new Set(xs)] *)
Definition new_Set (xs : list string) : list string := fold_left set_add xs [].

(** [base?.keys() ?? []] *)
Definition base_keys (base : option JsMap.t) : list string :=
  match base with Some b => JsMap.keys b | None => [] end.

(** [base?.get(key)] *)
Definition base_get (base : option JsMap.t) (key : string) : option string :=
  match base with Some b => JsMap.get b key | None => None end.

(** [if (v !== undefined) m.set(key, v)] *)
Definition set_if_defined (m : JsMap.t) (key : string) (v : option string) : JsMap.t :=
  match v with Some x => JsMap.set m key x | None => m end.

(** The three accumulators of the loop. *)
Record MergeAcc := {
  acc_merged : JsMap.t;
  acc_conflicts : list ConflictEntry;
  acc_autoMerged : list AutoMergeEntry;
}.

(** One iteration of [for (const key of allKeys)]. *)
Definition merge_iteration (base : option JsMap.t) (local remote : JsMap.t)
    (acc : MergeAcc) (key : string) : MergeAcc :=
  let baseVal := base_get base key in
  let localVal := JsMap.get local key in
  let remoteVal := JsMap.get remote key in
  match mergeKey key baseVal localVal remoteVal with
  | Conflict conflictType =>
      {| acc_merged := set_if_defined (acc_merged acc) key localVal;
         acc_conflicts :=
           acc_conflicts acc ++
             [ {| ce_key := key;
                  ce_conflictType := conflictType;
                  ce_baseValue := baseVal;
                  ce_localValue := localVal;
                  ce_remoteValue := remoteVal |} ];
         acc_autoMerged := acc_autoMerged acc |}
  | AutoMerged action value =>
      {| acc_merged := set_if_defined (acc_merged acc) key value;
         acc_conflicts := acc_conflicts acc;
         acc_autoMerged :=
           acc_autoMerged acc ++
             [ {| am_key := key; am_action := action; am_value := value |} ] |}
  | Unchanged value =>
      {| acc_merged := set_if_defined (acc_merged acc) key value;
         acc_conflicts := acc_conflicts acc;
         acc_autoMerged := acc_autoMerged acc |}
  end.

Definition all_keys (base : option JsMap.t) (local remote : JsMap.t) : list string :=
  new_Set (base_keys base ++ JsMap.keys local ++ JsMap.keys remote).

Definition merge_loop (base : option JsMap.t) (local remote : JsMap.t)
    (keys : list string) (acc : MergeAcc) : MergeAcc :=
  fold_left (merge_iteration base local remote) keys acc.

Definition threeWayMergeEnvFile (fileName : string) (base : option JsMap.t)
    (local remote : JsMap.t) : FileMergeResult :=
  let allKeys := all_keys base local remote in
  let acc :=
    merge_loop base local remote allKeys
      {| acc_merged := JsMap.empty; acc_conflicts := []; acc_autoMerged := [] |} in
  {| fileName := fileName;
     status :=
       if (0 <? length (acc_conflicts acc))%nat then conflicted
       else if (0 <? length (acc_autoMerged acc))%nat then auto_merged
       else clean;
     merged := acc_merged acc;
     conflicts := acc_conflicts acc;
     autoMerged := acc_autoMerged acc |}.

(** What the loop stores in [merged] for a key: the value of the outcome,
    and the local value for a conflict. *)
Definition preview (base : option JsMap.t) (local remote : JsMap.t) (key : string)
  : option string :=
  match mergeKey key (base_get base key) (JsMap.get local key) (JsMap.get remote key) with
  | Conflict _ => JsMap.get local key
  | AutoMerged _ value => value
  | Unchanged value => value
  end.

(** Every conflict entry records the three values of its key, and its key
    is one whose outcome is a conflict. *)
Definition records_key (base : option JsMap.t) (local remote : JsMap.t)
    (c : ConflictEntry) : Prop :=
  mergeKey (ce_key c) (base_get base (ce_key c)) (JsMap.get local (ce_key c))
    (JsMap.get remote (ce_key c)) = Conflict (ce_conflictType c)
  ∧ ce_baseValue c = base_get base (ce_key c)
  ∧ ce_localValue c = JsMap.get local (ce_key c)
  ∧ ce_remoteValue c = JsMap.get remote (ce_key c).

(** ** [applyResolutions], [allConflictsResolved], [resolveAllConflicts] *)

(** [conflicts.find((c) => c.key === key)] *)
Definition find_conflict (cs : list ConflictEntry) (key : string) : option ConflictEntry :=
  find (fun c => String.eqb (ce_key c) key) cs.

(** [if (v !== undefined) result.set(key, v); else result.delete(key);] *)
Definition set_or_delete (result : JsMap.t) (key : string) (v : option string) : JsMap.t :=
  match v with
  | Some x => JsMap.set result key x
  | None => JsMap.delete result key
  end.

(** The body of [for (const resolution of resolutions)]. *)
Definition apply_resolution (mergeResult : FileMergeResult) (result : JsMap.t)
    (resolution : ConflictResolution) : JsMap.t :=
  match find_conflict (conflicts mergeResult) (cr_key resolution) with
  | None => result
  | Some conflict =>
      match cr_choice resolution with
      | choice_local => set_or_delete result (cr_key resolution) (ce_localValue conflict)
      | choice_remote => set_or_delete result (cr_key resolution) (ce_remoteValue conflict)
      | choice_base => set_or_delete result (cr_key resolution) (ce_baseValue conflict)
      | choice_manual => set_or_delete result (cr_key resolution) (cr_manualValue resolution)
      | choice_skip => result
      end
  end.

(** The map [applyResolutions] returns, as a value: a copy of
    [mergeResult.merged] on which the loop has run. *)
Definition applyResolutions (mergeResult : FileMergeResult)
    (resolutions : list ConflictResolution) : JsMap.t :=
  fold_left (apply_resolution mergeResult) resolutions (merged mergeResult).

(** How a call of [applyResolutions] ends. The source has no [throw] and
    calls only [Map] and [Array] methods that do not throw on these
    arguments, so every call returns. *)
Inductive Completion :=
| Returned (value : JsMap.t)
| Thrown (message : string).

Definition applyResolutions_call (mergeResult : FileMergeResult)
    (resolutions : list ConflictResolution) : Completion :=
  Returned (applyResolutions mergeResult resolutions).

(** [resolutions.find((r) => r.key === key)?.choice] *)
Definition find_choice (resolutions : list ConflictResolution) (key : string)
  : option ResolutionChoice :=
  option_map cr_choice (find (fun r => String.eqb (cr_key r) key) resolutions).

(** [c !== "skip"], where [c] may be [undefined] *)
Definition not_skip (c : option ResolutionChoice) : bool :=
  match c with Some choice_skip => false | _ => true end.

Definition allConflictsResolved (mergeResult : FileMergeResult)
    (resolutions : list ConflictResolution) : bool :=
  let resolvedKeys := new_Set (map cr_key resolutions) in
  forallb
    (fun conflict =>
       existsb (String.eqb (ce_key conflict)) resolvedKeys
       && not_skip (find_choice resolutions (ce_key conflict)))
    (conflicts mergeResult).

Inductive Strategy := strategy_local | strategy_remote.

(** The resolution [resolveAllConflicts] builds for one conflict. *)
Definition strategy_resolution (strategy : Strategy) (conflict : ConflictEntry)
  : ConflictResolution :=
  {| cr_key := ce_key conflict;
     cr_choice :=
       match strategy with
       | strategy_local => choice_local
       | strategy_remote => choice_remote
       end;
     cr_manualValue := None |}.

Definition resolveAllConflicts (mergeResult : FileMergeResult) (strategy : Strategy)
  : list ConflictResolution :=
  map (strategy_resolution strategy) (conflicts mergeResult).

(** The value a batch strategy picks from a conflict entry. *)
Definition side_value (strategy : Strategy) (c : ConflictEntry) : option string :=
  match strategy with
  | strategy_local => ce_localValue c
  | strategy_remote => ce_remoteValue c
  end.

(** Sample inputs used by the examples below. *)
Definition sample_divergent : FileMergeResult :=
  threeWayMergeEnvFile "test.env"
    (Some [("KEY", "base")]) [("KEY", "local")] [("KEY", "remote")].

Definition sample_local_deleted : FileMergeResult :=
  threeWayMergeEnvFile "test.env" (Some [("KEY", "base")]) [] [("KEY", "remote")].

Definition manual_without_value (key : string) : ConflictResolution :=
  {| cr_key := key; cr_choice := choice_manual; cr_manualValue := None |}.

Definition sample_resolutions_twice : list ConflictResolution :=
  [ {| cr_key := "KEY"; cr_choice := choice_remote; cr_manualValue := None |};
    {| cr_key := "KEY"; cr_choice := choice_skip; cr_manualValue := None |} ].


(** ** Objects, identity and mutation

    [applyResolutions] receives a reference to a [FileMergeResult] whose
    [merged], [conflicts] and [autoMerged] fields are references too, and
    returns a reference to a [Map]. Here the objects live in a store and
    the function is written against it, allocation and mutation explicit. *)

Definition loc := positive.

Inductive JsObject :=
| MapObject (entries : JsMap.t)
| ConflictArray (items : list ConflictEntry)
| AutoMergeArray (items : list AutoMergeEntry)
| ResultObject (fileName : string) (status : MergeStatus)
    (merged conflicts autoMerged : loc).

Abbreviation Heap := (gmap loc JsObject).

(** A computation on the store; [None] is a [TypeError]. *)
Definition Exec (A : Type) : Type := Heap → option (A * Heap).

Definition exec_ret {A} (a : A) : Exec A := fun h => Some (a, h).

Definition exec_bind {A B} (m : Exec A) (f : A → Exec B) : Exec B :=
  fun h => match m h with Some (a, h') => f a h' | None => None end.

Definition exec_fail {A} : Exec A := fun _ => None.

Declare Scope exec_scope.
Delimit Scope exec_scope with exec.
Notation "'let*' x := m 'in' k" := (exec_bind m (fun x => k))
  (at level 10, x name, m at level 100, k at level 200) : exec_scope.
Notation "m ;;; k" := (exec_bind m (fun _ => k))
  (at level 100, k at level 200, right associativity) : exec_scope.
Local Open Scope exec_scope.

Definition load (l : loc) : Exec JsObject :=
  fun h => match h !! l with Some o => Some (o, h) | None => None end.

Definition store (l : loc) (o : JsObject) : Exec unit :=
  fun h => Some (tt, <[l := o]> h).

(** Allocation returns a reference no object of the store has. *)
Definition alloc (o : JsObject) : Exec loc :=
  fun h => let l := fresh (dom h) in Some (l, <[l := o]> h).

Definition load_map (l : loc) : Exec JsMap.t :=
  let* o := load l in
  match o with MapObject entries => exec_ret entries | _ => exec_fail end.

Definition load_conflicts (l : loc) : Exec (list ConflictEntry) :=
  let* o := load l in
  match o with ConflictArray items => exec_ret items | _ => exec_fail end.

(** [mergeResult.merged] *)
Definition field_merged (mergeResult : loc) : Exec loc :=
  let* o := load mergeResult in
  match o with ResultObject _ _ m _ _ => exec_ret m | _ => exec_fail end.

(** [mergeResult.conflicts] *)
Definition field_conflicts (mergeResult : loc) : Exec loc :=
  let* o := load mergeResult in
  match o with ResultObject _ _ _ c _ => exec_ret c | _ => exec_fail end.

(** [new Map(source)] *)
Definition Map_new_from (source : loc) : Exec loc :=
  let* entries := load_map source in
  alloc (MapObject entries).

(** [m.set(key, value)] *)
Definition Map_set (m : loc) (key value : string) : Exec unit :=
  let* entries := load_map m in
  store m (MapObject (JsMap.set entries key value)).

(** [m.delete(key)] *)
Definition Map_delete (m : loc) (key : string) : Exec unit :=
  let* entries := load_map m in
  store m (MapObject (JsMap.delete entries key)).

(** [for (const x of xs) body] *)
Fixpoint for_of {A} (xs : list A) (body : A → Exec unit) : Exec unit :=
  match xs with
  | [] => exec_ret tt
  | x :: xs' => body x ;;; for_of xs' body
  end.

(** [if (v !== undefined) result.set(key, v); else result.delete(key);] *)
Definition Map_set_or_delete (result : loc) (key : string) (v : option string)
  : Exec unit :=
  match v with
  | Some x => Map_set result key x
  | None => Map_delete result key
  end.

(** The body of [for (const resolution of resolutions)] on the store. *)
Definition apply_resolution_heap (mergeResult result : loc)
    (resolution : ConflictResolution) : Exec unit :=
  let* conflicts_ref := field_conflicts mergeResult in
  let* conflicts := load_conflicts conflicts_ref in
  match find_conflict conflicts (cr_key resolution) with
  | None => exec_ret tt
  | Some conflict =>
      match cr_choice resolution with
      | choice_local =>
          Map_set_or_delete result (cr_key resolution) (ce_localValue conflict)
      | choice_remote =>
          Map_set_or_delete result (cr_key resolution) (ce_remoteValue conflict)
      | choice_base =>
          Map_set_or_delete result (cr_key resolution) (ce_baseValue conflict)
      | choice_manual =>
          Map_set_or_delete result (cr_key resolution) (cr_manualValue resolution)
      | choice_skip => exec_ret tt
      end
  end.

(** [applyResolutions] on the store. *)
Definition applyResolutions_heap (mergeResult : loc)
    (resolutions : list ConflictResolution) : Exec loc :=
  let* merged_ref := field_merged mergeResult in
  let* result := Map_new_from merged_ref in
  for_of resolutions (apply_resolution_heap mergeResult result) ;;;
  exec_ret result.

(** The [FileMergeResult] a reference denotes in a store. *)
Definition read_result (h : Heap) (l : loc) : option FileMergeResult :=
  match h !! l with
  | Some (ResultObject fileName status m c a) =>
      match h !! m, h !! c, h !! a with
      | Some (MapObject entries), Some (ConflictArray cs), Some (AutoMergeArray ams) =>
          Some {| fileName := fileName; status := status; merged := entries;
                  conflicts := cs; autoMerged := ams |}
      | _, _, _ => None
      end
  | _ => None
  end.

(** A store holding the divergent-edit sample at reference 1. *)
Definition sample_heap : Heap :=
  <[1%positive := ResultObject "test.env" conflicted 2%positive 3%positive 4%positive]>
    (<[2%positive := MapObject (merged sample_divergent)]>
       (<[3%positive := ConflictArray (conflicts sample_divergent)]>
          (<[4%positive := AutoMergeArray (autoMerged sample_divergent)]> ∅))).

(** ** [src/lib/manifest.ts]: the manifest fingerprint

    A string of the program is a [string] here; a character outside ASCII
    stands as its UTF-8 bytes. *)

Record ManifestSource := {
  ms_machineName : string;
  ms_os : string;
  ms_projectPath : string;
}.

Record FileSource := {
  fs_machineName : string;
  fs_os : string;
  fs_projectPath : string;
  fs_filePath : string;
}.

Record FileEntry := {
  fe_name : string;
  fe_hash : string;
  fe_size : Z;
  fe_updatedAt : string;
  fe_source : option FileSource;
}.

(** [version] is a number that holds an integer (the program writes 1). *)
Record ProjectManifest := {
  pm_version : Z;
  pm_projectName : string;
  pm_files : list FileEntry;
  pm_source : option ManifestSource;
}.

(** The object [{ name: file.name, hash: file.hash }]. *)
Record NameHash := {
  nh_name : string;
  nh_hash : string;
}.

(** *** [JSON.stringify] on the values the fingerprint holds *)

Definition dquote : string := String "034" EmptyString.

Definition hex_digit (n : nat) : ascii :=
  nth n ["0"; "1"; "2"; "3"; "4"; "5"; "6"; "7"; "8"; "9";
         "a"; "b"; "c"; "d"; "e"; "f"]%char "0"%char.

(** One character of [QuoteJSONString]. *)
Definition json_escape_char (c : ascii) : string :=
  let n := nat_of_ascii c in
  if (n =? 34)%nat then "\" ++ dquote
  else if (n =? 92)%nat then "\\"
  else if (n =? 8)%nat then "\b"
  else if (n =? 12)%nat then "\f"
  else if (n =? 10)%nat then "\n"
  else if (n =? 13)%nat then "\r"
  else if (n =? 9)%nat then "\t"
  else if (n <? 32)%nat then
    "\u00" ++ String (hex_digit (n / 16)) (String (hex_digit (n mod 16)) EmptyString)
  else String c EmptyString.

Fixpoint json_escape (s : string) : string :=
  match s with
  | EmptyString => EmptyString
  | String c s' => json_escape_char c ++ json_escape s'
  end.

Definition JSON_string (s : string) : string := dquote ++ json_escape s ++ dquote.

Definition JSON_number (n : Z) : string := NilZero.string_of_int (Z.to_int n).

Definition JSON_member (name value : string) : string := JSON_string name ++ ":" ++ value.

Definition JSON_object (members : list string) : string :=
  "{" ++ String.concat "," members ++ "}".

Definition JSON_array (items : list string) : string :=
  "[" ++ String.concat "," items ++ "]".

Definition JSON_name_hash (file : NameHash) : string :=
  JSON_object [ JSON_member "name" (JSON_string (nh_name file));
                JSON_member "hash" (JSON_string (nh_hash file)) ].

(** *** [Array.prototype.sort]

    The sort is stable, and for a consistent comparator its result is the
    one stable sorted arrangement; insertion from the right computes it. *)

Fixpoint insert_sorted {A} (compareFn : A → A → Z) (x : A) (sorted : list A) : list A :=
  match sorted with
  | [] => [x]
  | y :: rest =>
      if (compareFn x y <=? 0)%Z then x :: y :: rest
      else y :: insert_sorted compareFn x rest
  end.

Definition Array_sort {A} (compareFn : A → A → Z) (xs : list A) : list A :=
  foldr (insert_sorted compareFn) [] xs.

(** [x] may stand before [y] in the sorted array. *)
Definition sorted_before {A} (compareFn : A → A → Z) (x y : A) : Prop :=
  (compareFn x y <= 0)%Z.

(** What ECMAScript asks of a comparator for the sort order to be defined:
    swapping the arguments flips the sign, and the order is transitive. *)
Record ConsistentComparator (compare : string → string → Z) : Prop := {
  compare_flip : ∀ a b, Z.sgn (compare b a) = (- Z.sgn (compare a b))%Z;
  compare_trans : ∀ a b c,
    (compare a b <= 0)%Z → (compare b c <= 0)%Z → (compare a c <= 0)%Z;
}.

(** No two different names of the list compare as equal. *)
Definition no_ties (compare : string → string → Z) (names : list string) : Prop :=
  ∀ a b, a ∈ names → b ∈ names → compare a b = 0%Z → a = b.

Section Fingerprint.

(** [String.prototype.localeCompare], which the host provides. *)
Variable localeCompare : string → string → Z.

(** [(a, b) => a.name.localeCompare(b.name)] *)
Definition by_name (a b : NameHash) : Z := localeCompare (nh_name a) (nh_name b).

(** [manifest.files.map((file) => ({ name: file.name, hash: file.hash }))] *)
Definition name_hash_pairs (manifest : ProjectManifest) : list NameHash :=
  map (fun file => {| nh_name := fe_name file; nh_hash := fe_hash file |})
    (pm_files manifest).

Definition getManifestFingerprint (manifest : ProjectManifest) : string :=
  let files := Array_sort by_name (name_hash_pairs manifest) in
  JSON_object
    [ JSON_member "version" (JSON_number (pm_version manifest));
      JSON_member "projectName" (JSON_string (pm_projectName manifest));
      JSON_member "files" (JSON_array (map JSON_name_hash files)) ].

End Fingerprint.

Definition file_names (manifest : ProjectManifest) : list string :=
  map fe_name (pm_files manifest).

(** The manifest with another [files] array. *)
Definition with_files (manifest : ProjectManifest) (files : list FileEntry)
  : ProjectManifest :=
  {| pm_version := pm_version manifest;
     pm_projectName := pm_projectName manifest;
     pm_files := files;
     pm_source := pm_source manifest |}.

(** *** Two comparators to run the fingerprint with *)

(** The order of the strings as byte sequences. *)
Definition ordinal_compare (a b : string) : Z :=
  match String_as_OT.compare a b with
  | Lt => (-1)%Z
  | Eq => 0%Z
  | Gt => 1%Z
  end.

(** [e] followed by the combining acute accent U+0301, and the single
    character U+00E9: two spellings of one letter, canonically equivalent. *)
Definition e_acute_decomposed : string := String "e" (String "204" (String "129" EmptyString)).
Definition e_acute_composed : string := String "195" (String "169" EmptyString).

(** Canonical composition, for this one letter. *)
Fixpoint compose (s : string) : string :=
  match s with
  | String "e" (String "204" (String "129" rest)) =>
      String "195" (String "169" (compose rest))
  | String c rest => String c (compose rest)
  | EmptyString => EmptyString
  end.

(** A comparator that, as ECMAScript requires of [localeCompare], returns 0
    on canonically equivalent strings. *)
Definition canonical_compare (a b : string) : Z :=
  ordinal_compare (compose a) (compose b).

Definition sample_file (name hash : string) : FileEntry :=
  {| fe_name := name; fe_hash := hash; fe_size := 10;
     fe_updatedAt := "2024-01-01T00:00:00.000Z"; fe_source := None |}.

Definition sample_manifest (files : list FileEntry) : ProjectManifest :=
  {| pm_version := 1; pm_projectName := "demo"; pm_files := files; pm_source := None |}.

(** Two files whose names are different strings and canonically equivalent. *)
Definition tied_files : list FileEntry :=
  [ sample_file e_acute_decomposed "h1"; sample_file e_acute_composed "h2" ].

Definition plain_files : list FileEntry :=
  [ sample_file "b.env" "h2"; sample_file ".env" "h1" ].

(** ** [getAutoMergeSummary] and [createSyncResult] *)

(** The line pushed for one entry of [autoMerged]. *)
Definition summary_line (entry : AutoMergeEntry) : string :=
  match am_action entry with
  | added_from_local => "+ " ++ am_key entry ++ " (from local)"
  | added_from_remote => "+ " ++ am_key entry ++ " (from remote)"
  | deleted => "- " ++ am_key entry ++ " (deleted)"
  | updated_from_local => "~ " ++ am_key entry ++ " (updated from local)"
  | updated_from_remote => "~ " ++ am_key entry ++ " (updated from remote)"
  end.

Definition getAutoMergeSummary (mergeResult : FileMergeResult) : list string :=
  fold_left (fun lines entry => (lines ++ [summary_line entry])%list)
    (autoMerged mergeResult) [].

Record SyncResult := {
  sr_files : list FileMergeResult;
  sr_hasConflicts : bool;
  sr_requiresUserAction : bool;
}.

Definition createSyncResult (fileMergeResults : list FileMergeResult) : SyncResult :=
  let hasConflicts :=
    existsb (fun r => (0 <? length (conflicts r))%nat) fileMergeResults in
  let requiresUserAction := hasConflicts in
  {| sr_files := fileMergeResults;
     sr_hasConflicts := hasConflicts;
     sr_requiresUserAction := requiresUserAction |}.

(** The value an outcome gives its key, where it is not a conflict. *)
Definition outcome_value (r : KeyMergeResult) : option string :=
  match r with
  | Unchanged value => value
  | AutoMerged _ value => value
  | Conflict _ => None
  end.

(** The outcome of a key of a merge. *)
Definition key_outcome (base : option JsMap.t) (local remote : JsMap.t) (key : string)
  : KeyMergeResult :=
  mergeKey key (base_get base key) (JsMap.get local key) (JsMap.get remote key).

(** The value a resolution stores for its key, out of a conflict entry. *)
Definition chosen_value (conflict : ConflictEntry) (resolution : ConflictResolution)
  : option string :=
  match cr_choice resolution with
  | choice_local => ce_localValue conflict
  | choice_remote => ce_remoteValue conflict
  | choice_base => ce_baseValue conflict
  | choice_manual => cr_manualValue resolution
  | choice_skip => None
  end.

(** One merge per file, as the sync command runs them. *)
Record MergeInput := {
  mi_fileName : string;
  mi_base : option JsMap.t;
  mi_local : JsMap.t;
  mi_remote : JsMap.t;
}.

Definition merge_input (input : MergeInput) : FileMergeResult :=
  threeWayMergeEnvFile (mi_fileName input) (mi_base input) (mi_local input)
    (mi_remote input).

Definition sample_mixed_base : JsMap.t :=
  [("UNCHANGED", "same"); ("LOCAL_CHANGE", "original"); ("REMOTE_CHANGE", "original");
   ("CONFLICT", "original"); ("DELETED", "toDelete")].

Definition sample_mixed_local : JsMap.t :=
  [("UNCHANGED", "same"); ("LOCAL_CHANGE", "newLocal"); ("REMOTE_CHANGE", "original");
   ("CONFLICT", "localConflict"); ("NEW_LOCAL", "addedLocal")].

Definition sample_mixed_remote : JsMap.t :=
  [("UNCHANGED", "same"); ("LOCAL_CHANGE", "original"); ("REMOTE_CHANGE", "newRemote");
   ("CONFLICT", "remoteConflict"); ("NEW_REMOTE", "addedRemote")].

Definition sample_mixed : FileMergeResult :=
  threeWayMergeEnvFile "test.env" (Some sample_mixed_base) sample_mixed_local
    sample_mixed_remote.

(** The summary line of a key auto-merged with an action. *)
Definition line_for (key : string) (action : AutoMergeAction) : string :=
  summary_line {| am_key := key; am_action := action; am_value := None |}.

(** ** [src/lib/env-files.ts]: reading and writing env files

    The text functions work on the list of the characters of a string, the
    characters outside ASCII being their UTF-8 bytes as before. The
    characters the functions look for ([=], [#], the quotes, the backslash,
    the line feed) are ASCII, so a position in the list is a position in
    the string. *)

Abbreviation chars := (list ascii).

Definition LF : ascii := "010".
Definition double_quote : ascii := "034".
Definition single_quote : ascii := "'".
Definition backslash : ascii := "\".

(** The code points [String.prototype.trim] removes (white space and line
    terminators), each as its UTF-8 bytes: U+0009 to U+000D, U+0020, U+00A0,
    U+1680, U+2000 to U+200A, U+2028, U+2029, U+202F, U+205F, U+3000 and
    U+FEFF. *)
Definition white_space : list chars :=
  [ ["009"]; ["010"]; ["011"]; ["012"]; ["013"]; ["032"];
    ["194"; "160"];
    ["225"; "154"; "128"];
    ["226"; "128"; "128"]; ["226"; "128"; "129"]; ["226"; "128"; "130"];
    ["226"; "128"; "131"]; ["226"; "128"; "132"]; ["226"; "128"; "133"];
    ["226"; "128"; "134"]; ["226"; "128"; "135"]; ["226"; "128"; "136"];
    ["226"; "128"; "137"]; ["226"; "128"; "138"];
    ["226"; "128"; "168"]; ["226"; "128"; "169"]; ["226"; "128"; "175"];
    ["226"; "129"; "159"];
    ["227"; "128"; "128"];
    ["239"; "187"; "191"] ]%char.

(** The characters that are part of no white space: every printable ASCII
    character but the space. *)
Definition outside_white_space (c : ascii) : Prop :=
  Forall (λ p, c ∉ p) white_space.

(** The rest of [s] after one leading occurrence of one of the patterns. *)
Definition strip_leading (patterns : list chars) (s : chars) : option chars :=
  match find (fun p => bool_decide (p `prefix_of` s)) patterns with
  | Some p => Some (drop (length p) s)
  | None => None
  end.

Fixpoint trim_leading_steps (patterns : list chars) (steps : nat) (s : chars) : chars :=
  match steps with
  | O => s
  | S steps' =>
      match strip_leading patterns s with
      | Some rest => trim_leading_steps patterns steps' rest
      | None => s
      end
  end.

(** [s] without its leading run of the patterns. *)
Definition trim_leading (patterns : list chars) (s : chars) : chars :=
  trim_leading_steps patterns (length s) s.

(** [s.trimStart()], [s.trimEnd()], [s.trim()] *)
Definition trimStart (s : chars) : chars := trim_leading white_space s.

Definition trimEnd (s : chars) : chars :=
  rev (trim_leading (map (@rev ascii) white_space) (rev s)).

Definition trim (s : chars) : chars := trimStart (trimEnd s).

(** [s.split(sep)] for a separator of one character *)
Fixpoint split_on (sep : ascii) (s : chars) : list chars :=
  match s with
  | [] => [[]]
  | c :: rest =>
      if Ascii.eqb c sep then [] :: split_on sep rest
      else
        match split_on sep rest with
        | first :: others => (c :: first) :: others
        | [] => [[c]]
        end
  end.

(** [lines.join(sep)] *)
Fixpoint join_with (sep : ascii) (lines : list chars) : chars :=
  match lines with
  | [] => []
  | [line] => line
  | line :: lines' => line ++ sep :: join_with sep lines'
  end.

(** [s.indexOf(c)], [None] for -1 *)
Fixpoint index_of (c : ascii) (s : chars) : option nat :=
  match s with
  | [] => None
  | x :: rest => if Ascii.eqb x c then Some O else option_map S (index_of c rest)
  end.

(** [s.includes(c)] *)
Definition includes (c : ascii) (s : chars) : bool := existsb (Ascii.eqb c) s.

(** [s.startsWith(c)], [s.endsWith(c)] *)
Definition starts_with (c : ascii) (s : chars) : bool :=
  match s with x :: _ => Ascii.eqb x c | [] => false end.

Definition ends_with (c : ascii) (s : chars) : bool := starts_with c (rev s).

(** [s.slice(1, -1)] *)
Definition slice_1_m1 (s : chars) : chars := take (length s - 2) (drop 1 s).

(** [s.replace(/c/g, by)] *)
Definition replace_all (c : ascii) (by_ : chars) (s : chars) : chars :=
  flat_map (fun x => if Ascii.eqb x c then by_ else [x]) s.

(** The body of the loop of [parseEnvFile]. *)
Definition parse_line (vars : JsMap.t) (line : chars) : JsMap.t :=
  let trimmed := trim line in
  if bool_decide (trimmed = []) || starts_with "#" trimmed then vars
  else
    match index_of "=" trimmed with
    | None => vars
    | Some eqIndex =>
        let key := trim (take eqIndex trimmed) in
        let value := trim (drop (S eqIndex) trimmed) in
        let value :=
          if (starts_with double_quote value && ends_with double_quote value)
             || (starts_with single_quote value && ends_with single_quote value)
          then slice_1_m1 value
          else value in
        JsMap.set vars (string_of_list_ascii key) (string_of_list_ascii value)
    end.

Definition parseEnvFile (content : string) : JsMap.t :=
  fold_left parse_line (split_on LF (list_ascii_of_string content)) JsMap.empty.

Definition needsQuoting (value : chars) : bool :=
  includes " " value
  || includes double_quote value
  || includes single_quote value
  || includes "#" value
  || includes "$" value
  || includes LF value
  || includes backslash value
  || bool_decide (value = []).

(** The three [replace] calls of [formatEnvValue], in their order. *)
Definition escape_value (value : chars) : chars :=
  replace_all LF [backslash; "n"%char]
    (replace_all double_quote [backslash; double_quote]
       (replace_all backslash [backslash; backslash] value)).

Definition formatEnvValue (value : chars) : chars :=
  if negb (needsQuoting value) then value
  else double_quote :: escape_value value ++ [double_quote].

Record EnvDiff := {
  added : list string;
  removed : list string;
  changed : list string;
}.

Definition diffEnvFiles (local remote : JsMap.t) : EnvDiff :=
  let after_local :=
    fold_left
      (fun (acc : list string * list string) key =>
         if negb (JsMap.has remote key) then ((fst acc ++ [key])%list, snd acc)
         else if negb (strict_eq (JsMap.get local key) (JsMap.get remote key))
              then (fst acc, (snd acc ++ [key])%list)
              else acc)
      (JsMap.keys local) ([], []) in
  let removed :=
    fold_left
      (fun acc key => if negb (JsMap.has local key) then (acc ++ [key])%list else acc)
      (JsMap.keys remote) [] in
  {| added := fst after_local; removed := removed; changed := snd after_local |}.

Section Serialize.

(** The order of [Array.prototype.sort] without a comparator: strings by
    their UTF-16 code units, which the host provides. *)
Variable compareStrings : string → string → Z.

(** [`${key}=${formatEnvValue(vars.get(key)!)}`]; the key comes from
    [vars.keys()], so the value is there. *)
Definition env_line (vars : JsMap.t) (key : string) : chars :=
  list_ascii_of_string key
  ++ "="%char
     :: formatEnvValue (list_ascii_of_string (default EmptyString (JsMap.get vars key))).

Definition serializeEnvFile (vars : JsMap.t) : string :=
  let sortedKeys := Array_sort compareStrings (JsMap.keys vars) in
  let lines := map (env_line vars) sortedKeys in
  string_of_list_ascii (join_with LF lines ++ [LF]).

End Serialize.

(** What [parseEnvFile] reads back for a value [serializeEnvFile] wrote:
    the escaped text of a value that was quoted, and the trimmed text of one
    that was not. *)
Definition read_back (value : string) : string :=
  let v := list_ascii_of_string value in
  string_of_list_ascii (if needsQuoting v then escape_value v else trim v).

(** A key [parseEnvFile] reads back as written: no white space at its ends,
    no [=] and no line feed in it, and no [#] at its start. *)
Definition plain_key (key : string) : Prop :=
  let k := list_ascii_of_string key in
  trimStart k = k ∧ trimEnd k = k
  ∧ includes "=" k = false ∧ includes LF k = false ∧ starts_with "#" k = false.

(** A value the round trip restores: no double quote, backslash or line feed
    in it, and no white space at the ends of one that is written bare. *)
Definition restorable_value (value : string) : Prop :=
  let v := list_ascii_of_string value in
  includes double_quote v = false ∧ includes backslash v = false
  ∧ includes LF v = false
  ∧ (needsQuoting v = false → trimStart v = v ∧ trimEnd v = v).

Definition sample_env : JsMap.t :=
  [("B_URL", "http://x/?a=1"); ("A_NAME", "two words"); ("C_EMPTY", EmptyString)].

Definition sample_env_reordered : JsMap.t :=
  [("C_EMPTY", EmptyString); ("A_NAME", "two words"); ("B_URL", "http://x/?a=1")].

Definition sample_env_quoted : JsMap.t :=
  [("PATH_WIN", "C:\dir"); ("OK", "fine")].

(** ** [src/lib/conflict-ui.ts]: the choices offered for a conflict *)

Record UiOption := {
  opt_key : string;
  opt_label : string;
  opt_choice : ResolutionChoice;
}.

Definition is_edit_vs_delete (t : ConflictType) : bool :=
  match t with edit_vs_delete => true | _ => false end.

(** [buildOptions]: the [push] calls in their order. *)
Definition buildOptions (conflict : ConflictEntry) : list UiOption :=
  let local_option :=
    if is_defined (ce_localValue conflict) then
      let recommended :=
        if is_edit_vs_delete (ce_conflictType conflict)
           && negb (is_defined (ce_remoteValue conflict))
        then " (recommended)" else EmptyString in
      {| opt_key := "l"; opt_label := "Use local value" ++ recommended;
         opt_choice := choice_local |}
    else
      {| opt_key := "l"; opt_label := "Delete (local choice)";
         opt_choice := choice_local |} in
  let remote_option :=
    if is_defined (ce_remoteValue conflict) then
      let recommended :=
        if is_edit_vs_delete (ce_conflictType conflict)
           && negb (is_defined (ce_localValue conflict))
        then " (recommended)" else EmptyString in
      {| opt_key := "r"; opt_label := "Use remote value" ++ recommended;
         opt_choice := choice_remote |}
    else
      {| opt_key := "r"; opt_label := "Delete (remote choice)";
         opt_choice := choice_remote |} in
  let base_options :=
    if is_defined (ce_baseValue conflict) then
      [ {| opt_key := "b"; opt_label := "Keep base value"; opt_choice := choice_base |} ]
    else [] in
  ([local_option; remote_option] ++ base_options
   ++ [ {| opt_key := "e"; opt_label := "Edit manually"; opt_choice := choice_manual |};
        {| opt_key := "s"; opt_label := "Skip (leave unresolved)";
           opt_choice := choice_skip |} ])%list.

(** Equality of choices is decidable: the code compares them with [===]. *)
#[global] Instance ResolutionChoice_eq_dec : EqDecision ResolutionChoice.
Proof. solve_decision. Defined.

(** [parseChoice] *)
Definition parseChoice (answer : string) (options : list UiOption) : ResolutionChoice :=
  match find (fun o => String.eqb (opt_key o) answer) options with
  | Some option => opt_choice option
  | None => choice_skip
  end.

(** [prompt]: the line the user typed, as the promise resolves it,
    [answer.trim().toLowerCase()]. [toLowerCase] is the conversion of the
    runtime, a parameter here. *)
Definition prompt (toLowerCase : string → string) (typed : string) : string :=
  toLowerCase (string_of_list_ascii (trim (list_ascii_of_string typed))).

(** [resolveConflict], on the lines the user types: [typedAnswer] at
    [Choose [l/r/b/e/s]:], and [typedValue] at [Enter value:], which is
    asked only when the choice is [manual]. Both go through [prompt]. *)
Definition resolveConflict (toLowerCase : string → string) (conflict : ConflictEntry)
    (typedAnswer typedValue : string) : ConflictResolution :=
  let options := buildOptions conflict in
  let answer := prompt toLowerCase typedAnswer in
  let choice := parseChoice answer options in
  match choice with
  | choice_manual =>
      let manualValue := prompt toLowerCase typedValue in
      {| cr_key := ce_key conflict; cr_choice := choice_manual;
         cr_manualValue := Some manualValue |}
  | _ => {| cr_key := ce_key conflict; cr_choice := choice; cr_manualValue := None |}
  end.

(** A sample conversion: [toLowerCase] as it acts on a text of ASCII
    characters, the letters [A] to [Z] replaced by [a] to [z]. *)
Definition lower_ascii (c : ascii) : ascii :=
  let n := nat_of_ascii c in
  if (65 <=? n)%nat && (n <=? 90)%nat then ascii_of_nat (n + 32) else c.

Definition toLowerCase_ascii (s : string) : string :=
  string_of_list_ascii (map lower_ascii (list_ascii_of_string s)).

(** The label of the option with a key. *)
Definition option_label (key : string) (options : list UiOption) : option string :=
  option_map opt_label (find (fun o => String.eqb (opt_key o) key) options).

(** ** [src/commands/push.ts]: recording a pushed file in the manifest *)

(** [files.findIndex((f) => f.name === name)], [None] for -1 *)
Definition findIndex_name (name : string) (files : list FileEntry) : option nat :=
  fst <$> list_find (fun f => fe_name f = name) files.

(** [if (existingIndex >= 0) manifest.files[existingIndex] = entry;
     else manifest.files.push(entry);] *)
Definition record_file (files : list FileEntry) (entry : FileEntry) : list FileEntry :=
  match findIndex_name (fe_name entry) files with
  | Some existingIndex => <[existingIndex := entry]> files
  | None => (files ++ [entry])%list
  end.

(** The manifest after the loop over the pushed files. *)
Definition record_files (manifest : ProjectManifest) (entries : list FileEntry)
  : ProjectManifest :=
  with_files manifest (fold_left record_file entries (pm_files manifest)).

(** [manifest.files.find((f) => f.name === name)] *)
Definition find_file (name : string) (files : list FileEntry) : option FileEntry :=
  find (fun f => String.eqb (fe_name f) name) files.

Definition empty_manifest (projectName : string) : ProjectManifest :=
  {| pm_version := 1; pm_projectName := projectName; pm_files := []; pm_source := None |}.

(** ** [src/commands/sync.ts]: resolving every conflict by a flag

    With [--ours] or [--theirs] the sync command runs, for each merge
    result, [resolveAllConflicts] and [applyResolutions], and assigns the
    [merged], [conflicts] and [status] fields of the result. The result is
    an object of the store, so the body is written against it. *)

Local Open Scope exec_scope.

Definition load_autoMerged (l : loc) : Exec (list AutoMergeEntry) :=
  let* o := load l in
  match o with AutoMergeArray items => exec_ret items | _ => exec_fail end.

(** [result.autoMerged] *)
Definition field_autoMerged (mergeResult : loc) : Exec loc :=
  let* o := load mergeResult in
  match o with ResultObject _ _ _ _ a => exec_ret a | _ => exec_fail end.

(** [resolveAllConflicts(result, strategy)], reading [result.conflicts] *)
Definition resolveAllConflicts_heap (mergeResult : loc) (strategy : Strategy)
  : Exec (list ConflictResolution) :=
  let* conflicts_ref := field_conflicts mergeResult in
  let* conflicts := load_conflicts conflicts_ref in
  exec_ret (map (strategy_resolution strategy) conflicts).

(** [result.merged = value] *)
Definition set_field_merged (mergeResult value : loc) : Exec unit :=
  let* o := load mergeResult in
  match o with
  | ResultObject f s _ c a => store mergeResult (ResultObject f s value c a)
  | _ => exec_fail
  end.

(** [result.conflicts = value] *)
Definition set_field_conflicts (mergeResult value : loc) : Exec unit :=
  let* o := load mergeResult in
  match o with
  | ResultObject f s m _ a => store mergeResult (ResultObject f s m value a)
  | _ => exec_fail
  end.

(** [result.status = value] *)
Definition set_field_status (mergeResult : loc) (value : MergeStatus) : Exec unit :=
  let* o := load mergeResult in
  match o with
  | ResultObject f _ m c a => store mergeResult (ResultObject f value m c a)
  | _ => exec_fail
  end.

(** The body of [for (const result of mergeResults)] under [--ours]
    ([strategy_local]) and [--theirs] ([strategy_remote]):
    [const resolutions = resolveAllConflicts(result, strategy);
     result.merged = applyResolutions(result, resolutions);
     result.conflicts = [];
     result.status = result.autoMerged.length > 0 ? "auto_merged" : "clean";] *)
Definition resolve_by_flag (mergeResult : loc) (strategy : Strategy) : Exec unit :=
  let* resolutions := resolveAllConflicts_heap mergeResult strategy in
  let* resolved := applyResolutions_heap mergeResult resolutions in
  set_field_merged mergeResult resolved ;;;
  let* empty := alloc (ConflictArray []) in
  set_field_conflicts mergeResult empty ;;;
  let* autoMerged_ref := field_autoMerged mergeResult in
  let* entries := load_autoMerged autoMerged_ref in
  set_field_status mergeResult
    (if (0 <? length entries)%nat then auto_merged else clean).

(** The result a flag leaves behind, from the fields of [value]. *)
Definition resolved_by_flag (strategy : Strategy) (value : FileMergeResult)
  : FileMergeResult :=
  {| fileName := fileName value;
     status := if (0 <? length (autoMerged value))%nat then auto_merged else clean;
     merged := applyResolutions value (resolveAllConflicts value strategy);
     conflicts := [];
     autoMerged := autoMerged value |}.

(** [r.status !== "clean"] *)
Definition not_clean (s : MergeStatus) : bool :=
  match s with clean => false | _ => true end.

(** [mergeResults.some((r) => r.status !== "clean" || r.autoMerged.length > 0)],
    the test the sync command makes before it writes or uploads anything. *)
Definition hasChanges (mergeResults : list FileMergeResult) : bool :=
  existsb
    (fun r => not_clean (status r) || (0 <? length (autoMerged r))%nat)
    mergeResults.

(** * Properties *)

Lemma strict_eq_spec a b : reflect (a = b) (strict_eq a b).
Proof.
  destruct a as [x|], b as [y|]; simpl; try (constructor; congruence).
  destruct (String.eqb_spec x y); constructor; congruence.
Qed.

Lemma strict_eq_refl a : strict_eq a a = true.
Proof. destruct (strict_eq_spec a a); congruence. Qed.


Module JsMapFacts.
Import JsMap.

Lemma get_set_eq m k v : get (set m k v) k = Some v.
Proof.
  induction m as [|[k' v'] m IH]; simpl.
  - by rewrite String.eqb_refl.
  - destruct (String.eqb_spec k' k) as [->|Hne]; simpl.
    + by rewrite String.eqb_refl.
    + destruct (String.eqb_spec k' k); congruence.
Qed.

Lemma get_set_ne m k k' v : k ≠ k' → get (set m k v) k' = get m k'.
Proof.
  intros Hne. induction m as [|[k0 v0] m IH]; simpl.
  - destruct (String.eqb_spec k k'); congruence.
  - destruct (String.eqb_spec k0 k) as [->|Hk]; simpl.
    + destruct (String.eqb_spec k k'); congruence.
    + by rewrite IH.
Qed.

Lemma get_delete_eq m k : get (delete m k) k = None.
Proof.
  induction m as [|[k' v'] m IH]; simpl; [done|].
  destruct (String.eqb_spec k' k) as [->|Hne]; simpl; [done|].
  destruct (String.eqb_spec k' k); congruence.
Qed.

Lemma get_delete_ne m k k' : k ≠ k' → get (delete m k) k' = get m k'.
Proof.
  intros Hne. induction m as [|[k0 v0] m IH]; simpl; [done|].
  destruct (String.eqb_spec k0 k) as [->|Hk]; simpl.
  - destruct (String.eqb_spec k k'); congruence.
  - by rewrite IH.
Qed.

Lemma get_Some_keys m k v : get m k = Some v → k ∈ keys m.
Proof.
  induction m as [|[k' v'] m IH]; simpl; [done|].
  destruct (String.eqb_spec k' k) as [->|Hne]; intros H.
  - apply list_elem_of_here.
  - apply list_elem_of_further. by apply IH.
Qed.

Lemma get_None_keys m k : get m k = None → k ∉ keys m.
Proof.
  induction m as [|[k' v'] m IH]; simpl.
  - intros _ H. by apply not_elem_of_nil in H.
  - destruct (String.eqb_spec k' k) as [->|Hne]; [done|].
    intros H Hin. apply elem_of_cons in Hin as [->|Hin]; [done|].
    by apply IH.
Qed.

Lemma keys_set m k v :
  keys (set m k v) = if decide (k ∈ keys m) then keys m else (keys m ++ [k])%list.
Proof.
  induction m as [|[k' v'] m IH]; cbn [set keys map fst].
  - by rewrite decide_False by apply not_elem_of_nil.
  - destruct (String.eqb_spec k' k) as [->|Hne]; cbn [map fst].
    + by rewrite decide_True by apply list_elem_of_here.
    + fold (keys (set m k v)). fold (keys m). rewrite IH.
      destruct (decide (k ∈ keys m)) as [Hin|Hin].
      * by rewrite decide_True by by apply list_elem_of_further.
      * rewrite decide_False; [done|].
        intros H. apply elem_of_cons in H as [->|H]; done.
Qed.

Lemma keys_delete m k : keys (delete m k) = filter (λ k', k' ≠ k) (keys m).
Proof.
  induction m as [|[k' v'] m IH]; cbn [delete keys map fst]; [done|].
  fold (keys m). destruct (String.eqb_spec k' k) as [->|Hne].
  - rewrite filter_cons_False by (intros H; by apply H). exact IH.
  - rewrite filter_cons_True by done. cbn [map fst]. by rewrite <- IH.
Qed.

(** [set] and [delete] keep every key once; on such a map [delete] removes
    the one entry of the key. *)
Lemma wf_set m k v : wf m → wf (set m k v).
Proof.
  unfold wf. intros Hm. rewrite keys_set. case_decide; [done|].
  apply NoDup_app. split_and!; [done| |apply NoDup_singleton].
  intros x Hx Hk. by apply list_elem_of_singleton in Hk as ->.
Qed.

Lemma wf_delete m k : wf m → wf (delete m k).
Proof. unfold wf. intros Hm. rewrite keys_delete. by apply NoDup_filter. Qed.

End JsMapFacts.

Example mergeKey_divergent :
  mergeKey "K" (Some "o") (Some "l") (Some "r") = Conflict divergent_edit.
Proof. reflexivity. Qed.

Example mergeKey_local_deleted :
  mergeKey "K" (Some "o") None (Some "r") = Conflict edit_vs_delete.
Proof. reflexivity. Qed.

Example mergeKey_absent_everywhere : mergeKey "K" None None None = Unchanged None.
Proof. reflexivity. Qed.

Ltac case_strings :=
  repeat match goal with
    | |- context [String.eqb ?a ?b] => destruct (String.eqb_spec a b)
    end.

Lemma mergeKey_table key baseVal localVal remoteVal :
  match spec_resolve key baseVal localVal remoteVal with
  | Some outcome => mergeKey key baseVal localVal remoteVal = outcome
  | None => baseVal = None ∧ localVal = None ∧ remoteVal = None
  end.
Proof.
  destruct baseVal as [b|], localVal as [l|], remoteVal as [r|];
    cbn; case_strings; subst; cbn; try congruence; auto.
Qed.

(** ** Scenarios of the test suite, run on the embedding *)

Example scenario_disjoint_additions :
  threeWayMergeEnvFile "test.env" None [("KEY1", "value1")] [("KEY2", "value2")]
  = {| fileName := "test.env";
       status := auto_merged;
       merged := [("KEY1", "value1"); ("KEY2", "value2")];
       conflicts := [];
       autoMerged :=
         [ {| am_key := "KEY1"; am_action := added_from_local; am_value := Some "value1" |};
           {| am_key := "KEY2"; am_action := added_from_remote; am_value := Some "value2" |} ] |}.
Proof. reflexivity. Qed.

Example scenario_divergent_edit :
  threeWayMergeEnvFile "test.env" (Some [("K", "o")]) [("K", "l")] [("K", "r")]
  = {| fileName := "test.env";
       status := conflicted;
       merged := [("K", "l")];
       conflicts :=
         [ {| ce_key := "K"; ce_conflictType := divergent_edit;
              ce_baseValue := Some "o"; ce_localValue := Some "l";
              ce_remoteValue := Some "r" |} ];
       autoMerged := [] |}.
Proof. reflexivity. Qed.

Example scenario_local_deletes :
  threeWayMergeEnvFile "test.env" (Some [("K", "o")]) [] [("K", "r")]
  = {| fileName := "test.env";
       status := conflicted;
       merged := [];
       conflicts :=
         [ {| ce_key := "K"; ce_conflictType := edit_vs_delete;
              ce_baseValue := Some "o"; ce_localValue := None;
              ce_remoteValue := Some "r" |} ];
       autoMerged := [] |}.
Proof. reflexivity. Qed.

Example scenario_mutual_deletion :
  threeWayMergeEnvFile "test.env" (Some [("K", "o")]) [] []
  = {| fileName := "test.env";
       status := auto_merged;
       merged := [];
       conflicts := [];
       autoMerged := [ {| am_key := "K"; am_action := deleted; am_value := None |} ] |}.
Proof. reflexivity. Qed.

Example scenario_same_value_no_base :
  status (threeWayMergeEnvFile "test.env" None [("KEY", "same")] [("KEY", "same")]) = clean.
Proof. reflexivity. Qed.

(** ** Sets of keys *)

Lemma existsb_eqb_elem_of (x : string) (s : list string) :
  existsb (String.eqb x) s = true ↔ x ∈ s.
Proof.
  rewrite existsb_exists. split.
  - intros (y & Hin & Heq). apply String.eqb_eq in Heq as ->.
    by apply list_elem_of_In.
  - intros Hin. exists x. split; [by apply list_elem_of_In|apply String.eqb_refl].
Qed.

Lemma set_add_elem_of (s : list string) (x y : string) :
  y ∈ set_add s x ↔ y ∈ s ∨ y = x.
Proof.
  unfold set_add. destruct (existsb (String.eqb x) s) eqn:E.
  - apply existsb_eqb_elem_of in E. split; [by left|]. by intros [?| ->].
  - rewrite elem_of_app, list_elem_of_singleton. tauto.
Qed.

Lemma set_add_NoDup (s : list string) (x : string) : NoDup s → NoDup (set_add s x).
Proof.
  intros Hs. unfold set_add. destruct (existsb (String.eqb x) s) eqn:E; [done|].
  apply NoDup_app. split_and!; [done| |apply NoDup_singleton].
  intros y Hy Hx. apply list_elem_of_singleton in Hx as ->.
  apply existsb_eqb_elem_of in Hy. congruence.
Qed.

Lemma fold_set_add_elem_of (xs acc : list string) (y : string) :
  y ∈ fold_left set_add xs acc ↔ y ∈ acc ∨ y ∈ xs.
Proof.
  revert acc. induction xs as [|x xs IH]; intros acc; simpl.
  - rewrite elem_of_nil. tauto.
  - rewrite IH, set_add_elem_of, elem_of_cons. tauto.
Qed.

Lemma fold_set_add_NoDup (xs acc : list string) :
  NoDup acc → NoDup (fold_left set_add xs acc).
Proof.
  revert acc. induction xs as [|x xs IH]; intros acc Hacc; simpl; [done|].
  by apply IH, set_add_NoDup.
Qed.

Lemma new_Set_elem_of (xs : list string) (y : string) : y ∈ new_Set xs ↔ y ∈ xs.
Proof. unfold new_Set. rewrite fold_set_add_elem_of, elem_of_nil. tauto. Qed.

Lemma new_Set_NoDup (xs : list string) : NoDup (new_Set xs).
Proof. apply fold_set_add_NoDup, NoDup_nil_2. Qed.

Lemma all_keys_elem_of base local remote k :
  k ∈ all_keys base local remote
  ↔ k ∈ base_keys base ∨ k ∈ JsMap.keys local ∨ k ∈ JsMap.keys remote.
Proof. unfold all_keys. by rewrite new_Set_elem_of, !elem_of_app. Qed.

(** ** The merge loop *)

Lemma merge_iteration_merged base local remote acc key :
  acc_merged (merge_iteration base local remote acc key)
  = set_if_defined (acc_merged acc) key (preview base local remote key).
Proof.
  unfold merge_iteration, preview.
  by destruct (mergeKey key _ _ _).
Qed.

Lemma get_set_if_defined m key v k :
  JsMap.get (set_if_defined m key v) k
  = if decide (key = k) then from_option Some (JsMap.get m k) v else JsMap.get m k.
Proof.
  destruct v as [x|]; simpl; case_decide; subst; auto using
    JsMapFacts.get_set_eq, JsMapFacts.get_set_ne.
Qed.

Lemma merge_loop_merged base local remote keys acc k :
  JsMap.get (acc_merged (merge_loop base local remote keys acc)) k
  = if decide (k ∈ keys)
    then from_option Some (JsMap.get (acc_merged acc) k) (preview base local remote k)
    else JsMap.get (acc_merged acc) k.
Proof.
  unfold merge_loop. revert acc.
  induction keys as [|a keys IH]; intros acc; cbn [fold_left].
  - case_decide as H; [by apply not_elem_of_nil in H|done].
  - rewrite IH, merge_iteration_merged, get_set_if_defined.
    destruct (decide (a = k)) as [->|Hne].
    + destruct (decide (k ∈ k :: keys)) as [_|Hn];
        [|exfalso; apply Hn, list_elem_of_here].
      case_decide; [|done]. by destruct (preview base local remote k).
    + destruct (decide (k ∈ keys)) as [Hin|Hin];
        destruct (decide (k ∈ a :: keys)) as [Hin'|Hin']; try done.
      * exfalso. by apply Hin', list_elem_of_further.
      * exfalso. apply elem_of_cons in Hin' as [->|?]; done.
Qed.

Lemma merge_loop_conflicts base local remote keys acc :
  Forall (records_key base local remote) (acc_conflicts acc) →
  Forall (records_key base local remote)
    (acc_conflicts (merge_loop base local remote keys acc)).
Proof.
  revert acc. induction keys as [|a keys IH]; intros acc Hacc; simpl; [done|].
  apply IH. unfold merge_iteration.
  destruct (mergeKey a _ _ _) eqn:E; simpl; try done.
  apply Forall_app. split; [done|]. apply Forall_singleton.
  by repeat split.
Qed.

Lemma merge_iteration_conflict_keys base local remote acc a k :
  k ∈ map ce_key (acc_conflicts (merge_iteration base local remote acc a))
  ↔ k ∈ map ce_key (acc_conflicts acc)
    ∨ (k = a ∧ is_conflict (mergeKey a (base_get base a) (JsMap.get local a)
                              (JsMap.get remote a)) = true).
Proof.
  unfold merge_iteration.
  destruct (mergeKey a _ _ _) eqn:E; cbn [acc_conflicts is_conflict].
  - split; [tauto|]. by intros [?|[_ ?]].
  - split; [tauto|]. by intros [?|[_ ?]].
  - rewrite map_app, elem_of_app. cbn [map ce_key].
    rewrite list_elem_of_singleton. tauto.
Qed.

Lemma merge_loop_conflict_keys base local remote keys acc k :
  k ∈ map ce_key (acc_conflicts (merge_loop base local remote keys acc))
  ↔ k ∈ map ce_key (acc_conflicts acc)
    ∨ (k ∈ keys ∧ is_conflict (mergeKey k (base_get base k) (JsMap.get local k)
                                 (JsMap.get remote k)) = true).
Proof.
  unfold merge_loop. revert acc.
  induction keys as [|a keys IH]; intros acc; cbn [fold_left].
  - rewrite elem_of_nil. tauto.
  - rewrite IH, merge_iteration_conflict_keys, elem_of_cons.
    split.
    + intros [[?|[-> ?]]|[? ?]]; auto.
    + intros [?|[[->|?] ?]]; auto.
Qed.

Lemma threeWayMerge_conflicts_record fileName base local remote :
  Forall (records_key base local remote)
    (conflicts (threeWayMergeEnvFile fileName base local remote)).
Proof. apply merge_loop_conflicts. simpl. constructor. Qed.

Lemma conflict_outcome_present key baseVal localVal remoteVal :
  is_conflict (mergeKey key baseVal localVal remoteVal) = true →
  is_defined localVal = true ∨ is_defined remoteVal = true.
Proof. destruct baseVal, localVal, remoteVal; cbn; auto. Qed.

Lemma conflict_key_in_all_keys base local remote k :
  is_conflict (mergeKey k (base_get base k) (JsMap.get local k) (JsMap.get remote k))
  = true →
  k ∈ all_keys base local remote.
Proof.
  intros H. apply conflict_outcome_present in H. apply all_keys_elem_of.
  destruct H as [H|H].
  - destruct (JsMap.get local k) eqn:E; [|done].
    right; left. eauto using JsMapFacts.get_Some_keys.
  - destruct (JsMap.get remote k) eqn:E; [|done].
    right; right. eauto using JsMapFacts.get_Some_keys.
Qed.

Lemma threeWayMerge_conflict_keys fileName base local remote k :
  k ∈ map ce_key (conflicts (threeWayMergeEnvFile fileName base local remote))
  ↔ is_conflict (mergeKey k (base_get base k) (JsMap.get local k) (JsMap.get remote k))
    = true.
Proof.
  simpl. rewrite merge_loop_conflict_keys. simpl. rewrite elem_of_nil.
  split; [by intros [[]|[_ ?]]|]. intros H. right. split; [|done].
  by apply conflict_key_in_all_keys.
Qed.

Lemma threeWayMerge_merged fileName base local remote k :
  JsMap.get (merged (threeWayMergeEnvFile fileName base local remote)) k
  = if decide (k ∈ all_keys base local remote) then preview base local remote k
    else None.
Proof.
  simpl. rewrite merge_loop_merged. simpl.
  case_decide; [|done]. by destruct (preview base local remote k).
Qed.

Lemma threeWayMerge_preview_local fileName base local remote key :
  is_conflict
    (mergeKey key (base_get base key) (JsMap.get local key) (JsMap.get remote key))
  = true →
  JsMap.get (merged (threeWayMergeEnvFile fileName base local remote)) key
  = JsMap.get local key.
Proof.
  intros Hc. rewrite threeWayMerge_merged.
  rewrite decide_True by by apply conflict_key_in_all_keys.
  unfold preview. by destruct (mergeKey key _ _ _).
Qed.

(** ** Resolutions *)

Lemma find_conflict_Some cs key c :
  find_conflict cs key = Some c → c ∈ cs ∧ ce_key c = key.
Proof.
  unfold find_conflict. intros H. apply find_some in H as [Hin Heq].
  split; [by apply list_elem_of_In|by apply String.eqb_eq].
Qed.

Lemma find_conflict_None cs key :
  find_conflict cs key = None ↔ key ∉ map ce_key cs.
Proof.
  unfold find_conflict. induction cs as [|c cs IH]; cbn [find map].
  - split; [intros _; apply not_elem_of_nil|done].
  - rewrite not_elem_of_cons. destruct (String.eqb_spec (ce_key c) key) as [E|E].
    + split; [done|]. intros [? _]. congruence.
    + rewrite IH. split; [intros ?; split; [congruence|done]|tauto].
Qed.

Lemma find_conflict_is_Some cs key :
  key ∈ map ce_key cs → ∃ c, find_conflict cs key = Some c.
Proof.
  intros Hin. destruct (find_conflict cs key) as [c|] eqn:E; [eauto|].
  by apply find_conflict_None in E.
Qed.

Lemma get_set_or_delete result key v k :
  JsMap.get (set_or_delete result key v) k
  = if decide (key = k) then v else JsMap.get result k.
Proof.
  destruct v as [x|]; simpl; case_decide; subst; auto using
    JsMapFacts.get_set_eq, JsMapFacts.get_set_ne,
    JsMapFacts.get_delete_eq, JsMapFacts.get_delete_ne.
Qed.

(** A resolution leaves every other key alone, and [skip] leaves all. *)
Lemma apply_resolution_other mergeResult result resolution k :
  cr_key resolution ≠ k ∨ cr_choice resolution = choice_skip →
  JsMap.get (apply_resolution mergeResult result resolution) k = JsMap.get result k.
Proof.
  intros H. unfold apply_resolution.
  destruct (find_conflict _ _); [|done].
  destruct H as [H|H].
  - destruct (cr_choice resolution); rewrite ?get_set_or_delete;
      try case_decide; done.
  - by rewrite H.
Qed.

Lemma fold_apply_resolution_other mergeResult resolutions result k :
  (∀ r, r ∈ resolutions → cr_key r = k → cr_choice r = choice_skip) →
  JsMap.get (fold_left (apply_resolution mergeResult) resolutions result) k
  = JsMap.get result k.
Proof.
  revert result. induction resolutions as [|r rs IH]; intros result H; [done|].
  cbn [fold_left]. rewrite IH.
  - apply apply_resolution_other.
    destruct (decide (cr_key r = k)) as [E|E]; [right|by left].
    apply H; [apply list_elem_of_here|done].
  - intros r' Hin. apply H. by apply list_elem_of_further.
Qed.

Lemma apply_strategy_resolution mergeResult strategy result c c0 :
  find_conflict (conflicts mergeResult) (ce_key c) = Some c0 →
  apply_resolution mergeResult result (strategy_resolution strategy c)
  = set_or_delete result (ce_key c) (side_value strategy c0).
Proof.
  intros H. unfold apply_resolution. cbn [strategy_resolution cr_key cr_choice].
  rewrite H. by destruct strategy.
Qed.

Lemma fold_strategy_resolutions mergeResult strategy cs result k :
  cs ⊆ conflicts mergeResult →
  k ∈ map ce_key cs →
  ∃ c0, find_conflict (conflicts mergeResult) k = Some c0
        ∧ JsMap.get
            (fold_left (apply_resolution mergeResult)
               (map (strategy_resolution strategy) cs) result) k
          = side_value strategy c0.
Proof.
  revert result. induction cs as [|c cs IH]; intros result Hsub Hin.
  - by apply elem_of_nil in Hin.
  - cbn [map fold_left].
    assert (Hsub' : cs ⊆ conflicts mergeResult).
    { intros x Hx. apply Hsub. by apply list_elem_of_further. }
    destruct (decide (k ∈ map ce_key cs)) as [Hk|Hk]; [by apply IH|].
    assert (ce_key c = k) as Hck.
    { cbn [map] in Hin. apply elem_of_cons in Hin as [->|?]; done. }
    destruct (find_conflict_is_Some (conflicts mergeResult) (ce_key c)) as [c0 Hc0].
    { apply list_elem_of_fmap. exists c. split; [done|]. apply Hsub, list_elem_of_here. }
    exists c0. split; [by rewrite <- Hck|].
    rewrite fold_apply_resolution_other.
    + rewrite (apply_strategy_resolution _ _ _ _ c0) by done.
      rewrite get_set_or_delete. by rewrite decide_True.
    + intros r Hr Hkey. apply list_elem_of_fmap in Hr as (c' & -> & Hc').
      exfalso. apply Hk. apply list_elem_of_fmap. by exists c'.
Qed.

(** ** The Key Reconciliation Rule *)

(** C1: [mergeKey] implements the decision table of section 4.1 of the
    specification. For every key and every combination of base, local and
    remote values, the outcome the table prescribes ([spec_resolve], the
    first row that applies) is the outcome [mergeKey] returns; the table has
    a row for every combination but the one where the key is absent from
    all three versions. In particular: with no base, a key present on one
    side only is auto-merged from that side and a key present on both sides
    with different values is a [new_key_collision]; with a base, a key
    deleted on one side and changed (not deleted) on the other is an
    [edit_vs_delete], and a key changed on both sides to different values is
    a [divergent_edit]. *)
Theorem mergeKey_implements_decision_table :
  (∀ key baseVal localVal remoteVal,
     match spec_resolve key baseVal localVal remoteVal with
     | Some outcome => mergeKey key baseVal localVal remoteVal = outcome
     | None => baseVal = None ∧ localVal = None ∧ remoteVal = None
     end)
  ∧ (∀ key l, mergeKey key None (Some l) None = AutoMerged added_from_local (Some l))
  ∧ (∀ key r, mergeKey key None None (Some r) = AutoMerged added_from_remote (Some r))
  ∧ (∀ key l r, l ≠ r →
       mergeKey key None (Some l) (Some r) = Conflict new_key_collision)
  ∧ (∀ key b r, r ≠ b →
       mergeKey key (Some b) None (Some r) = Conflict edit_vs_delete)
  ∧ (∀ key b l, l ≠ b →
       mergeKey key (Some b) (Some l) None = Conflict edit_vs_delete)
  ∧ (∀ key b l r, l ≠ b → r ≠ b → l ≠ r →
       mergeKey key (Some b) (Some l) (Some r) = Conflict divergent_edit).
Proof.
  split_and!.
  - apply mergeKey_table.
  - done.
  - done.
  - intros key l r ?. cbn. by case_strings.
  - intros key b r ?. cbn. by case_strings.
  - intros key b l ?. cbn. by case_strings.
  - intros key b l r ? ? ?. cbn. by case_strings.
Qed.

Lemma mergeKey_implements_decision_table_witness :
  mergeKey "K" (Some "o") (Some "l") (Some "r") = Conflict divergent_edit.
Proof. apply mergeKey_implements_decision_table; discriminate. Defined.

(** C6: convergence. Whatever the base, when the local and the remote value
    of a key are equal (both absent included) the outcome of [mergeKey] is
    not a conflict. *)
Theorem mergeKey_convergence :
  ∀ key (baseVal value : option string),
    is_conflict (mergeKey key baseVal value value) = false.
Proof.
  intros key [b|] [v|]; cbn; try done.
  - rewrite String.eqb_refl. by case_strings.
  - by rewrite String.eqb_refl.
Qed.

Lemma mergeKey_body_returns key baseVal localVal remoteVal :
  flow_call (mergeKey_body key baseVal localVal remoteVal)
  = Some (mergeKey key baseVal localVal remoteVal).
Proof.
  unfold mergeKey_body, mergeKey.
  destruct baseVal as [b|], localVal as [l|], remoteVal as [r|];
    cbn [is_defined negb andb flow_if flow_block flow_call];
    repeat match goal with
      | |- context [strict_eq ?x ?y] =>
          destruct (strict_eq x y); cbn [negb andb flow_if flow_block flow_call]
      end;
    reflexivity.
Qed.

(** C7: totality. For all base, local and remote values (absent or any
    string), a call of [mergeKey] does not reach the end of the body: one
    of its [return] statements is executed. The result is the value of
    [mergeKey], and its [type] is exactly one of [unchanged], [auto_merged]
    and [conflict]. *)
Theorem mergeKey_total :
  ∀ key (baseVal localVal remoteVal : option string),
    ∃ result,
      flow_call (mergeKey_body key baseVal localVal remoteVal) = Some result
      ∧ result = mergeKey key baseVal localVal remoteVal
      ∧ ((result_type result = "unchanged"
          ∧ result_type result ≠ "auto_merged" ∧ result_type result ≠ "conflict")
         ∨ (result_type result = "auto_merged"
            ∧ result_type result ≠ "unchanged" ∧ result_type result ≠ "conflict")
         ∨ (result_type result = "conflict"
            ∧ result_type result ≠ "unchanged" ∧ result_type result ≠ "auto_merged")).
Proof.
  intros key baseVal localVal remoteVal.
  exists (mergeKey key baseVal localVal remoteVal).
  split_and!; [apply mergeKey_body_returns|reflexivity|].
  destruct (mergeKey key baseVal localVal remoteVal); cbn;
    [left|right; left|right; right]; by split_and!.
Qed.

(** The exhaustive test of the specification: every combination of values
    drawn from absent, ["x"] and ["y"]. *)
Example mergeKey_exhaustive :
  let values := [None; Some "x"; Some "y"] in
  forallb
    (fun b => forallb
       (fun l => forallb
          (fun r =>
             match spec_resolve "K" b l r with
             | Some outcome =>
                 bool_decide (result_type (mergeKey "K" b l r) = result_type outcome)
             | None => negb (is_defined b || is_defined l || is_defined r)
             end)
          values)
       values)
    values = true.
Proof. vm_compute. reflexivity. Qed.

(** ** The driver *)

(** C4: the status of a result of [threeWayMergeEnvFile] is [conflicted]
    exactly when its conflicts list is not empty, [auto_merged] exactly when
    the conflicts list is empty and the autoMerged list is not, and [clean]
    otherwise. *)
Theorem threeWayMerge_status_trichotomy :
  ∀ fileName base local remote,
    let result := threeWayMergeEnvFile fileName base local remote in
    (status result = conflicted ↔ conflicts result ≠ [])
    ∧ (status result = auto_merged ↔ conflicts result = [] ∧ autoMerged result ≠ [])
    ∧ (status result = clean ↔ conflicts result = [] ∧ autoMerged result = []).
Proof.
  intros fileName base local remote. cbn.
  destruct (acc_conflicts _) as [|c cs], (acc_autoMerged _) as [|a l]; cbn;
    split_and!; split; try done; by intros [? ?].
Qed.

(** C5, as the code has it: the prefer-local preview. For a key whose
    outcome is a conflict the merged map of [threeWayMergeEnvFile] holds the
    local value, and no entry when local has none; and [applyResolutions]
    leaves that value as it is when every resolution that names the key
    says [skip], which includes the case that no resolution names it. The
    loop applies the resolutions in their order, each of them, so that one
    [skip] for a key does not protect it from another resolution of the
    same key. *)
Theorem conflict_preview_is_local :
  ∀ fileName base local remote key,
    is_conflict
      (mergeKey key (base_get base key) (JsMap.get local key) (JsMap.get remote key))
    = true →
    let result := threeWayMergeEnvFile fileName base local remote in
    JsMap.get (merged result) key = JsMap.get local key
    ∧ (JsMap.get local key = None → JsMap.has (merged result) key = false)
    ∧ ∀ resolutions,
        (∀ r, r ∈ resolutions → cr_key r = key → cr_choice r = choice_skip) →
        JsMap.get (applyResolutions result resolutions) key = JsMap.get local key.
Proof.
  intros fileName base local remote key Hc result.
  assert (Hget : JsMap.get (merged result) key = JsMap.get local key).
  { by apply threeWayMerge_preview_local. }
  split_and!; [done| |].
  - intros Hnone. unfold JsMap.has. by rewrite Hget, Hnone.
  - intros resolutions Hskip. unfold applyResolutions.
    by rewrite fold_apply_resolution_other.
Qed.

Lemma conflict_preview_is_local_witness :
  JsMap.get
    (applyResolutions sample_divergent
       [ {| cr_key := "KEY"; cr_choice := choice_skip; cr_manualValue := None |};
         {| cr_key := "OTHER"; cr_choice := choice_remote; cr_manualValue := None |} ])
    "KEY"
  = Some "local".
Proof.
  refine (proj2 (proj2 (conflict_preview_is_local "test.env"
    (Some [("KEY", "base")]) [("KEY", "local")] [("KEY", "remote")] "KEY" _)) _ _).
  - reflexivity.
  - intros r Hr Hk.
    apply elem_of_cons in Hr as [->|Hr]; [reflexivity|].
    apply list_elem_of_singleton in Hr as ->. discriminate Hk.
Defined.

(** C5, as the specification states it, fails. On the divergent-edit
    sample, let the resolutions be a [skip] of the key followed by a
    [remote] of the same key. The resolution that matches the conflict, the
    one [find] gives as in [allConflictsResolved], says [skip]; yet the key,
    which held the local preview, holds the remote value after
    [applyResolutions]. *)
Lemma skipped_conflict_not_left_at_preview :
  "KEY" ∈ map ce_key (conflicts sample_divergent)
  ∧ find_choice
      [ {| cr_key := "KEY"; cr_choice := choice_skip; cr_manualValue := None |};
        {| cr_key := "KEY"; cr_choice := choice_remote; cr_manualValue := None |} ]
      "KEY"
    = Some choice_skip
  ∧ JsMap.get (merged sample_divergent) "KEY" = Some "local"
  ∧ JsMap.get
      (applyResolutions sample_divergent
         [ {| cr_key := "KEY"; cr_choice := choice_skip; cr_manualValue := None |};
           {| cr_key := "KEY"; cr_choice := choice_remote; cr_manualValue := None |} ])
      "KEY"
    = Some "remote".
Proof. split_and!; [apply list_elem_of_here|reflexivity..]. Qed.

(** ** The Conflict Resolution Applier *)

(** C3: batch resolution. On a result of [threeWayMergeEnvFile], applying
    the resolutions of [resolveAllConflicts] for the local strategy gives
    every conflicted key its local value, and no entry when local deleted
    the key; for the remote strategy the same with the remote value. *)
Theorem batch_resolution_reproduces_side :
  ∀ fileName base local remote conflict,
    let result := threeWayMergeEnvFile fileName base local remote in
    conflict ∈ conflicts result →
    JsMap.get (applyResolutions result (resolveAllConflicts result strategy_local))
      (ce_key conflict)
    = JsMap.get local (ce_key conflict)
    ∧ JsMap.get (applyResolutions result (resolveAllConflicts result strategy_remote))
        (ce_key conflict)
      = JsMap.get remote (ce_key conflict).
Proof.
  intros fileName base local remote conflict result Hin.
  assert (Hkey : ce_key conflict ∈ map ce_key (conflicts result)).
  { apply list_elem_of_fmap. by exists conflict. }
  assert (Hside : ∀ strategy,
    JsMap.get (applyResolutions result (resolveAllConflicts result strategy))
      (ce_key conflict)
    = match strategy with
      | strategy_local => JsMap.get local (ce_key conflict)
      | strategy_remote => JsMap.get remote (ce_key conflict)
      end).
  { intros strategy.
    destruct (fold_strategy_resolutions result strategy (conflicts result)
                (merged result) (ce_key conflict)) as (c0 & Hfind & Hget);
      [done|done|].
    unfold applyResolutions, resolveAllConflicts. rewrite Hget.
    apply find_conflict_Some in Hfind as [Hc0 Hk].
    pose proof (threeWayMerge_conflicts_record fileName base local remote) as Hrec.
    rewrite Forall_forall in Hrec.
    destruct (Hrec c0 Hc0) as (_ & _ & Hl & Hr).
    destruct strategy; cbn [side_value]; congruence. }
  split; [apply (Hside strategy_local)|apply (Hside strategy_remote)].
Qed.

Lemma batch_resolution_reproduces_side_witness :
  JsMap.get
    (applyResolutions sample_local_deleted
       (resolveAllConflicts sample_local_deleted strategy_local)) "KEY" = None
  ∧ JsMap.get
      (applyResolutions sample_local_deleted
         (resolveAllConflicts sample_local_deleted strategy_remote)) "KEY"
    = Some "remote".
Proof.
  apply (batch_resolution_reproduces_side "test.env"
           (Some [("KEY", "base")]) [] [("KEY", "remote")]
           {| ce_key := "KEY"; ce_conflictType := edit_vs_delete;
              ce_baseValue := Some "base"; ce_localValue := None;
              ce_remoteValue := Some "remote" |}).
  apply list_elem_of_here.
Defined.

(** C8: [allConflictsResolved] returns true only if every conflict of the
    result has a resolution with the same key whose choice is not [skip],
    also when several resolutions name one key. *)
Theorem allConflictsResolved_sound :
  ∀ mergeResult resolutions,
    allConflictsResolved mergeResult resolutions = true →
    ∀ conflict, conflict ∈ conflicts mergeResult →
      ∃ resolution, resolution ∈ resolutions
        ∧ cr_key resolution = ce_key conflict
        ∧ cr_choice resolution ≠ choice_skip.
Proof.
  intros mergeResult resolutions Hall conflict Hin.
  unfold allConflictsResolved in Hall. rewrite forallb_forall in Hall.
  specialize (Hall conflict (proj1 (list_elem_of_In _ _) Hin)).
  apply andb_true_iff in Hall as [Hhas Hchoice].
  rewrite existsb_eqb_elem_of, new_Set_elem_of in Hhas.
  unfold find_choice in Hchoice.
  destruct (find _ resolutions) as [r|] eqn:Hfind.
  - apply find_some in Hfind as [Hr Hk]. apply String.eqb_eq in Hk.
    exists r. split_and!; [by apply list_elem_of_In|done|].
    cbn in Hchoice. by destruct (cr_choice r).
  - apply list_elem_of_fmap in Hhas as (r & Hk & Hr).
    apply list_elem_of_In in Hr.
    pose proof (find_none _ _ Hfind r Hr) as Hne. cbn in Hne.
    rewrite Hk, String.eqb_refl in Hne. discriminate.
Qed.

Lemma allConflictsResolved_sound_witness :
  ∃ resolution, resolution ∈ sample_resolutions_twice
    ∧ cr_key resolution = "KEY"
    ∧ cr_choice resolution ≠ choice_skip.
Proof.
  apply (allConflictsResolved_sound sample_divergent sample_resolutions_twice
           eq_refl
           {| ce_key := "KEY"; ce_conflictType := divergent_edit;
              ce_baseValue := Some "base"; ce_localValue := Some "local";
              ce_remoteValue := Some "remote" |}).
  apply list_elem_of_here.
Defined.

(** The first resolution of a key decides [allConflictsResolved]; the last
    one decides what [applyResolutions] stores. *)
Example first_resolution_decides_resolved :
  allConflictsResolved sample_divergent (rev sample_resolutions_twice) = false
  ∧ JsMap.get (applyResolutions sample_divergent (rev sample_resolutions_twice)) "KEY"
    = Some "remote".
Proof. split; reflexivity. Qed.

(** C2, as the code has it: [applyResolutions] does not reject a resolution
    whose choice is [manual] and whose manual value is absent. The call
    returns; such a resolution removes its key from the result when the key
    names a conflict, and does nothing otherwise. *)
Theorem manual_without_value_deletes :
  ∀ mergeResult resolutions key,
    applyResolutions_call mergeResult (resolutions ++ [manual_without_value key])
    = Returned
        (match find_conflict (conflicts mergeResult) key with
         | Some _ => JsMap.delete (applyResolutions mergeResult resolutions) key
         | None => applyResolutions mergeResult resolutions
         end).
Proof.
  intros mergeResult resolutions key.
  unfold applyResolutions_call, applyResolutions.
  rewrite fold_left_app. cbn [fold_left]. unfold apply_resolution at 1.
  cbn [manual_without_value cr_key cr_choice cr_manualValue set_or_delete].
  by destruct (find_conflict _ _).
Qed.

(** C2, as the specification states it, fails: on the divergent-edit sample
    the call with a [manual] resolution that carries no value is not
    rejected. It returns a map, and the key, which held the local preview,
    is gone from it. *)
Lemma manual_without_value_not_rejected :
  JsMap.get (merged sample_divergent) "KEY" = Some "local"
  ∧ applyResolutions_call sample_divergent [manual_without_value "KEY"] = Returned []
  ∧ ¬ (∃ message,
         applyResolutions_call sample_divergent [manual_without_value "KEY"]
         = Thrown message).
Proof.
  split_and!; [reflexivity|reflexivity|].
  intros [message H]. discriminate H.
Qed.

(** ** Further properties of the engine *)

(** X1: the conflicts list of a result of [threeWayMergeEnvFile] names
    exactly the keys whose outcome under [mergeKey] is a conflict. *)
Theorem conflicts_list_names_conflict_keys :
  ∀ fileName base local remote key,
    key ∈ map ce_key (conflicts (threeWayMergeEnvFile fileName base local remote))
    ↔ is_conflict
        (mergeKey key (base_get base key) (JsMap.get local key)
           (JsMap.get remote key)) = true.
Proof. intros. apply threeWayMerge_conflict_keys. Qed.

(** X2: no data loss on conflict. For a conflict of a result of
    [threeWayMergeEnvFile], a single resolution of its key puts back the
    value of the chosen version: the local, remote or base value of the key
    (no entry where that version has none), the manual value, or for [skip]
    the local preview. *)
Theorem single_resolution_restores_version :
  ∀ fileName base local remote conflict choice manualValue,
    let result := threeWayMergeEnvFile fileName base local remote in
    conflict ∈ conflicts result →
    JsMap.get
      (applyResolutions result
         [ {| cr_key := ce_key conflict; cr_choice := choice;
              cr_manualValue := manualValue |} ])
      (ce_key conflict)
    = match choice with
      | choice_local => JsMap.get local (ce_key conflict)
      | choice_remote => JsMap.get remote (ce_key conflict)
      | choice_base => base_get base (ce_key conflict)
      | choice_manual => manualValue
      | choice_skip => JsMap.get local (ce_key conflict)
      end.
Proof.
  intros fileName base local remote conflict choice manualValue result Hin.
  destruct (find_conflict_is_Some (conflicts result) (ce_key conflict)) as [c0 Hfind].
  { apply list_elem_of_fmap. by exists conflict. }
  pose proof Hfind as Hc0. apply find_conflict_Some in Hc0 as [Hc0 Hk].
  pose proof (threeWayMerge_conflicts_record fileName base local remote) as Hrec.
  rewrite Forall_forall in Hrec.
  destruct (Hrec c0 Hc0) as (Hout & Hb & Hl & Hr). rewrite Hk in Hout, Hb, Hl, Hr.
  unfold applyResolutions. cbn [fold_left]. unfold apply_resolution.
  cbn [cr_key cr_choice cr_manualValue]. rewrite Hfind.
  destruct choice; rewrite ?get_set_or_delete, ?decide_True by done; try done.
  apply threeWayMerge_preview_local. by rewrite Hout.
Qed.

Lemma single_resolution_restores_version_witness :
  JsMap.get
    (applyResolutions sample_divergent
       [ {| cr_key := "KEY"; cr_choice := choice_base; cr_manualValue := None |} ])
    "KEY"
  = Some "base".
Proof.
  apply (single_resolution_restores_version "test.env"
           (Some [("KEY", "base")]) [("KEY", "local")] [("KEY", "remote")]
           {| ce_key := "KEY"; ce_conflictType := divergent_edit;
              ce_baseValue := Some "base"; ce_localValue := Some "local";
              ce_remoteValue := Some "remote" |}
           choice_base None).
  apply list_elem_of_here.
Defined.

(** ** [applyResolutions] on the store *)

Local Open Scope exec_scope.

Lemma read_result_inv (h : Heap) l value :
  read_result h l = Some value →
  ∃ m c a,
    h !! l = Some (ResultObject (fileName value) (status value) m c a)
    ∧ h !! m = Some (MapObject (merged value))
    ∧ h !! c = Some (ConflictArray (conflicts value))
    ∧ h !! a = Some (AutoMergeArray (autoMerged value)).
Proof.
  unfold read_result. intros H.
  destruct (h !! l) as [[| | |f s m c a]|] eqn:El; try done.
  destruct (h !! m) as [[entries| | |]|] eqn:Em; try done.
  destruct (h !! c) as [[|cs| |]|] eqn:Ec; try done.
  destruct (h !! a) as [[| |ams|]|] eqn:Ea; try done.
  injection H as <-. by exists m, c, a.
Qed.

Lemma read_result_frame (h h' : Heap) l value :
  read_result h l = Some value →
  (∀ l', is_Some (h !! l') → h' !! l' = h !! l') →
  read_result h' l = Some value.
Proof.
  intros H Hframe. destruct (read_result_inv h l value H) as (m & c & a & Hl & Hm & Hc & Ha).
  unfold read_result.
  rewrite (Hframe l), Hl by (by rewrite Hl).
  rewrite (Hframe m), Hm by (by rewrite Hm).
  rewrite (Hframe c), Hc by (by rewrite Hc).
  rewrite (Hframe a), Ha by (by rewrite Ha).
  by destruct value.
Qed.

Lemma Map_set_or_delete_run (h : Heap) result entries key v :
  Map_set_or_delete result key v (<[result := MapObject entries]> h)
  = Some (tt, <[result := MapObject (set_or_delete entries key v)]> h).
Proof.
  destruct v as [x|]; cbn [Map_set_or_delete set_or_delete];
    unfold Map_set, Map_delete, load_map, load, store, exec_bind, exec_ret;
    rewrite lookup_insert_eq; by rewrite insert_insert_eq.
Qed.

Lemma apply_resolution_heap_run (h : Heap) mergeResult value result entries resolution :
  read_result h mergeResult = Some value →
  h !! result = None →
  apply_resolution_heap mergeResult result resolution (<[result := MapObject entries]> h)
  = Some (tt, <[result := MapObject (apply_resolution value entries resolution)]> h).
Proof.
  intros Hread Hfresh.
  destruct (read_result_inv h mergeResult value Hread) as (m & c & a & Hl & Hm & Hc & Ha).
  assert (result ≠ mergeResult) by congruence.
  assert (result ≠ c) by congruence.
  unfold apply_resolution_heap, apply_resolution, field_conflicts, load_conflicts,
    load, exec_bind, exec_ret.
  rewrite lookup_insert_ne, Hl by done.
  rewrite lookup_insert_ne, Hc by done.
  destruct (find_conflict (conflicts value) (cr_key resolution)) as [conflict|]; [|done].
  destruct (cr_choice resolution); try apply Map_set_or_delete_run. done.
Qed.

Lemma for_of_apply_resolution_heap (h : Heap) mergeResult value result resolutions entries :
  read_result h mergeResult = Some value →
  h !! result = None →
  for_of resolutions (apply_resolution_heap mergeResult result)
    (<[result := MapObject entries]> h)
  = Some (tt, <[result := MapObject
                  (fold_left (apply_resolution value) resolutions entries)]> h).
Proof.
  intros Hread Hfresh. revert entries.
  induction resolutions as [|r rs IH]; intros entries; [done|].
  cbn [for_of fold_left]. unfold exec_bind at 1.
  rewrite (apply_resolution_heap_run h mergeResult value) by done.
  apply IH.
Qed.

(** C10: [applyResolutions] is non-destructive. Called on a reference to a
    [FileMergeResult], it returns a reference to a map that did not exist
    before the call and holds the resolved content; every object that
    existed before the call is unchanged after it, so the input's merged
    map, conflicts list and autoMerged list read as they did before. *)
Theorem applyResolutions_non_destructive :
  ∀ (h : Heap) (mergeResult : loc) (value : FileMergeResult)
    (resolutions : list ConflictResolution),
    read_result h mergeResult = Some value →
    ∃ (result : loc) (h' : Heap),
      applyResolutions_heap mergeResult resolutions h = Some (result, h')
      ∧ h !! result = None
      ∧ h' !! result = Some (MapObject (applyResolutions value resolutions))
      ∧ (∀ l, l ≠ result → h' !! l = h !! l)
      ∧ read_result h' mergeResult = Some value.
Proof.
  intros h mergeResult value resolutions Hread.
  destruct (read_result_inv h mergeResult value Hread) as (m & c & a & Hl & Hm & Hc & Ha).
  set (result := fresh (dom h)).
  assert (Hfresh : h !! result = None).
  { apply not_elem_of_dom. apply is_fresh. }
  exists result,
    (<[result := MapObject (applyResolutions value resolutions)]> h).
  split_and!.
  - unfold applyResolutions_heap, field_merged, Map_new_from, load_map, load,
      alloc, exec_bind at 1 2 3 4 5, exec_ret at 1 2.
    rewrite Hl, Hm. fold result. unfold exec_bind.
    rewrite (for_of_apply_resolution_heap h mergeResult value) by done.
    done.
  - done.
  - apply lookup_insert_eq.
  - intros l Hne. by apply lookup_insert_ne.
  - apply (read_result_frame h); [done|].
    intros l' [o Ho]. apply lookup_insert_ne. congruence.
Qed.

Lemma applyResolutions_non_destructive_witness :
  ∃ (result : loc) (h' : Heap),
    applyResolutions_heap 1%positive
      [ {| cr_key := "KEY"; cr_choice := choice_remote; cr_manualValue := None |} ]
      sample_heap = Some (result, h')
    ∧ sample_heap !! result = None
    ∧ h' !! result
      = Some (MapObject
                (applyResolutions sample_divergent
                   [ {| cr_key := "KEY"; cr_choice := choice_remote;
                        cr_manualValue := None |} ]))
    ∧ (∀ l, l ≠ result → h' !! l = sample_heap !! l)
    ∧ read_result h' 1%positive = Some sample_divergent.
Proof.
  apply (applyResolutions_non_destructive sample_heap 1%positive sample_divergent).
  reflexivity.
Defined.

Example applyResolutions_heap_sample :
  (let* r := applyResolutions_heap 1%positive
               [ {| cr_key := "KEY"; cr_choice := choice_remote; cr_manualValue := None |} ] in
   let* after := load_map r in
   let* before := load_map 2%positive in
   exec_ret (after, before)) sample_heap
  = Some (([("KEY", "remote")], [("KEY", "local")]),
          <[5%positive := MapObject [("KEY", "remote")]]> sample_heap).
Proof. vm_compute. reflexivity. Qed.

(** ** The manifest fingerprint *)

Example fingerprint_sample :
  getManifestFingerprint ordinal_compare
    (sample_manifest [sample_file "b.env" "h2"; sample_file ".env" "h1"])
  = "{" ++ dquote ++ "version" ++ dquote ++ ":1,"
        ++ dquote ++ "projectName" ++ dquote ++ ":" ++ dquote ++ "demo" ++ dquote ++ ","
        ++ dquote ++ "files" ++ dquote ++ ":[{"
        ++ dquote ++ "name" ++ dquote ++ ":" ++ dquote ++ ".env" ++ dquote ++ ","
        ++ dquote ++ "hash" ++ dquote ++ ":" ++ dquote ++ "h1" ++ dquote ++ "},{"
        ++ dquote ++ "name" ++ dquote ++ ":" ++ dquote ++ "b.env" ++ dquote ++ ","
        ++ dquote ++ "hash" ++ dquote ++ ":" ++ dquote ++ "h2" ++ dquote ++ "}]}".
Proof. vm_compute. reflexivity. Qed.

Section SortFacts.

Context {A : Type} (compareFn : A → A → Z).

Hypothesis compareFn_flip :
  ∀ x y, Z.sgn (compareFn y x) = (- Z.sgn (compareFn x y))%Z.
Hypothesis compareFn_trans :
  ∀ x y z, (compareFn x y <= 0)%Z → (compareFn y z <= 0)%Z → (compareFn x z <= 0)%Z.

Lemma insert_sorted_perm x l : insert_sorted compareFn x l ≡ₚ x :: l.
Proof.
  induction l as [|y l IH]; cbn [insert_sorted]; [done|].
  destruct (compareFn x y <=? 0)%Z; [done|].
  rewrite IH. apply perm_swap.
Qed.

Lemma Array_sort_perm l : Array_sort compareFn l ≡ₚ l.
Proof.
  induction l as [|x l IH]; cbn; [done|].
  fold (Array_sort compareFn l). by rewrite insert_sorted_perm, IH.
Qed.

Lemma compareFn_after x y : ¬ (compareFn x y <= 0)%Z → (compareFn y x <= 0)%Z.
Proof.
  intros H. pose proof (compareFn_flip x y) as Hflip.
  destruct (compareFn x y), (compareFn y x); cbn in *; lia.
Qed.

Lemma insert_sorted_StronglySorted x l :
  StronglySorted (sorted_before compareFn) l →
  StronglySorted (sorted_before compareFn) (insert_sorted compareFn x l).
Proof.
  induction 1 as [|y l Hl IH Hy]; cbn [insert_sorted].
  - repeat constructor.
  - destruct (Z.leb_spec (compareFn x y) 0) as [Hle|Hgt].
    + constructor; [by constructor|].
      constructor; [done|].
      eapply Forall_impl; [exact Hy|]. intros z Hz.
      by apply (compareFn_trans x y z).
    + constructor; [done|].
      rewrite insert_sorted_perm. constructor; [|done].
      apply compareFn_after. unfold sorted_before. lia.
Qed.

Lemma Array_sort_StronglySorted l : StronglySorted (sorted_before compareFn) (Array_sort compareFn l).
Proof.
  induction l as [|x l IH]; cbn; [constructor|].
  by apply insert_sorted_StronglySorted.
Qed.

Lemma compareFn_tie x y :
  (compareFn x y <= 0)%Z → (compareFn y x <= 0)%Z → compareFn x y = 0%Z.
Proof.
  intros H1 H2. pose proof (compareFn_flip x y) as Hflip.
  destruct (compareFn x y), (compareFn y x); cbn in *; lia.
Qed.

End SortFacts.

Lemma NoDup_map_elem_inj {A B} (f : A → B) (l : list A) x y :
  NoDup (map f l) → x ∈ l → y ∈ l → f x = f y → x = y.
Proof.
  induction l as [|a l IH]; cbn [map]; intros Hnd Hx Hy Hf.
  - by apply elem_of_nil in Hx.
  - apply NoDup_cons in Hnd as [Ha Hnd].
    apply elem_of_cons in Hx as [->|Hx]; apply elem_of_cons in Hy as [->|Hy].
    + done.
    + exfalso. apply Ha. rewrite Hf. apply list_elem_of_fmap. by exists y.
    + exfalso. apply Ha. rewrite <- Hf. apply list_elem_of_fmap. by exists x.
    + by apply IH.
Qed.

Lemma NoDup_map_NoDup {A B} (f : A → B) (l : list A) : NoDup (map f l) → NoDup l.
Proof. apply (NoDup_fmap_1 f). Qed.

Section FingerprintFacts.

Variable localeCompare : string → string → Z.
Hypothesis localeCompare_consistent : ConsistentComparator localeCompare.

Lemma by_name_flip x y :
  Z.sgn (by_name localeCompare y x) = (- Z.sgn (by_name localeCompare x y))%Z.
Proof. apply (compare_flip _ localeCompare_consistent). Qed.

Lemma by_name_trans x y z :
  (by_name localeCompare x y <= 0)%Z → (by_name localeCompare y z <= 0)%Z →
  (by_name localeCompare x z <= 0)%Z.
Proof. apply (compare_trans _ localeCompare_consistent). Qed.

Lemma sorted_pairs_unique (l1 l2 : list NameHash) :
  NoDup (map nh_name l1) →
  NoDup (map nh_name l2) →
  no_ties localeCompare (map nh_name l1) →
  (∀ p, p ∈ l1 ↔ p ∈ l2) →
  Array_sort (by_name localeCompare) l1 = Array_sort (by_name localeCompare) l2.
Proof.
  intros Hnd1 Hnd2 Hties Hsame.
  assert (Hperm : l1 ≡ₚ l2).
  { apply NoDup_Permutation; eauto using NoDup_map_NoDup. }
  apply (StronglySorted_unique_strong (sorted_before (by_name localeCompare))).
  - intros x1 x2 Hx1 Hx2 H12 H21.
    rewrite Array_sort_perm in Hx1. rewrite Array_sort_perm, <- Hperm in Hx2.
    apply (NoDup_map_elem_inj nh_name l1); [done..|].
    apply Hties.
    + apply list_elem_of_fmap. by exists x1.
    + apply list_elem_of_fmap. by exists x2.
    + by apply (compareFn_tie (by_name localeCompare) by_name_flip).
  - apply (Array_sort_StronglySorted _ by_name_flip by_name_trans).
  - apply (Array_sort_StronglySorted _ by_name_flip by_name_trans).
  - by rewrite !Array_sort_perm.
Qed.

Lemma names_of_pairs manifest :
  map nh_name (name_hash_pairs manifest) = file_names manifest.
Proof.
  unfold name_hash_pairs, file_names. rewrite map_map. done.
Qed.

Lemma fingerprint_depends_on_pairs (m1 m2 : ProjectManifest) :
  pm_version m1 = pm_version m2 →
  pm_projectName m1 = pm_projectName m2 →
  NoDup (file_names m1) →
  NoDup (file_names m2) →
  no_ties localeCompare (file_names m1) →
  (∀ p, p ∈ name_hash_pairs m1 ↔ p ∈ name_hash_pairs m2) →
  getManifestFingerprint localeCompare m1 = getManifestFingerprint localeCompare m2.
Proof.
  intros Hv Hn Hnd1 Hnd2 Hties Hsame. unfold getManifestFingerprint.
  rewrite Hv, Hn.
  rewrite (sorted_pairs_unique (name_hash_pairs m1) (name_hash_pairs m2));
    rewrite ?names_of_pairs; done.
Qed.

End FingerprintFacts.

(** *** The two comparators are consistent *)

Lemma string_lt_irrefl a : ¬ String_as_OT.lt a a.
Proof. apply (StrictOrder_Irreflexive (R := String_as_OT.lt)). Qed.

Lemma string_lt_asym a b : String_as_OT.lt a b → String_as_OT.lt b a → False.
Proof.
  intros Hab Hba. apply (string_lt_irrefl a).
  by apply (StrictOrder_Transitive (R := String_as_OT.lt) a b a).
Qed.

Lemma ordinal_compare_le a b :
  (ordinal_compare a b <= 0)%Z ↔ String_as_OT.lt a b ∨ a = b.
Proof.
  unfold ordinal_compare.
  destruct (String_as_OT.compare_spec a b) as [Heq|Hlt|Hgt].
  - split; [by right|lia].
  - split; [by left|lia].
  - split; [lia|]. intros [Hlt| ->]; exfalso.
    + by apply (string_lt_asym a b).
    + by apply (string_lt_irrefl b).
Qed.

Lemma ordinal_compare_zero a b : ordinal_compare a b = 0%Z → a = b.
Proof.
  unfold ordinal_compare.
  by destruct (String_as_OT.compare_spec a b).
Qed.

Lemma ordinal_compare_consistent : ConsistentComparator ordinal_compare.
Proof.
  split.
  - intros a b. unfold ordinal_compare.
    destruct (String_as_OT.compare_spec a b) as [Heq|Hlt|Hgt],
             (String_as_OT.compare_spec b a) as [Heq'|Hlt'|Hgt'];
      try reflexivity; exfalso; unfold String_as_OT.eq in *; subst;
      eauto using string_lt_irrefl, string_lt_asym.
  - intros a b c. rewrite !ordinal_compare_le.
    intros [Hab| ->] [Hbc| ->]; auto.
    left. by apply (StrictOrder_Transitive (R := String_as_OT.lt) a b c).
Qed.

Lemma canonical_compare_consistent : ConsistentComparator canonical_compare.
Proof.
  destruct ordinal_compare_consistent as [Hflip Htrans].
  split; unfold canonical_compare.
  - intros a b. apply Hflip.
  - intros a b c. apply Htrans.
Qed.

(** C9, as the code has it: let [localeCompare] be a consistent comparator
    and let the file names of a manifest be pairwise distinct, no two of
    them comparing as equal under [localeCompare]. Then the fingerprint is
    the same for every permutation of the files array, and two such
    manifests with the same version, the same project name and the same set
    of (name, hash) pairs have the same fingerprint, whatever the order of
    their files and their other fields. *)
Theorem fingerprint_order_independent :
  ∀ localeCompare,
    ConsistentComparator localeCompare →
    (∀ manifest files',
       NoDup (file_names manifest) →
       no_ties localeCompare (file_names manifest) →
       pm_files manifest ≡ₚ files' →
       getManifestFingerprint localeCompare (with_files manifest files')
       = getManifestFingerprint localeCompare manifest)
    ∧ (∀ m1 m2,
         pm_version m1 = pm_version m2 →
         pm_projectName m1 = pm_projectName m2 →
         NoDup (file_names m1) →
         NoDup (file_names m2) →
         no_ties localeCompare (file_names m1) →
         (∀ p, p ∈ name_hash_pairs m1 ↔ p ∈ name_hash_pairs m2) →
         getManifestFingerprint localeCompare m1
         = getManifestFingerprint localeCompare m2).
Proof.
  intros localeCompare Hcons. split.
  - intros manifest files' Hnd Hties Hperm. symmetry.
    apply (fingerprint_depends_on_pairs localeCompare Hcons); try done.
    + unfold file_names, with_files. cbn [pm_files].
      rewrite <- Hperm. exact Hnd.
    + intros p. unfold name_hash_pairs, with_files. cbn [pm_files].
      by rewrite Hperm.
  - intros m1 m2. apply (fingerprint_depends_on_pairs localeCompare Hcons).
Qed.

Lemma fingerprint_order_independent_witness :
  getManifestFingerprint canonical_compare
    (with_files (sample_manifest plain_files) (rev plain_files))
  = getManifestFingerprint canonical_compare (sample_manifest plain_files).
Proof.
  apply (proj1 (fingerprint_order_independent canonical_compare
                  canonical_compare_consistent)).
  - apply (bool_decide_unpack _). vm_compute. exact I.
  - intros a b Ha Hb.
    apply elem_of_cons in Ha as [->|Ha];
      [|apply list_elem_of_singleton in Ha as ->];
      (apply elem_of_cons in Hb as [->|Hb];
        [|apply list_elem_of_singleton in Hb as ->]);
      intros H; first [reflexivity|vm_compute in H; discriminate H].
  - apply perm_swap.
Defined.

(** C9, as the specification states it, fails: pairwise distinct names are
    not enough. Under a consistent comparator that returns 0 on canonically
    equivalent strings, two files named by the two spellings of one letter
    keep the order they arrive in, and the fingerprint changes with it. *)
Lemma fingerprint_depends_on_order_of_tied_names :
  ConsistentComparator canonical_compare
  ∧ NoDup (file_names (sample_manifest tied_files))
  ∧ pm_files (sample_manifest tied_files) ≡ₚ rev tied_files
  ∧ getManifestFingerprint canonical_compare
      (with_files (sample_manifest tied_files) (rev tied_files))
    ≠ getManifestFingerprint canonical_compare (sample_manifest tied_files).
Proof.
  split_and!.
  - apply canonical_compare_consistent.
  - apply (bool_decide_unpack _). vm_compute. exact I.
  - apply perm_swap.
  - intros H. vm_compute in H. discriminate H.
Qed.

Example tied_names_compare_equal :
  canonical_compare e_acute_decomposed e_acute_composed = 0%Z
  ∧ e_acute_decomposed ≠ e_acute_composed.
Proof. split; [reflexivity|discriminate]. Qed.

(** ** More on the driver *)

Example scenario_mixed_outcomes :
  status sample_mixed = conflicted
  ∧ map ce_key (conflicts sample_mixed) = ["CONFLICT"]
  ∧ merged sample_mixed
    = [("UNCHANGED", "same"); ("LOCAL_CHANGE", "newLocal");
       ("REMOTE_CHANGE", "newRemote"); ("CONFLICT", "localConflict");
       ("NEW_LOCAL", "addedLocal"); ("NEW_REMOTE", "addedRemote")]
  ∧ getAutoMergeSummary sample_mixed
    = ["~ LOCAL_CHANGE (updated from local)"; "~ REMOTE_CHANGE (updated from remote)";
       "- DELETED (deleted)"; "+ NEW_LOCAL (from local)"; "+ NEW_REMOTE (from remote)"].
Proof. vm_compute. by split_and!. Qed.

Lemma get_not_in_keys m k : k ∉ JsMap.keys m → JsMap.get m k = None.
Proof.
  intros Hk. destruct (JsMap.get m k) eqn:E; [|done].
  exfalso. eauto using JsMapFacts.get_Some_keys.
Qed.

Lemma base_get_not_in_keys base k : k ∉ base_keys base → base_get base k = None.
Proof. destruct base; [apply get_not_in_keys|done]. Qed.

Lemma outside_all_keys base local remote k :
  k ∉ all_keys base local remote →
  base_get base k = None ∧ JsMap.get local k = None ∧ JsMap.get remote k = None.
Proof.
  rewrite all_keys_elem_of. intros H.
  split_and!; [apply base_get_not_in_keys|apply get_not_in_keys..]; tauto.
Qed.

(** A key that occurs nowhere has the outcome [unchanged] with no value. *)
Lemma key_outcome_outside base local remote k :
  k ∉ all_keys base local remote → key_outcome base local remote k = Unchanged None.
Proof.
  intros H. apply outside_all_keys in H as (Hb & Hl & Hr).
  unfold key_outcome. by rewrite Hb, Hl, Hr.
Qed.

Lemma preview_outcome_value base local remote k :
  is_conflict (key_outcome base local remote k) = false →
  preview base local remote k = outcome_value (key_outcome base local remote k).
Proof. unfold preview, key_outcome. by destruct (mergeKey k _ _ _). Qed.

(** What [merged] holds, for every key. *)
Lemma threeWayMerge_merged_outcome fileName base local remote k :
  JsMap.get (merged (threeWayMergeEnvFile fileName base local remote)) k
  = match key_outcome base local remote k with
    | Conflict _ => JsMap.get local k
    | AutoMerged _ value => value
    | Unchanged value => value
    end.
Proof.
  rewrite threeWayMerge_merged. case_decide as Hin; [done|].
  by rewrite (key_outcome_outside _ _ _ _ Hin).
Qed.

Lemma no_conflict_keys_nil (cs : list ConflictEntry) :
  (∀ k, k ∉ map ce_key cs) → cs = [].
Proof.
  destruct cs as [|c cs]; [done|]. intros H. exfalso.
  apply (H (ce_key c)). apply list_elem_of_here.
Qed.

Lemma threeWayMerge_no_conflicts fileName base local remote :
  (∀ k, is_conflict (key_outcome base local remote k) = false) →
  conflicts (threeWayMergeEnvFile fileName base local remote) = [].
Proof.
  intros H. apply no_conflict_keys_nil. intros k Hk.
  apply threeWayMerge_conflict_keys in Hk. unfold key_outcome in H.
  by rewrite H in Hk.
Qed.

(** The rule on one key when a side did not move, and when both agree. *)
Lemma mergeKey_local_unmoved key baseVal remoteVal :
  is_conflict (mergeKey key baseVal baseVal remoteVal) = false
  ∧ outcome_value (mergeKey key baseVal baseVal remoteVal) = remoteVal.
Proof.
  destruct baseVal as [b|], remoteVal as [r|]; cbn;
    rewrite ?String.eqb_refl; cbn; try done.
  by destruct (String.eqb_spec r b) as [->|]; cbn.
Qed.

Lemma mergeKey_remote_unmoved key baseVal localVal :
  is_conflict (mergeKey key baseVal localVal baseVal) = false
  ∧ outcome_value (mergeKey key baseVal localVal baseVal) = localVal.
Proof.
  destruct baseVal as [b|], localVal as [l|]; cbn;
    rewrite ?String.eqb_refl; cbn; try done.
  by destruct (String.eqb_spec l b) as [->|]; cbn.
Qed.

Lemma mergeKey_same_sides key baseVal value :
  is_conflict (mergeKey key baseVal value value) = false
  ∧ outcome_value (mergeKey key baseVal value value) = value.
Proof.
  destruct baseVal as [b|], value as [v|]; cbn;
    rewrite ?String.eqb_refl; cbn; try done.
  by destruct (String.eqb_spec v b) as [->|]; cbn.
Qed.

Lemma merged_of_outcome_value fileName base local remote k :
  is_conflict (key_outcome base local remote k) = false →
  JsMap.get (merged (threeWayMergeEnvFile fileName base local remote)) k
  = outcome_value (key_outcome base local remote k).
Proof.
  intros H. rewrite threeWayMerge_merged_outcome.
  by destruct (key_outcome base local remote k).
Qed.

Lemma threeWayMerge_status_without_conflicts fileName base local remote :
  conflicts (threeWayMergeEnvFile fileName base local remote) = [] →
  status (threeWayMergeEnvFile fileName base local remote) ≠ conflicted.
Proof.
  cbn [threeWayMergeEnvFile conflicts status]. intros ->. cbn.
  by case_match.
Qed.

Lemma threeWayMerge_status_conflicted fileName base local remote :
  status (threeWayMergeEnvFile fileName base local remote) = conflicted
  ↔ (0 <? length (conflicts (threeWayMergeEnvFile fileName base local remote)))%nat
    = true.
Proof.
  cbn [threeWayMergeEnvFile status conflicts].
  destruct (acc_conflicts _) as [|c cs]; cbn; [|done].
  split; [|done]. by case_match.
Qed.

Lemma merge_iteration_autoMerged base local remote acc a e :
  e ∈ acc_autoMerged (merge_iteration base local remote acc a)
  ↔ e ∈ acc_autoMerged acc
    ∨ (am_key e = a
       ∧ key_outcome base local remote a = AutoMerged (am_action e) (am_value e)).
Proof.
  unfold merge_iteration, key_outcome.
  destruct (mergeKey a _ _ _) eqn:E; cbn [acc_autoMerged].
  - split; [tauto|]. by intros [?|[_ ?]].
  - rewrite elem_of_app, list_elem_of_singleton. split.
    + intros [?| ->]; [by left|by right].
    + intros [?|[Hk He]]; [by left|right].
      destruct e as [k a' v]. cbn in *. congruence.
  - split; [tauto|]. by intros [?|[_ ?]].
Qed.

Lemma merge_loop_autoMerged base local remote keys acc e :
  e ∈ acc_autoMerged (merge_loop base local remote keys acc)
  ↔ e ∈ acc_autoMerged acc
    ∨ (am_key e ∈ keys
       ∧ key_outcome base local remote (am_key e)
         = AutoMerged (am_action e) (am_value e)).
Proof.
  unfold merge_loop. revert acc.
  induction keys as [|a keys IH]; intros acc; cbn [fold_left].
  - rewrite elem_of_nil. tauto.
  - rewrite IH, merge_iteration_autoMerged, elem_of_cons. split.
    + intros [[?|[<- ?]]|[? ?]]; auto.
    + intros [?|[[Hk|?] ?]]; auto. left; right. by rewrite <- Hk.
Qed.

Lemma merge_iteration_conflict_entries base local remote acc a c :
  c ∈ acc_conflicts (merge_iteration base local remote acc a)
  ↔ c ∈ acc_conflicts acc ∨ (ce_key c = a ∧ records_key base local remote c).
Proof.
  unfold merge_iteration, records_key.
  destruct (mergeKey a _ _ _) eqn:E; cbn [acc_conflicts].
  - split; [tauto|]. intros [?|[<- [H _]]]; [done|]. congruence.
  - split; [tauto|]. intros [?|[<- [H _]]]; [done|]. congruence.
  - rewrite elem_of_app, list_elem_of_singleton. split.
    + intros [?| ->]; [by left|right]. by cbn.
    + intros [?|[Hk (Ho & Hb & Hl & Hr)]]; [by left|right].
      destruct c as [k t b l r]. cbn in *. subst. congruence.
Qed.

Lemma merge_loop_conflict_entries base local remote keys acc c :
  c ∈ acc_conflicts (merge_loop base local remote keys acc)
  ↔ c ∈ acc_conflicts acc ∨ (ce_key c ∈ keys ∧ records_key base local remote c).
Proof.
  unfold merge_loop. revert acc.
  induction keys as [|a keys IH]; intros acc; cbn [fold_left].
  - rewrite elem_of_nil. tauto.
  - rewrite IH, merge_iteration_conflict_entries, elem_of_cons. split.
    + intros [[?|[<- ?]]|[? ?]]; auto.
    + intros [?|[[Hk|?] ?]]; auto.
Qed.

Lemma auto_outcome_in_all_keys base local remote k action value :
  key_outcome base local remote k = AutoMerged action value →
  k ∈ all_keys base local remote.
Proof.
  intros H. destruct (decide (k ∈ all_keys base local remote)) as [|Hn]; [done|].
  by rewrite (key_outcome_outside _ _ _ _ Hn) in H.
Qed.

(** X3: the two lists of a result of [threeWayMergeEnvFile] are exactly the
    outcomes of the rule. An entry is in [autoMerged] if and only if the
    outcome of its key is that auto-merge with that action and value; an
    entry is in [conflicts] if and only if the outcome of its key is that
    conflict and the entry records the base, local and remote value of the
    key. *)
Theorem result_lists_are_the_outcomes :
  ∀ fileName base local remote,
    let result := threeWayMergeEnvFile fileName base local remote in
    (∀ entry,
       entry ∈ autoMerged result
       ↔ key_outcome base local remote (am_key entry)
         = AutoMerged (am_action entry) (am_value entry))
    ∧ (∀ conflict,
         conflict ∈ conflicts result
         ↔ key_outcome base local remote (ce_key conflict)
           = Conflict (ce_conflictType conflict)
           ∧ ce_baseValue conflict = base_get base (ce_key conflict)
           ∧ ce_localValue conflict = JsMap.get local (ce_key conflict)
           ∧ ce_remoteValue conflict = JsMap.get remote (ce_key conflict)).
Proof.
  intros fileName base local remote result. split.
  - intros entry. unfold result. cbn [threeWayMergeEnvFile autoMerged].
    rewrite merge_loop_autoMerged. cbn [acc_autoMerged]. rewrite elem_of_nil.
    split; [by intros [[]|[_ ?]]|]. intros H. right. split; [|done].
    by eapply auto_outcome_in_all_keys.
  - intros conflict. unfold result. cbn [threeWayMergeEnvFile conflicts].
    rewrite merge_loop_conflict_entries. cbn [acc_conflicts]. rewrite elem_of_nil.
    split; [by intros [[]|[_ ?]]|]. intros H. right. split; [|done].
    apply conflict_key_in_all_keys. destruct H as [H _].
    unfold key_outcome in H. by rewrite H.
Qed.

(** The keys a loop state reports, as conflict or as auto-merge. *)
Lemma reported_step base local remote acc a :
  ∃ new, new ⊆ [a]
    ∧ (map ce_key (acc_conflicts (merge_iteration base local remote acc a))
       ++ map am_key (acc_autoMerged (merge_iteration base local remote acc a))
       ≡ₚ (map ce_key (acc_conflicts acc) ++ map am_key (acc_autoMerged acc)) ++ new)%list.
Proof.
  unfold merge_iteration.
  destruct (mergeKey a _ _ _); cbn [acc_conflicts acc_autoMerged].
  - exists []. split; [by intros ? ?%elem_of_nil|]. by rewrite app_nil_r.
  - exists [a]. split; [done|]. rewrite map_app. cbn [map am_key].
    by rewrite app_assoc.
  - exists [a]. split; [done|]. rewrite map_app. cbn [map ce_key].
    rewrite <- !app_assoc. f_equiv. apply Permutation_app_comm.
Qed.

Lemma merge_loop_reported_once base local remote keys acc :
  NoDup keys →
  NoDup (map ce_key (acc_conflicts acc) ++ map am_key (acc_autoMerged acc))%list →
  (∀ k, k ∈ keys →
        k ∉ (map ce_key (acc_conflicts acc) ++ map am_key (acc_autoMerged acc))%list) →
  NoDup (map ce_key (acc_conflicts (merge_loop base local remote keys acc))
         ++ map am_key (acc_autoMerged (merge_loop base local remote keys acc)))%list.
Proof.
  unfold merge_loop. revert acc.
  induction keys as [|a keys IH]; intros acc Hkeys Hacc Hfresh; cbn [fold_left]; [done|].
  apply NoDup_cons in Hkeys as [Ha Hkeys].
  destruct (reported_step base local remote acc a) as (new & Hnew & Hperm).
  apply IH; [done| |].
  - rewrite Hperm. apply NoDup_app. split_and!; [done| |].
    + intros x Hx Hn. apply Hnew, list_elem_of_singleton in Hn as ->.
      apply (Hfresh a); [apply list_elem_of_here|done].
    + destruct new as [|x [|y new]]; [constructor|apply NoDup_singleton|].
      exfalso. assert (x = a) as -> by
        (apply list_elem_of_singleton, Hnew, list_elem_of_here).
      assert (y = a) as -> by
        (apply list_elem_of_singleton, Hnew, list_elem_of_further, list_elem_of_here).
      pose proof (Permutation_length Hperm) as Hlen.
      unfold merge_iteration in Hlen.
      destruct (mergeKey a _ _ _); cbn [acc_conflicts acc_autoMerged] in Hlen;
        rewrite ?map_app, !length_app, ?length_map, ?length_app in Hlen;
        cbn in Hlen; lia.
  - intros k Hk. rewrite Hperm, elem_of_app. intros [Hin|Hin].
    + apply (Hfresh k); [by apply list_elem_of_further|done].
    + apply Hnew, list_elem_of_singleton in Hin as ->. done.
Qed.

Lemma set_if_defined_wf m key v : JsMap.wf m → JsMap.wf (set_if_defined m key v).
Proof. destruct v; cbn; auto using JsMapFacts.wf_set. Qed.

Lemma merge_loop_wf base local remote keys acc :
  JsMap.wf (acc_merged acc) →
  JsMap.wf (acc_merged (merge_loop base local remote keys acc)).
Proof.
  unfold merge_loop. revert acc.
  induction keys as [|a keys IH]; intros acc Hacc; cbn [fold_left]; [done|].
  apply IH. rewrite merge_iteration_merged. by apply set_if_defined_wf.
Qed.

Lemma outcome_from_a_side key baseVal localVal remoteVal v :
  outcome_value (mergeKey key baseVal localVal remoteVal) = Some v →
  localVal = Some v ∨ remoteVal = Some v.
Proof.
  destruct baseVal as [b|], localVal as [l|], remoteVal as [r|]; cbn;
    case_strings; subst; cbn; intros H; try discriminate H; auto.
Qed.

(** X4: every key is reported once. In a result of [threeWayMergeEnvFile] no
    key occurs twice in [conflicts], none twice in [autoMerged], and none in
    both; and [merged] holds every key once. *)
Theorem result_reports_each_key_once :
  ∀ fileName base local remote,
    let result := threeWayMergeEnvFile fileName base local remote in
    NoDup (map ce_key (conflicts result) ++ map am_key (autoMerged result))%list
    ∧ NoDup (JsMap.keys (merged result)).
Proof.
  intros fileName base local remote result. split.
  - apply merge_loop_reported_once; cbn.
    + apply new_Set_NoDup.
    + constructor.
    + intros k _. apply not_elem_of_nil.
  - apply merge_loop_wf. constructor.
Qed.

(** X5: the merge invents nothing. Every value in the merged map of
    [threeWayMergeEnvFile] is the local or the remote value of its key; a
    key that neither local nor remote has is not in the merged map, whatever
    the base holds. *)
Theorem merged_values_come_from_a_side :
  ∀ fileName base local remote key value,
    JsMap.get (merged (threeWayMergeEnvFile fileName base local remote)) key
    = Some value →
    JsMap.get local key = Some value ∨ JsMap.get remote key = Some value.
Proof.
  intros fileName base local remote key value.
  rewrite threeWayMerge_merged_outcome. unfold key_outcome.
  destruct (mergeKey key _ _ _) eqn:E; intros H.
  - apply (outcome_from_a_side key (base_get base key)). by rewrite E.
  - apply (outcome_from_a_side key (base_get base key)). by rewrite E.
  - by left.
Qed.

Lemma merged_values_come_from_a_side_witness :
  JsMap.get sample_mixed_local "REMOTE_CHANGE" = Some "newRemote"
  ∨ JsMap.get sample_mixed_remote "REMOTE_CHANGE" = Some "newRemote".
Proof.
  apply (merged_values_come_from_a_side "test.env" (Some sample_mixed_base)).
  reflexivity.
Defined.

(** X6: a side that did not move gives way. When local has, for every key,
    the value the base has (no base and an empty local included), the result
    of [threeWayMergeEnvFile] has no conflict and its merged map is the
    remote map, key by key. *)
Theorem merge_takes_remote_when_local_unmoved :
  ∀ fileName base local remote,
    (∀ k, JsMap.get local k = base_get base k) →
    let result := threeWayMergeEnvFile fileName base local remote in
    conflicts result = []
    ∧ status result ≠ conflicted
    ∧ ∀ k, JsMap.get (merged result) k = JsMap.get remote k.
Proof.
  intros fileName base local remote Hsame result.
  assert (Hout : ∀ k, is_conflict (key_outcome base local remote k) = false
                      ∧ outcome_value (key_outcome base local remote k)
                        = JsMap.get remote k).
  { intros k. unfold key_outcome. rewrite Hsame. apply mergeKey_local_unmoved. }
  assert (Hnil : conflicts result = []).
  { apply threeWayMerge_no_conflicts. intros k. apply Hout. }
  split_and!; [done| |].
  - by apply threeWayMerge_status_without_conflicts.
  - intros k. unfold result. rewrite merged_of_outcome_value; apply Hout.
Qed.

Lemma merge_takes_remote_when_local_unmoved_witness :
  conflicts (threeWayMergeEnvFile "test.env" (Some [("A", "1"); ("B", "2")])
               [("B", "2"); ("A", "1")] [("A", "9"); ("C", "3")]) = []
  ∧ status (threeWayMergeEnvFile "test.env" (Some [("A", "1"); ("B", "2")])
              [("B", "2"); ("A", "1")] [("A", "9"); ("C", "3")]) ≠ conflicted
  ∧ ∀ k, JsMap.get
           (merged (threeWayMergeEnvFile "test.env" (Some [("A", "1"); ("B", "2")])
                      [("B", "2"); ("A", "1")] [("A", "9"); ("C", "3")])) k
         = JsMap.get [("A", "9"); ("C", "3")] k.
Proof.
  apply (merge_takes_remote_when_local_unmoved "test.env"
           (Some [("A", "1"); ("B", "2")]) [("B", "2"); ("A", "1")]
           [("A", "9"); ("C", "3")]).
  intros k. cbn [JsMap.get base_get]. case_strings; congruence.
Defined.

(** X7: the same for the other side. When remote has, for every key, the
    value the base has, the result has no conflict and its merged map is the
    local map, key by key. *)
Theorem merge_takes_local_when_remote_unmoved :
  ∀ fileName base local remote,
    (∀ k, JsMap.get remote k = base_get base k) →
    let result := threeWayMergeEnvFile fileName base local remote in
    conflicts result = []
    ∧ status result ≠ conflicted
    ∧ ∀ k, JsMap.get (merged result) k = JsMap.get local k.
Proof.
  intros fileName base local remote Hsame result.
  assert (Hout : ∀ k, is_conflict (key_outcome base local remote k) = false
                      ∧ outcome_value (key_outcome base local remote k)
                        = JsMap.get local k).
  { intros k. unfold key_outcome. rewrite Hsame. apply mergeKey_remote_unmoved. }
  assert (Hnil : conflicts result = []).
  { apply threeWayMerge_no_conflicts. intros k. apply Hout. }
  split_and!; [done| |].
  - by apply threeWayMerge_status_without_conflicts.
  - intros k. unfold result. rewrite merged_of_outcome_value; apply Hout.
Qed.

Lemma merge_takes_local_when_remote_unmoved_witness :
  conflicts (threeWayMergeEnvFile "test.env" None [("A", "1")] []) = []
  ∧ status (threeWayMergeEnvFile "test.env" None [("A", "1")] []) ≠ conflicted
  ∧ ∀ k, JsMap.get (merged (threeWayMergeEnvFile "test.env" None [("A", "1")] [])) k
         = JsMap.get [("A", "1")] k.
Proof.
  apply (merge_takes_local_when_remote_unmoved "test.env" None [("A", "1")] []).
  intros k. reflexivity.
Defined.

(** X8: two sides that agree merge to themselves. When local and remote
    have the same value for every key, the result has no conflict, whatever
    the base, and its merged map is that common content. *)
Theorem merge_of_equal_sides :
  ∀ fileName base local remote,
    (∀ k, JsMap.get local k = JsMap.get remote k) →
    let result := threeWayMergeEnvFile fileName base local remote in
    conflicts result = []
    ∧ status result ≠ conflicted
    ∧ ∀ k, JsMap.get (merged result) k = JsMap.get local k.
Proof.
  intros fileName base local remote Hsame result.
  assert (Hout : ∀ k, is_conflict (key_outcome base local remote k) = false
                      ∧ outcome_value (key_outcome base local remote k)
                        = JsMap.get local k).
  { intros k. unfold key_outcome. rewrite <- Hsame. apply mergeKey_same_sides. }
  assert (Hnil : conflicts result = []).
  { apply threeWayMerge_no_conflicts. intros k. apply Hout. }
  split_and!; [done| |].
  - by apply threeWayMerge_status_without_conflicts.
  - intros k. unfold result. rewrite merged_of_outcome_value; apply Hout.
Qed.

Lemma merge_of_equal_sides_witness :
  conflicts (threeWayMergeEnvFile "test.env" (Some [("A", "0"); ("Z", "0")])
               [("A", "1"); ("B", "2")] [("B", "2"); ("A", "1")]) = []
  ∧ status (threeWayMergeEnvFile "test.env" (Some [("A", "0"); ("Z", "0")])
              [("A", "1"); ("B", "2")] [("B", "2"); ("A", "1")]) ≠ conflicted
  ∧ ∀ k, JsMap.get
           (merged (threeWayMergeEnvFile "test.env" (Some [("A", "0"); ("Z", "0")])
                      [("A", "1"); ("B", "2")] [("B", "2"); ("A", "1")])) k
         = JsMap.get [("A", "1"); ("B", "2")] k.
Proof.
  apply (merge_of_equal_sides "test.env" (Some [("A", "0"); ("Z", "0")])
           [("A", "1"); ("B", "2")] [("B", "2"); ("A", "1")]).
  intros k. cbn [JsMap.get base_get]. case_strings; congruence.
Defined.

Lemma mergeKey_swap key baseVal localVal remoteVal :
  match mergeKey key baseVal localVal remoteVal with
  | Conflict t => mergeKey key baseVal remoteVal localVal = Conflict t
  | r => is_conflict (mergeKey key baseVal remoteVal localVal) = false
         ∧ outcome_value (mergeKey key baseVal remoteVal localVal) = outcome_value r
  end.
Proof.
  destruct baseVal as [b|], localVal as [l|], remoteVal as [r|];
    cbn; case_strings; subst; cbn; try congruence; auto.
Qed.

(** X9: the merge is symmetric but for the preview. Exchanging local and
    remote gives conflicts for the same keys with the same types; on a key
    without conflict both merged maps hold the same value, and on a
    conflicted key each holds the value of its own local side. *)
Theorem merge_symmetric_up_to_preview :
  ∀ fileName base local remote key,
    let result := threeWayMergeEnvFile fileName base local remote in
    let swapped := threeWayMergeEnvFile fileName base remote local in
    match key_outcome base local remote key with
    | Conflict t =>
        (key_outcome base remote local key = Conflict t
         ∧ key ∈ map ce_key (conflicts result)
         ∧ key ∈ map ce_key (conflicts swapped)
         ∧ JsMap.get (merged result) key = JsMap.get local key
         ∧ JsMap.get (merged swapped) key = JsMap.get remote key)
    | _ =>
        ((key ∉ map ce_key (conflicts result))
         ∧ (key ∉ map ce_key (conflicts swapped))
         ∧ JsMap.get (merged result) key = JsMap.get (merged swapped) key)
    end.
Proof.
  intros fileName base local remote key result swapped.
  pose proof (mergeKey_swap key (base_get base key) (JsMap.get local key)
                (JsMap.get remote key)) as Hswap.
  pose proof (threeWayMerge_conflict_keys fileName base local remote key) as Hk.
  pose proof (threeWayMerge_conflict_keys fileName base remote local key) as Hk'.
  pose proof (threeWayMerge_merged_outcome fileName base local remote key) as Hm.
  pose proof (threeWayMerge_merged_outcome fileName base remote local key) as Hm'.
  fold result in Hk, Hm. fold swapped in Hk', Hm'.
  unfold key_outcome in *.
  destruct (mergeKey key (base_get base key) (JsMap.get local key)
              (JsMap.get remote key)) as [v|a v|t] eqn:E.
  - destruct Hswap as [Hc Hv]. rewrite Hk, Hk', Hm, Hm', Hc.
    split_and!; [done..|].
    destruct (mergeKey key (base_get base key) (JsMap.get remote key)
                (JsMap.get local key)); cbn in *; done.
  - destruct Hswap as [Hc Hv]. rewrite Hk, Hk', Hm, Hm', Hc.
    split_and!; [done..|].
    destruct (mergeKey key (base_get base key) (JsMap.get remote key)
                (JsMap.get local key)); cbn in *; done.
  - rewrite Hk, Hk', Hm, Hm', Hswap. by split_and!.
Qed.

(** ** More on resolutions *)

Lemma apply_resolution_not_a_conflict mergeResult result resolution k :
  k ∉ map ce_key (conflicts mergeResult) →
  JsMap.get (apply_resolution mergeResult result resolution) k = JsMap.get result k.
Proof.
  intros Hk. destruct (decide (cr_key resolution = k)) as [E|E].
  - unfold apply_resolution.
    apply find_conflict_None in Hk. by rewrite E, Hk.
  - apply apply_resolution_other. by left.
Qed.

Lemma apply_resolution_decisive mergeResult result resolution conflict :
  find_conflict (conflicts mergeResult) (cr_key resolution) = Some conflict →
  cr_choice resolution ≠ choice_skip →
  JsMap.get (apply_resolution mergeResult result resolution) (cr_key resolution)
  = chosen_value conflict resolution.
Proof.
  intros Hfind Hchoice. unfold apply_resolution, chosen_value. rewrite Hfind.
  destruct (cr_choice resolution); rewrite ?get_set_or_delete, ?decide_True by done;
    done.
Qed.

(** X10: what a batch strategy leaves. After [resolveAllConflicts] with a
    strategy and [applyResolutions] on a result of [threeWayMergeEnvFile],
    the map holds, for every key, the value of the chosen side where the
    outcome is a conflict and the value of the outcome elsewhere; with the
    local strategy this is the merged map of the result itself. *)
Theorem batch_resolution_final_map :
  ∀ fileName base local remote strategy key,
    let result := threeWayMergeEnvFile fileName base local remote in
    JsMap.get (applyResolutions result (resolveAllConflicts result strategy)) key
    = match key_outcome base local remote key with
      | Conflict _ =>
          match strategy with
          | strategy_local => JsMap.get local key
          | strategy_remote => JsMap.get remote key
          end
      | outcome => outcome_value outcome
      end
    ∧ JsMap.get (applyResolutions result (resolveAllConflicts result strategy_local)) key
      = JsMap.get (merged result) key.
Proof.
  intros fileName base local remote strategy key result.
  assert (Hany : ∀ s,
    JsMap.get (applyResolutions result (resolveAllConflicts result s)) key
    = match key_outcome base local remote key with
      | Conflict _ =>
          match s with
          | strategy_local => JsMap.get local key
          | strategy_remote => JsMap.get remote key
          end
      | outcome => outcome_value outcome
      end).
  { intros s.
    pose proof (threeWayMerge_conflict_keys fileName base local remote key) as Hk.
    pose proof (threeWayMerge_merged_outcome fileName base local remote key) as Hm.
    fold result in Hk, Hm. unfold applyResolutions, resolveAllConflicts.
    destruct (decide (key ∈ map ce_key (conflicts result))) as [Hin|Hin].
    - destruct (fold_strategy_resolutions result s (conflicts result)
                  (merged result) key) as (c0 & Hfind & Hget); [done|done|].
      rewrite Hget. apply find_conflict_Some in Hfind as [Hc0 Hkey].
      pose proof (threeWayMerge_conflicts_record fileName base local remote) as Hrec.
      rewrite Forall_forall in Hrec.
      destruct (Hrec c0 Hc0) as (_ & _ & Hl & Hr). rewrite Hkey in Hl, Hr.
      apply Hk in Hin. unfold key_outcome.
      destruct (mergeKey key _ _ _); try done.
      by destruct s.
    - rewrite fold_apply_resolution_other.
      + rewrite Hm. rewrite Hk in Hin. unfold key_outcome.
        by destruct (mergeKey key _ _ _).
      + intros r Hr Hkey. exfalso. apply Hin.
        apply list_elem_of_fmap in Hr as (c & -> & Hc).
        apply list_elem_of_fmap. by exists c. }
  split; [apply Hany|].
  rewrite (Hany strategy_local).
  pose proof (threeWayMerge_merged_outcome fileName base local remote key) as Hm.
  fold result in Hm. rewrite Hm.
  by destruct (key_outcome base local remote key).
Qed.

(** X11: a batch strategy resolves everything. For every merge result,
    [allConflictsResolved] holds of the resolutions [resolveAllConflicts]
    builds for it, with either strategy. *)
Theorem batch_resolution_resolves_all :
  ∀ mergeResult strategy,
    allConflictsResolved mergeResult (resolveAllConflicts mergeResult strategy) = true.
Proof.
  intros mergeResult strategy. unfold allConflictsResolved.
  apply forallb_forall. intros c Hc%list_elem_of_In.
  apply andb_true_iff. split.
  - apply existsb_eqb_elem_of, new_Set_elem_of.
    unfold resolveAllConflicts. rewrite map_map. cbn [strategy_resolution cr_key].
    apply list_elem_of_fmap. by exists c.
  - unfold find_choice.
    destruct (find _ (resolveAllConflicts mergeResult strategy)) as [r|] eqn:Hfind;
      [|done].
    apply find_some in Hfind as [Hr _]. apply list_elem_of_In in Hr.
    apply list_elem_of_fmap in Hr as (c' & -> & _). by destruct strategy.
Qed.

(** X12: resolutions touch nothing but conflicts. Whatever the resolutions,
    [applyResolutions] leaves a key that is not the key of a conflict of
    the result with the value the merged map has for it. *)
Theorem applyResolutions_leaves_other_keys :
  ∀ mergeResult resolutions key,
    key ∉ map ce_key (conflicts mergeResult) →
    JsMap.get (applyResolutions mergeResult resolutions) key
    = JsMap.get (merged mergeResult) key.
Proof.
  intros mergeResult resolutions key Hk. unfold applyResolutions.
  generalize (merged mergeResult) as result.
  induction resolutions as [|r rs IH]; intros result; cbn [fold_left]; [done|].
  rewrite IH. by apply apply_resolution_not_a_conflict.
Qed.

Lemma applyResolutions_leaves_other_keys_witness :
  JsMap.get
    (applyResolutions sample_mixed
       [ {| cr_key := "UNCHANGED"; cr_choice := choice_manual;
            cr_manualValue := Some "x" |};
         {| cr_key := "CONFLICT"; cr_choice := choice_remote;
            cr_manualValue := None |} ]) "UNCHANGED"
  = JsMap.get (merged sample_mixed) "UNCHANGED".
Proof.
  apply applyResolutions_leaves_other_keys.
  intros Hin. vm_compute in Hin.
  apply list_elem_of_singleton in Hin. discriminate Hin.
Defined.

(** X13: the last decisive resolution wins. When a resolution names a
    conflict of the result and its choice is not [skip], and every later
    resolution of the same key says [skip], [applyResolutions] stores for
    the key what that resolution chooses from the conflict entry (no entry
    when the chosen value is absent), whatever the earlier resolutions
    were. *)
Theorem last_decisive_resolution_wins :
  ∀ mergeResult earlier resolution later conflict,
    find_conflict (conflicts mergeResult) (cr_key resolution) = Some conflict →
    cr_choice resolution ≠ choice_skip →
    (∀ r, r ∈ later → cr_key r = cr_key resolution → cr_choice r = choice_skip) →
    JsMap.get (applyResolutions mergeResult (earlier ++ resolution :: later))
      (cr_key resolution)
    = chosen_value conflict resolution.
Proof.
  intros mergeResult earlier resolution later conflict Hfind Hchoice Hlater.
  unfold applyResolutions. rewrite fold_left_app. cbn [fold_left].
  rewrite fold_apply_resolution_other by done.
  by apply apply_resolution_decisive.
Qed.

Lemma last_decisive_resolution_wins_witness :
  JsMap.get
    (applyResolutions sample_divergent
       ([ {| cr_key := "KEY"; cr_choice := choice_base; cr_manualValue := None |} ]
        ++ {| cr_key := "KEY"; cr_choice := choice_manual;
              cr_manualValue := Some "typed" |}
        :: [ {| cr_key := "KEY"; cr_choice := choice_skip; cr_manualValue := None |} ]))
    "KEY"
  = Some "typed".
Proof.
  apply (last_decisive_resolution_wins sample_divergent _
           {| cr_key := "KEY"; cr_choice := choice_manual;
              cr_manualValue := Some "typed" |} _
           {| ce_key := "KEY"; ce_conflictType := divergent_edit;
              ce_baseValue := Some "base"; ce_localValue := Some "local";
              ce_remoteValue := Some "remote" |}).
  - reflexivity.
  - discriminate.
  - intros r Hr _. apply list_elem_of_singleton in Hr as ->. reflexivity.
Defined.

(** X14: when a sync needs the user. For the results of merging a list of
    files, [createSyncResult] reports conflicts, and requires user action,
    exactly when some file has a key whose outcome is a conflict; auto-merges
    alone never require it. *)
Theorem sync_requires_user_iff_conflict :
  ∀ inputs,
    let sync := createSyncResult (map merge_input inputs) in
    sr_requiresUserAction sync = sr_hasConflicts sync
    ∧ (sr_hasConflicts sync = true
       ↔ ∃ input key,
           input ∈ inputs
           ∧ is_conflict
               (key_outcome (mi_base input) (mi_local input) (mi_remote input) key)
             = true)
    ∧ (sr_hasConflicts sync = true
       ↔ ∃ result, result ∈ sr_files sync ∧ status result = conflicted).
Proof.
  intros inputs sync. split_and!; [done| |].
  - unfold sync, createSyncResult. cbn [sr_hasConflicts].
    rewrite existsb_exists. split.
    + intros (r & Hr & Hlen). apply list_elem_of_In in Hr.
      apply list_elem_of_fmap in Hr as (input & -> & Hin).
      destruct (conflicts (merge_input input)) as [|c cs] eqn:E; [done|].
      exists input, (ce_key c). split; [done|].
      apply (threeWayMerge_conflict_keys (mi_fileName input)).
      fold (merge_input input). rewrite E. apply list_elem_of_here.
    + intros (input & key & Hin & Hc). exists (merge_input input). split.
      * apply list_elem_of_In, list_elem_of_fmap. by exists input.
      * apply (threeWayMerge_conflict_keys (mi_fileName input)) in Hc.
        fold (merge_input input) in Hc.
        destruct (conflicts (merge_input input)); [|done].
        by apply elem_of_nil in Hc.
  - unfold sync, createSyncResult. cbn [sr_hasConflicts sr_files].
    rewrite existsb_exists. split.
    + intros (r & Hr & Hlen). exists r. split; [by apply list_elem_of_In|].
      apply list_elem_of_In, list_elem_of_fmap in Hr as (input & -> & _).
      by apply threeWayMerge_status_conflicted.
    + intros (r & Hr & Hst). exists r. split; [by apply list_elem_of_In|].
      apply list_elem_of_fmap in Hr as (input & -> & _).
      by apply threeWayMerge_status_conflicted.
Qed.

(** ** The auto-merge summary *)

Lemma list_ascii_of_string_app (a b : string) :
  list_ascii_of_string (a ++ b)
  = (list_ascii_of_string a ++ list_ascii_of_string b)%list.
Proof. induction a as [|c a IH]; simpl; [done|]. by rewrite IH. Qed.

Lemma list_ascii_of_string_inj (a b : string) :
  list_ascii_of_string a = list_ascii_of_string b → a = b.
Proof.
  intros H. rewrite <- (string_of_list_ascii_of_string a),
    <- (string_of_list_ascii_of_string b). by rewrite H.
Qed.

(** Two texts ending in the same suffix, reversed character by character. *)
Lemma append_reversed (a s b t : string) :
  a ++ s = b ++ t →
  (rev (list_ascii_of_string s) ++ rev (list_ascii_of_string a)
   = rev (list_ascii_of_string t) ++ rev (list_ascii_of_string b))%list.
Proof.
  intros H. apply (f_equal list_ascii_of_string) in H.
  rewrite !list_ascii_of_string_app in H. apply (f_equal (@rev ascii)) in H.
  by rewrite !rev_app_distr in H.
Qed.

Lemma append_cancel_r (a b s : string) : a ++ s = b ++ s → a = b.
Proof.
  intros H. apply append_reversed in H. apply app_inv_head in H.
  apply list_ascii_of_string_inj. apply (f_equal (@rev ascii)) in H.
  by rewrite !rev_involutive in H.
Qed.

Ltac different_suffix H :=
  apply append_reversed in H; cbn in H; congruence.

Lemma summary_line_inj e1 e2 :
  summary_line e1 = summary_line e2 →
  am_key e1 = am_key e2 ∧ am_action e1 = am_action e2.
Proof.
  unfold summary_line. intros H.
  destruct (am_action e1), (am_action e2);
    try (cbn in H; discriminate H);
    (apply (inj (String.append _)) in H);
    first [ by apply append_cancel_r in H | exfalso; different_suffix H ].
Qed.

Lemma getAutoMergeSummary_map mergeResult :
  getAutoMergeSummary mergeResult = map summary_line (autoMerged mergeResult).
Proof.
  unfold getAutoMergeSummary.
  assert (H : ∀ entries lines,
    fold_left (λ lines entry, (lines ++ [summary_line entry])%list) entries lines
    = (lines ++ map summary_line entries)%list).
  { induction entries as [|e entries IH]; intros lines; cbn [fold_left map].
    - by rewrite app_nil_r.
    - by rewrite IH, <- app_assoc. }
  by rewrite H.
Qed.

(** X15: the summary names the auto-merges. For a result of
    [threeWayMergeEnvFile], [getAutoMergeSummary] has one line for each
    entry of [autoMerged] and no line twice; the line of a key and an action
    is in it exactly when the outcome of the key is an auto-merge with that
    action. A conflicted or unchanged key has no line. *)
Theorem summary_names_the_auto_merges :
  ∀ fileName base local remote,
    let result := threeWayMergeEnvFile fileName base local remote in
    length (getAutoMergeSummary result) = length (autoMerged result)
    ∧ NoDup (getAutoMergeSummary result)
    ∧ ∀ key action,
        line_for key action ∈ getAutoMergeSummary result
        ↔ ∃ value, key_outcome base local remote key = AutoMerged action value.
Proof.
  intros fileName base local remote result.
  rewrite getAutoMergeSummary_map. split_and!.
  - apply length_map.
  - assert (Hkeys : NoDup (map am_key (autoMerged result))).
    { pose proof (merge_loop_reported_once base local remote
                    (all_keys base local remote)
                    {| acc_merged := JsMap.empty; acc_conflicts := [];
                       acc_autoMerged := [] |}) as H.
      apply NoDup_app in H as (_ & _ & H); [exact H|apply new_Set_NoDup|constructor|].
      intros k _. apply not_elem_of_nil. }
    revert Hkeys. generalize (autoMerged result) as entries.
    induction entries as [|e entries IH]; cbn [map]; intros Hnd; [constructor|].
    apply NoDup_cons in Hnd as [He Hnd]. apply NoDup_cons. split; [|by apply IH].
    intros Hin. apply He. apply list_elem_of_fmap in Hin as (e' & Heq & He').
    apply summary_line_inj in Heq as [-> _]. apply list_elem_of_fmap. by exists e'.
  - intros key action. split.
    + intros Hin. apply list_elem_of_fmap in Hin as (e & Heq & He).
      apply summary_line_inj in Heq as [Hk Ha]. cbn in Hk, Ha.
      exists (am_value e). subst key action.
      pose proof (merge_loop_autoMerged base local remote
                    (all_keys base local remote)
                    {| acc_merged := JsMap.empty; acc_conflicts := [];
                       acc_autoMerged := [] |} e) as H.
      apply H in He as [He|[_ He]]; [by apply elem_of_nil in He|done].
    + intros [value Hout].
      apply list_elem_of_fmap.
      exists {| am_key := key; am_action := action; am_value := value |}.
      split; [done|].
      apply (merge_loop_autoMerged base local remote (all_keys base local remote)).
      right. split; [|done]. by eapply auto_outcome_in_all_keys.
Qed.

(** ** Env files *)

Example parseEnvFile_sample :
  parseEnvFile
    (String.concat (String LF EmptyString)
       ["# comment"; "  A = 1  "; EmptyString; "B='two words'"; "no equals"; "A=2";
        "C=" ++ dquote ++ "x" ++ dquote; "=v"])
  = [("A", "2"); ("B", "two words"); ("C", "x"); (EmptyString, "v")].
Proof. vm_compute. reflexivity. Qed.

Example serializeEnvFile_sample :
  serializeEnvFile ordinal_compare sample_env
  = String.concat (String LF EmptyString)
      ["A_NAME=" ++ dquote ++ "two words" ++ dquote; "B_URL=http://x/?a=1";
       "C_EMPTY=" ++ dquote ++ dquote; EmptyString].
Proof. vm_compute. reflexivity. Qed.

Example diffEnvFiles_sample :
  diffEnvFiles [("A", "1"); ("B", "2"); ("C", "3")] [("B", "2"); ("C", "4"); ("D", "5")]
  = {| added := ["A"]; removed := ["D"]; changed := ["C"] |}.
Proof. reflexivity. Qed.

(** *** Trimming *)

Local Open Scope list_scope.

Lemma find_ext_elem {A} (f g : A → bool) (l : list A) :
  (∀ x, x ∈ l → f x = g x) → find f l = find g l.
Proof.
  induction l as [|x l IH]; intros H; cbn [find]; [done|].
  rewrite (H x) by apply list_elem_of_here.
  destruct (g x); [done|]. apply IH. intros y Hy. apply H.
  by apply list_elem_of_further.
Qed.

Lemma prefix_of_app_barrier (p x y : chars) (c : ascii) :
  c ∉ p → p `prefix_of` x ++ c :: y → p `prefix_of` x.
Proof.
  revert x. induction p as [|a p IH]; intros x Hc Hp; [apply prefix_nil|].
  destruct x as [|b x]; cbn in Hp.
  - apply prefix_cons_inv_1 in Hp as ->. exfalso. apply Hc, list_elem_of_here.
  - pose proof (prefix_cons_inv_1 _ _ _ _ Hp) as ->.
    apply prefix_cons. apply prefix_cons_inv_2 in Hp. apply IH; [|done].
    intros H. apply Hc. by apply list_elem_of_further.
Qed.

Section TrimLeading.

Variable patterns : list chars.
Hypothesis patterns_nonempty : ∀ p, p ∈ patterns → p ≠ [].

Lemma strip_leading_Some s rest :
  strip_leading patterns s = Some rest →
  ∃ p, p ∈ patterns ∧ s = (p ++ rest)%list.
Proof.
  unfold strip_leading. destruct (find _ patterns) as [p|] eqn:E; [|done].
  intros [= <-]. apply find_some in E as [Hin Hp].
  apply bool_decide_eq_true in Hp as [k ->].
  exists p. split; [by apply list_elem_of_In|].
  by rewrite drop_app_length.
Qed.

Lemma strip_leading_None s :
  strip_leading patterns s = None ↔ ∀ p, p ∈ patterns → ¬ p `prefix_of` s.
Proof.
  unfold strip_leading. split.
  - destruct (find _ patterns) as [p|] eqn:E; [done|]. intros _ p Hp Hpre.
    apply list_elem_of_In in Hp. pose proof (find_none _ _ E p Hp) as Hn.
    cbn in Hn. by apply bool_decide_eq_false in Hn.
  - intros H. destruct (find _ patterns) as [p|] eqn:E; [|done].
    apply find_some in E as [Hin Hp]. apply bool_decide_eq_true in Hp.
    exfalso. apply (H p); [by apply list_elem_of_In|done].
Qed.

Lemma strip_leading_nil : strip_leading patterns [] = None.
Proof.
  apply strip_leading_None. intros p Hp Hpre.
  apply prefix_nil_inv in Hpre. by apply (patterns_nonempty p).
Qed.

Lemma strip_leading_shorter s rest :
  strip_leading patterns s = Some rest → (length rest < length s)%nat.
Proof.
  intros H. apply strip_leading_Some in H as (p & Hp & ->).
  rewrite length_app. pose proof (patterns_nonempty p Hp).
  destruct p; [done|]. cbn. lia.
Qed.

Lemma trim_leading_steps_enough n m s :
  (length s ≤ n)%nat → (length s ≤ m)%nat →
  trim_leading_steps patterns n s = trim_leading_steps patterns m s.
Proof.
  revert m s. induction n as [|n IH]; intros m s Hn Hm.
  - destruct s; [|cbn in Hn; lia].
    destruct m; cbn; [done|]. by rewrite strip_leading_nil.
  - destruct m as [|m].
    + destruct s; [|cbn in Hm; lia]. cbn. by rewrite strip_leading_nil.
    + cbn. destruct (strip_leading patterns s) as [rest|] eqn:E; [|done].
      apply strip_leading_shorter in E. apply IH; lia.
Qed.

Lemma trim_leading_unfold s :
  trim_leading patterns s
  = match strip_leading patterns s with
    | Some rest => trim_leading patterns rest
    | None => s
    end.
Proof.
  unfold trim_leading. destruct s as [|c s].
  - by rewrite strip_leading_nil.
  - cbn [length trim_leading_steps].
    destruct (strip_leading patterns (c :: s)) as [rest|] eqn:E; [|done].
    apply strip_leading_shorter in E. cbn in E.
    apply trim_leading_steps_enough; lia.
Qed.

Lemma trim_leading_fixed s :
  (∀ p, p ∈ patterns → ¬ p `prefix_of` s) → trim_leading patterns s = s.
Proof.
  intros H. rewrite trim_leading_unfold.
  by rewrite (proj2 (strip_leading_None s) H).
Qed.

Lemma trim_leading_stable s :
  strip_leading patterns (trim_leading patterns s) = None.
Proof.
  remember (length s) as n eqn:Hn. revert s Hn.
  induction n as [n IH] using lt_wf_ind. intros s ->.
  rewrite trim_leading_unfold.
  destruct (strip_leading patterns s) as [rest|] eqn:E; [|done].
  apply (IH (length rest)); [by apply strip_leading_shorter|done].
Qed.

Lemma trim_leading_idem s :
  trim_leading patterns (trim_leading patterns s) = trim_leading patterns s.
Proof.
  rewrite (trim_leading_unfold (trim_leading patterns s)).
  by rewrite trim_leading_stable.
Qed.

Lemma trim_leading_suffix s : trim_leading patterns s `suffix_of` s.
Proof.
  remember (length s) as n eqn:Hn. revert s Hn.
  induction n as [n IH] using lt_wf_ind. intros s ->.
  rewrite trim_leading_unfold.
  destruct (strip_leading patterns s) as [rest|] eqn:E; [|done].
  pose proof (strip_leading_shorter _ _ E) as Hlt.
  apply strip_leading_Some in E as (p & _ & ->).
  transitivity rest; [by apply (IH (length rest))|]. by apply suffix_app_r.
Qed.

(** A character no pattern holds stops the trimming. *)
Lemma trim_leading_barrier (c : ascii) (x y : chars) :
  (∀ p, p ∈ patterns → c ∉ p) →
  trim_leading patterns (x ++ c :: y) = (trim_leading patterns x ++ c :: y)%list.
Proof.
  intros Hc. remember (length x) as n eqn:Hn. revert x Hn.
  induction n as [n IH] using lt_wf_ind. intros x ->.
  rewrite (trim_leading_unfold (x ++ c :: y)), (trim_leading_unfold x).
  unfold strip_leading.
  rewrite (find_ext_elem _ (λ p, bool_decide (p `prefix_of` x))).
  - destruct (find _ patterns) as [p|] eqn:E; [|done].
    apply find_some in E as [Hin Hp]. apply list_elem_of_In in Hin.
    apply bool_decide_eq_true in Hp as [k ->].
    rewrite <- app_assoc, !drop_app_length.
    apply (IH (length k)); [|done]. rewrite length_app.
    pose proof (patterns_nonempty p Hin). destruct p; [done|]. cbn. lia.
  - intros p Hp. apply bool_decide_ext. split.
    + apply prefix_of_app_barrier. by apply Hc.
    + intros H. by apply prefix_app_r.
Qed.

End TrimLeading.

Lemma white_space_nonempty p : p ∈ white_space → p ≠ [].
Proof.
  intros Hp ->. revert Hp. apply (bool_decide_unpack _). vm_compute. exact I.
Qed.

Lemma reversed_white_space_nonempty p : p ∈ map (@rev ascii) white_space → p ≠ [].
Proof.
  intros Hp ->. revert Hp. apply (bool_decide_unpack _). vm_compute. exact I.
Qed.

Lemma outside_white_space_patterns c p :
  outside_white_space c → p ∈ white_space → c ∉ p.
Proof. unfold outside_white_space. rewrite Forall_forall. auto. Qed.

Lemma outside_white_space_reversed c p :
  outside_white_space c → p ∈ map (@rev ascii) white_space → c ∉ p.
Proof.
  intros Hc Hp. apply list_elem_of_fmap in Hp as (q & -> & Hq).
  intros Hin. apply (outside_white_space_patterns c q Hc Hq).
  apply list_elem_of_In. apply in_rev. by apply list_elem_of_In.
Qed.

Lemma equals_outside_white_space : outside_white_space "=".
Proof. apply (bool_decide_unpack _). vm_compute. exact I. Qed.

Lemma double_quote_outside_white_space : outside_white_space double_quote.
Proof. apply (bool_decide_unpack _). vm_compute. exact I. Qed.

Lemma trimStart_barrier c x y :
  outside_white_space c → trimStart (x ++ c :: y) = trimStart x ++ c :: y.
Proof.
  intros Hc. apply trim_leading_barrier; [apply white_space_nonempty|].
  intros p. by apply outside_white_space_patterns.
Qed.

Lemma trimEnd_barrier c x y :
  outside_white_space c → trimEnd (x ++ c :: y) = x ++ c :: trimEnd y.
Proof.
  intros Hc. unfold trimEnd. rewrite rev_app_distr. cbn [rev].
  rewrite <- app_assoc. cbn [app].
  rewrite (trim_leading_barrier _ reversed_white_space_nonempty c).
  - rewrite rev_app_distr. cbn [rev]. by rewrite rev_involutive, <- app_assoc.
  - intros p. by apply outside_white_space_reversed.
Qed.

Lemma trimEnd_idem s : trimEnd (trimEnd s) = trimEnd s.
Proof.
  unfold trimEnd. rewrite rev_involutive.
  by rewrite (trim_leading_idem _ reversed_white_space_nonempty).
Qed.

Lemma trimStart_subset s c : c ∈ trimStart s → c ∈ s.
Proof.
  intros H. destruct (trim_leading_suffix _ white_space_nonempty s) as [k Hk].
  rewrite Hk. apply elem_of_app. by right.
Qed.

Lemma trimEnd_subset s c : c ∈ trimEnd s → c ∈ s.
Proof.
  unfold trimEnd. intros H. apply list_elem_of_In, in_rev, list_elem_of_In in H.
  destruct (trim_leading_suffix _ reversed_white_space_nonempty (rev s)) as [k Hk].
  apply list_elem_of_In, in_rev, list_elem_of_In. rewrite Hk.
  apply elem_of_app. by right.
Qed.

Lemma trim_subset s c : c ∈ trim s → c ∈ s.
Proof. intros H. by apply trimEnd_subset, trimStart_subset. Qed.

Lemma trim_nil : trim [] = [].
Proof. reflexivity. Qed.

(** A text between two characters that are no white space is trimmed
    already. *)
Lemma trim_between a s b :
  outside_white_space a → outside_white_space b →
  trim (a :: s ++ [b]) = a :: s ++ [b].
Proof.
  intros Ha Hb. unfold trim.
  replace (a :: s ++ [b]) with ((a :: s) ++ b :: []) by done.
  rewrite (trimEnd_barrier b) by done.
  replace (trimEnd []) with (@nil ascii) by done.
  replace ((a :: s) ++ [b]) with ([] ++ a :: (s ++ [b])) by done.
  by rewrite (trimStart_barrier a).
Qed.

(** *** Searching and replacing *)

Lemma includes_false c s : includes c s = false ↔ c ∉ s.
Proof.
  unfold includes. induction s as [|x s IH]; cbn [existsb].
  - split; [intros _; apply not_elem_of_nil|done].
  - rewrite orb_false_iff, IH, not_elem_of_cons.
    destruct (Ascii.eqb_spec c x); split; intros [? ?]; try done; split; congruence.
Qed.

Lemma includes_true c s : includes c s = true ↔ c ∈ s.
Proof.
  destruct (includes c s) eqn:E.
  - split; [|done]. intros _. destruct (decide (c ∈ s)) as [|Hn]; [done|].
    apply includes_false in Hn. congruence.
  - apply includes_false in E. split; [done|]. tauto.
Qed.

Lemma starts_with_elem c s : starts_with c s = true → c ∈ s.
Proof.
  destruct s as [|x s]; cbn; [done|]. intros H%Ascii.eqb_eq. subst.
  apply list_elem_of_here.
Qed.

Lemma ends_with_elem c s : ends_with c s = true → c ∈ s.
Proof.
  unfold ends_with. intros H%starts_with_elem.
  by apply list_elem_of_In, in_rev, list_elem_of_In.
Qed.

Lemma index_of_first c x y :
  c ∉ x → index_of c (x ++ c :: y) = Some (length x).
Proof.
  induction x as [|a x IH]; intros Hc; cbn [app index_of length].
  - by rewrite Ascii.eqb_refl.
  - apply not_elem_of_cons in Hc as [Hne Hc].
    destruct (Ascii.eqb_spec a c); [congruence|]. by rewrite IH.
Qed.

Lemma replace_all_absent c by_ s : c ∉ s → replace_all c by_ s = s.
Proof.
  unfold replace_all. induction s as [|x s IH]; intros Hc; cbn [flat_map]; [done|].
  apply not_elem_of_cons in Hc as [Hne Hc].
  destruct (Ascii.eqb_spec x c); [congruence|]. cbn. by rewrite IH.
Qed.

Lemma elem_of_replace_all c by_ s x :
  x ∈ replace_all c by_ s ↔ (x ∈ s ∧ x ≠ c) ∨ (c ∈ s ∧ x ∈ by_).
Proof.
  unfold replace_all. induction s as [|a s IH]; cbn [flat_map].
  - rewrite !elem_of_nil. tauto.
  - rewrite elem_of_app, IH, !elem_of_cons.
    destruct (Ascii.eqb_spec a c) as [->|Hne].
    + split; [intros [?|[[? ?]|[? ?]]]|intros [[[->|?] ?]|[? ?]]]; tauto.
    + rewrite list_elem_of_singleton.
      split; [intros [->|[[? ?]|[? ?]]]|intros [[[->|?] ?]|[[->|?] ?]]];
        try tauto; try congruence.
Qed.

Lemma replace_all_length c a b s :
  (length s ≤ length (replace_all c [a; b] s))%nat
  ∧ (c ∈ s → (length s < length (replace_all c [a; b] s))%nat).
Proof.
  unfold replace_all. induction s as [|x s [IH1 IH2]]; cbn [flat_map length].
  - split; [done|]. by intros ?%elem_of_nil.
  - rewrite length_app. destruct (Ascii.eqb_spec x c) as [->|Hne]; cbn [length].
    + split; [lia|]. intros _. lia.
    + split; [lia|]. intros [->|H]%elem_of_cons; [done|].
      specialize (IH2 H). lia.
Qed.

(** *** Lines *)

Lemma split_on_nonempty sep s : split_on sep s ≠ [].
Proof.
  destruct s as [|c s]; cbn; [done|].
  destruct (Ascii.eqb c sep); [done|]. by destruct (split_on sep s).
Qed.

Lemma split_on_app sep a b :
  split_on sep (a ++ sep :: b) = split_on sep a ++ split_on sep b.
Proof.
  induction a as [|c a IH]; cbn [app split_on].
  - by rewrite Ascii.eqb_refl.
  - destruct (Ascii.eqb c sep); [by rewrite IH|].
    rewrite IH. pose proof (split_on_nonempty sep a).
    by destruct (split_on sep a).
Qed.

Lemma split_on_absent sep s : sep ∉ s → split_on sep s = [s].
Proof.
  induction s as [|c s IH]; intros H; cbn [split_on]; [done|].
  apply not_elem_of_cons in H as [Hne H].
  destruct (Ascii.eqb_spec c sep); [congruence|]. by rewrite IH.
Qed.

Lemma split_on_joined sep lines :
  (∀ line, line ∈ lines → sep ∉ line) →
  split_on sep (join_with sep lines ++ [sep])
  = (if lines is [] then [[]] else lines) ++ [[]].
Proof.
  induction lines as [|line lines IH]; intros H.
  - cbn. by rewrite Ascii.eqb_refl.
  - assert (Hline : sep ∉ line) by apply H, list_elem_of_here.
    assert (Hrest : ∀ l, l ∈ lines → sep ∉ l).
    { intros l Hl. apply H. by apply list_elem_of_further. }
    destruct lines as [|line' lines].
    + cbn [join_with]. rewrite split_on_app, split_on_absent by done. done.
    + replace (join_with sep (line :: line' :: lines) ++ [sep])
        with (line ++ sep :: (join_with sep (line' :: lines) ++ [sep]))
        by (cbn [join_with]; by rewrite <- app_assoc).
      rewrite split_on_app, split_on_absent, IH by done. done.
Qed.

(** *** One line *)

Lemma parse_line_cases vars line :
  parse_line vars line = vars
  ∨ ∃ key value,
      (∀ vars', parse_line vars' line = JsMap.set vars' key value).
Proof.
  unfold parse_line.
  destruct (bool_decide (trim line = []) || starts_with "#" (trim line)); [by left|].
  destruct (index_of "=" (trim line)) as [eqIndex|]; [|by left].
  right. eauto.
Qed.

Lemma needsQuoting_false v :
  needsQuoting v = false →
  (double_quote ∉ v) ∧ (single_quote ∉ v) ∧ (LF ∉ v) ∧ (backslash ∉ v) ∧ v ≠ [].
Proof.
  unfold needsQuoting. rewrite !orb_false_iff, !includes_false.
  intros (((((((_ & ?) & ?) & _) & _) & ?) & ?) & Hne).
  split_and!; try done. by apply bool_decide_eq_false in Hne.
Qed.

Lemma escape_value_plain v :
  double_quote ∉ v → backslash ∉ v → LF ∉ v → escape_value v = v.
Proof.
  intros Hq Hb Hl. unfold escape_value.
  rewrite (replace_all_absent backslash) by done.
  rewrite (replace_all_absent double_quote) by done.
  by rewrite replace_all_absent.
Qed.

Lemma escape_value_no_LF v : LF ∉ escape_value v.
Proof.
  unfold escape_value. rewrite elem_of_replace_all. intros [[_ H]|[_ H]]; [done|].
  apply elem_of_cons in H as [H|H]; [discriminate H|].
  apply list_elem_of_singleton in H. discriminate H.
Qed.

Lemma escape_value_longer v :
  double_quote ∈ v ∨ backslash ∈ v ∨ LF ∈ v →
  (length v < length (escape_value v))%nat.
Proof.
  unfold escape_value.
  set (s1 := replace_all backslash [backslash; backslash] v).
  set (s2 := replace_all double_quote [backslash; double_quote] s1).
  pose proof (replace_all_length backslash backslash backslash v) as [L1 S1].
  pose proof (replace_all_length double_quote backslash double_quote s1) as [L2 S2].
  pose proof (replace_all_length LF backslash "n"%char s2) as [L3 S3].
  fold s1 in L1, S1. fold s2 in L2, S2.
  intros [H|[H|H]].
  - assert (double_quote ∈ s1).
    { apply elem_of_replace_all. left. by split. }
    specialize (S2 ltac:(done)). lia.
  - specialize (S1 H). lia.
  - assert (LF ∈ s2).
    { apply elem_of_replace_all. left. split; [|done].
      apply elem_of_replace_all. left. by split. }
    specialize (S3 ltac:(done)). lia.
Qed.

Lemma formatEnvValue_no_LF v : LF ∉ formatEnvValue v.
Proof.
  unfold formatEnvValue. destruct (needsQuoting v) eqn:E; cbn [negb].
  - rewrite not_elem_of_cons, not_elem_of_app, list_elem_of_singleton.
    split_and!; [done|apply escape_value_no_LF|done].
  - by apply needsQuoting_false in E as (_ & _ & ? & _).
Qed.

(** What is read from the value part of a line [serializeEnvFile] wrote. *)
Lemma read_formatted_value v :
  let value := trim (formatEnvValue v) in
  (if (starts_with double_quote value && ends_with double_quote value)
      || (starts_with single_quote value && ends_with single_quote value)
   then slice_1_m1 value
   else value)
  = if needsQuoting v then escape_value v else trim v.
Proof.
  unfold formatEnvValue. destruct (needsQuoting v) eqn:E; cbn [negb].
  - rewrite trim_between by apply double_quote_outside_white_space.
    cbn zeta.
    assert (starts_with double_quote (double_quote :: escape_value v ++ [double_quote])
            = true) as -> by done.
    assert (ends_with double_quote (double_quote :: escape_value v ++ [double_quote])
            = true) as ->.
    { unfold ends_with. cbn [rev]. by rewrite rev_app_distr. }
    cbn [andb orb]. unfold slice_1_m1. cbn [drop length].
    rewrite length_app. cbn [length].
    replace (S (length (escape_value v) + 1) - 2)%nat with (length (escape_value v))
      by lia.
    rewrite drop_0. by rewrite take_app_length.
  - cbn zeta. apply needsQuoting_false in E as (Hq & Hs & _).
    assert (starts_with double_quote (trim v) = false) as ->.
    { destruct (starts_with double_quote (trim v)) eqn:F; [|done].
      exfalso. by apply Hq, trim_subset, starts_with_elem. }
    assert (starts_with single_quote (trim v) = false) as ->.
    { destruct (starts_with single_quote (trim v)) eqn:F; [|done].
      exfalso. by apply Hs, trim_subset, starts_with_elem. }
    done.
Qed.

Lemma parse_env_line vars0 vars key :
  plain_key key →
  parse_line vars0 (env_line vars key)
  = JsMap.set vars0 key (read_back (default EmptyString (JsMap.get vars key))).
Proof.
  intros (Hs & He & Heq & Hlf & Hhash).
  unfold env_line, read_back. cbn zeta.
  set (k := list_ascii_of_string key) in *.
  set (v := list_ascii_of_string (default EmptyString (JsMap.get vars key))).
  apply includes_false in Heq.
  assert (Htrim : trim (k ++ "="%char :: formatEnvValue v)
                  = k ++ "="%char :: trimEnd (formatEnvValue v)).
  { unfold trim.
    rewrite (trimEnd_barrier "=") by apply equals_outside_white_space.
    rewrite (trimStart_barrier "=") by apply equals_outside_white_space.
    by rewrite Hs. }
  unfold parse_line. rewrite Htrim.
  assert (bool_decide (k ++ "="%char :: trimEnd (formatEnvValue v) = []) = false) as ->.
  { apply bool_decide_eq_false. by destruct k. }
  assert (starts_with "#" (k ++ "="%char :: trimEnd (formatEnvValue v)) = false) as ->.
  { destruct k; [done|exact Hhash]. }
  cbn [orb]. rewrite index_of_first by done.
  rewrite take_app_length.
  replace (drop (S (length k)) (k ++ "="%char :: trimEnd (formatEnvValue v)))
    with (trimEnd (formatEnvValue v)).
  2:{ replace (k ++ "="%char :: trimEnd (formatEnvValue v))
        with ((k ++ ["="%char]) ++ trimEnd (formatEnvValue v))
        by (by rewrite <- app_assoc).
      replace (S (length k)) with (length (k ++ ["="%char]))
        by (rewrite length_app; cbn; lia).
      by rewrite drop_app_length. }
  assert (trim k = k) as -> by (unfold trim; by rewrite He, Hs).
  assert (trim (trimEnd (formatEnvValue v)) = trim (formatEnvValue v)) as ->
    by (unfold trim; by rewrite trimEnd_idem).
  rewrite (read_formatted_value v).
  unfold k. by rewrite string_of_list_ascii_of_string.
Qed.

Lemma env_line_no_LF vars key : plain_key key → LF ∉ env_line vars key.
Proof.
  intros (_ & _ & _ & Hlf & _). unfold env_line.
  rewrite not_elem_of_app, not_elem_of_cons. split_and!.
  - by apply includes_false.
  - done.
  - apply formatEnvValue_no_LF.
Qed.

(** *** A whole file *)

Lemma fold_parse_line_get lines vars0 k :
  JsMap.get (fold_left parse_line lines vars0) k
  = match JsMap.get (fold_left parse_line lines JsMap.empty) k with
    | Some v => Some v
    | None => JsMap.get vars0 k
    end.
Proof.
  induction lines as [|line lines IH] using rev_ind; [done|].
  rewrite !fold_left_app. cbn [fold_left].
  destruct (parse_line_cases JsMap.empty line) as [Hskip|(key & value & Hset)].
  - assert (Hany : ∀ vars, parse_line vars line = vars).
    { intros vars. unfold parse_line in *.
      destruct (bool_decide (trim line = []) || starts_with "#" (trim line)); [done|].
      destruct (index_of "=" (trim line)); [|done].
      exfalso. by destruct (trim (take n (trim line))). }
    by rewrite !Hany.
  - rewrite !Hset. destruct (decide (key = k)) as [->|Hne].
    + by rewrite !JsMapFacts.get_set_eq.
    + by rewrite !JsMapFacts.get_set_ne.
Qed.

Lemma fold_set_get (f : string → string) (ks : list string) vars0 k :
  JsMap.get (fold_left (λ m key, JsMap.set m key (f key)) ks vars0) k
  = if decide (k ∈ ks) then Some (f k) else JsMap.get vars0 k.
Proof.
  revert vars0. induction ks as [|a ks IH]; intros vars0; cbn [fold_left].
  - case_decide as H; [by apply elem_of_nil in H|done].
  - rewrite IH. destruct (decide (k ∈ ks)) as [Hin|Hin].
    + by rewrite decide_True by by apply list_elem_of_further.
    + destruct (decide (a = k)) as [->|Hne].
      * rewrite decide_True by apply list_elem_of_here.
        apply JsMapFacts.get_set_eq.
      * rewrite decide_False.
        -- by apply JsMapFacts.get_set_ne.
        -- intros [->|?]%elem_of_cons; done.
Qed.

Lemma parse_line_nil vars : parse_line vars [] = vars.
Proof. reflexivity. Qed.

Lemma parse_serialized_lines vars keys vars0 :
  (∀ key, key ∈ keys → plain_key key) →
  fold_left parse_line
    (split_on LF (join_with LF (map (env_line vars) keys) ++ [LF])) vars0
  = fold_left
      (λ m key, JsMap.set m key (read_back (default EmptyString (JsMap.get vars key))))
      keys vars0.
Proof.
  intros Hplain. rewrite split_on_joined.
  - rewrite fold_left_app. cbn [fold_left]. rewrite parse_line_nil.
    destruct keys as [|key keys]; [done|].
    assert (map (env_line vars) (key :: keys) ≠ []) by done.
    destruct (map (env_line vars) (key :: keys)) as [|l ls] eqn:E; [done|].
    rewrite <- E. clear E H. revert vars0.
    induction (key :: keys) as [|a ks IH]; intros vars0; [done|].
    cbn [map fold_left]. rewrite parse_env_line.
    + apply IH. intros x Hx. apply Hplain. by apply list_elem_of_further.
    + apply Hplain, list_elem_of_here.
  - intros line Hline. apply list_elem_of_fmap in Hline as (key & -> & Hkey).
    by apply env_line_no_LF, Hplain.
Qed.

Lemma elem_of_keys_get m k : k ∈ JsMap.keys m ↔ is_Some (JsMap.get m k).
Proof.
  split.
  - intros Hk. destruct (JsMap.get m k) eqn:E; [done|].
    by apply JsMapFacts.get_None_keys in E.
  - intros [v Hv]. by eapply JsMapFacts.get_Some_keys.
Qed.

(** What is read back from a written file, for every key. *)
Lemma parse_serialize_get compareStrings vars k :
  (∀ key, key ∈ JsMap.keys vars → plain_key key) →
  JsMap.get (parseEnvFile (serializeEnvFile compareStrings vars)) k
  = read_back <$> JsMap.get vars k.
Proof.
  intros Hplain. unfold parseEnvFile, serializeEnvFile. cbn zeta.
  rewrite list_ascii_of_string_of_list_ascii.
  rewrite parse_serialized_lines.
  - rewrite (fold_set_get
               (λ key, read_back (default EmptyString (JsMap.get vars key)))).
    pose proof (Array_sort_perm compareStrings (JsMap.keys vars)) as Hperm.
    destruct (decide (k ∈ Array_sort compareStrings (JsMap.keys vars))) as [Hin|Hin].
    + rewrite Hperm in Hin. apply elem_of_keys_get in Hin as [v Hv].
      by rewrite Hv.
    + rewrite Hperm in Hin. cbn.
      destruct (JsMap.get vars k) eqn:E; [|done].
      exfalso. apply Hin. by eapply JsMapFacts.get_Some_keys.
  - intros key Hkey. apply Hplain.
    by rewrite (Array_sort_perm compareStrings) in Hkey.
Qed.

Lemma read_back_restorable value : restorable_value value → read_back value = value.
Proof.
  intros (Hq & Hb & Hl & Hbare). unfold read_back. cbn zeta.
  apply includes_false in Hq, Hb, Hl.
  destruct (needsQuoting (list_ascii_of_string value)) eqn:E.
  - rewrite escape_value_plain by done. apply string_of_list_ascii_of_string.
  - destruct (Hbare eq_refl) as [Hs He]. unfold trim. rewrite He, Hs.
    apply string_of_list_ascii_of_string.
Qed.

Lemma sample_env_keys_plain key : key ∈ JsMap.keys sample_env → plain_key key.
Proof.
  intros H. repeat (apply elem_of_cons in H as [->|H]; [by vm_compute|]).
  by apply elem_of_nil in H.
Qed.

(** X16: what a written env file reads back. When every key of a map is
    plain (no white space at its ends, no [=], no line feed, no leading
    [#]), [parseEnvFile] of [serializeEnvFile] of the map has exactly the
    keys of the map, and for each the text [read_back] of its value: the
    escaped text of a value that was quoted, the trimmed text of one that
    was written bare. *)
Theorem written_env_file_reads_back :
  ∀ compareStrings vars,
    (∀ key, key ∈ JsMap.keys vars → plain_key key) →
    ∀ key,
      JsMap.get (parseEnvFile (serializeEnvFile compareStrings vars)) key
      = read_back <$> JsMap.get vars key.
Proof. intros compareStrings vars Hplain key. by apply parse_serialize_get. Qed.

Lemma written_env_file_reads_back_witness :
  JsMap.get (parseEnvFile (serializeEnvFile ordinal_compare sample_env_quoted)) "OK"
  = read_back <$> JsMap.get sample_env_quoted "OK".
Proof.
  apply (written_env_file_reads_back ordinal_compare sample_env_quoted).
  intros key H. repeat (apply elem_of_cons in H as [->|H]; [by vm_compute|]).
  by apply elem_of_nil in H.
Defined.

(** X17: the round trip of an env file. When every key of a map is plain
    and every value is restorable (no double quote, backslash or line feed;
    no white space at the ends of a value that needs no quoting), parsing
    the serialized map gives back the value of every key, and no other
    key. *)
Theorem env_file_round_trip :
  ∀ compareStrings vars,
    (∀ key, key ∈ JsMap.keys vars → plain_key key) →
    (∀ key value, JsMap.get vars key = Some value → restorable_value value) →
    ∀ key,
      JsMap.get (parseEnvFile (serializeEnvFile compareStrings vars)) key
      = JsMap.get vars key.
Proof.
  intros compareStrings vars Hplain Hvalues key.
  rewrite parse_serialize_get by done.
  destruct (JsMap.get vars key) as [value|] eqn:E; [|done].
  cbn. f_equal. apply read_back_restorable. by apply (Hvalues key).
Qed.

Lemma env_file_round_trip_witness :
  JsMap.get (parseEnvFile (serializeEnvFile ordinal_compare sample_env)) "A_NAME"
  = JsMap.get sample_env "A_NAME".
Proof.
  apply (env_file_round_trip ordinal_compare sample_env).
  - apply sample_env_keys_plain.
  - intros key value H. cbn [sample_env JsMap.get] in H.
    repeat (destruct (String.eqb _ key); [injection H as <-; by vm_compute|]).
    discriminate H.
Defined.

(** X18: what the round trip does not restore. [parseEnvFile] undoes no
    escape: for a plain key whose value holds a double quote, a backslash or
    a line feed, parsing the serialized map gives the escaped text of the
    value, which is longer than the value and so never the value. *)
Theorem escaped_value_is_not_restored :
  ∀ compareStrings vars key value,
    (∀ key, key ∈ JsMap.keys vars → plain_key key) →
    JsMap.get vars key = Some value →
    (double_quote ∈ list_ascii_of_string value
     ∨ backslash ∈ list_ascii_of_string value
     ∨ LF ∈ list_ascii_of_string value) →
    JsMap.get (parseEnvFile (serializeEnvFile compareStrings vars)) key
    = Some (string_of_list_ascii (escape_value (list_ascii_of_string value)))
    ∧ string_of_list_ascii (escape_value (list_ascii_of_string value)) ≠ value.
Proof.
  intros compareStrings vars key value Hplain Hget Hspecial.
  rewrite parse_serialize_get, Hget by done. cbn. unfold read_back. cbn zeta.
  assert (needsQuoting (list_ascii_of_string value) = true) as ->.
  { unfold needsQuoting. rewrite !orb_true_iff, !includes_true. tauto. }
  split; [done|]. intros Heq.
  apply escape_value_longer in Hspecial.
  apply (f_equal list_ascii_of_string) in Heq.
  rewrite list_ascii_of_string_of_list_ascii in Heq. rewrite Heq in Hspecial. lia.
Qed.

Lemma escaped_value_is_not_restored_witness :
  JsMap.get (parseEnvFile (serializeEnvFile ordinal_compare sample_env_quoted))
    "PATH_WIN"
  = Some (string_of_list_ascii (escape_value (list_ascii_of_string "C:\dir")))
  ∧ string_of_list_ascii (escape_value (list_ascii_of_string "C:\dir")) ≠ "C:\dir".
Proof.
  apply (escaped_value_is_not_restored ordinal_compare sample_env_quoted).
  - intros key H. repeat (apply elem_of_cons in H as [->|H]; [by vm_compute|]).
    by apply elem_of_nil in H.
  - reflexivity.
  - right; left. apply list_elem_of_further, list_elem_of_further, list_elem_of_here.
Defined.

(** X19: a later line overrides an earlier one. Parsing two texts joined
    by a line feed gives, for every key, the value the second text assigns
    when it assigns one, and the value of the first text otherwise. *)
Theorem later_assignment_wins :
  ∀ (first second : string) key,
    JsMap.get (parseEnvFile (first ++ String LF second)%string) key
    = match JsMap.get (parseEnvFile second) key with
      | Some value => Some value
      | None => JsMap.get (parseEnvFile first) key
      end.
Proof.
  intros first second key. unfold parseEnvFile.
  rewrite list_ascii_of_string_app. cbn [list_ascii_of_string].
  rewrite split_on_app, fold_left_app.
  apply fold_parse_line_get.
Qed.

(** *** Comparing two env files *)

Lemma diff_local_pass local remote keys (acc : list string * list string) k :
  let result :=
    fold_left
      (fun (acc : list string * list string) key =>
         if negb (JsMap.has remote key) then (fst acc ++ [key], snd acc)
         else if negb (strict_eq (JsMap.get local key) (JsMap.get remote key))
              then (fst acc, snd acc ++ [key])
              else acc)
      keys acc in
  (k ∈ fst result ↔ k ∈ fst acc ∨ (k ∈ keys ∧ JsMap.has remote k = false))
  ∧ (k ∈ snd result
     ↔ k ∈ snd acc
       ∨ (k ∈ keys ∧ JsMap.has remote k = true
          ∧ strict_eq (JsMap.get local k) (JsMap.get remote k) = false)).
Proof.
  revert acc. induction keys as [|a keys IH]; intros acc; cbn [fold_left].
  - cbn zeta. rewrite !elem_of_nil. tauto.
  - cbn zeta in *.
    destruct (IH (if negb (JsMap.has remote a) then (fst acc ++ [a], snd acc)
                  else if negb (strict_eq (JsMap.get local a) (JsMap.get remote a))
                       then (fst acc, snd acc ++ [a]) else acc)) as [IH1 IH2].
    rewrite IH1, IH2. clear IH IH1 IH2. rewrite !elem_of_cons.
    destruct (JsMap.has remote a) eqn:Hhas; cbn [negb];
      [destruct (strict_eq (JsMap.get local a) (JsMap.get remote a)) eqn:Heq|];
      cbn [negb fst snd]; rewrite ?elem_of_app, ?list_elem_of_singleton;
      split; split; intros H; intuition (subst; first [congruence|auto]).
Qed.

Lemma diff_remote_pass local keys acc k :
  k ∈ fold_left
        (fun acc key => if negb (JsMap.has local key) then acc ++ [key] else acc)
        keys acc
  ↔ k ∈ acc ∨ (k ∈ keys ∧ JsMap.has local k = false).
Proof.
  revert acc. induction keys as [|a keys IH]; intros acc; cbn [fold_left].
  - rewrite elem_of_nil. tauto.
  - rewrite IH, elem_of_cons. destruct (JsMap.has local a) eqn:Hhas; cbn [negb];
      rewrite ?elem_of_app, ?list_elem_of_singleton;
      split; intros H; intuition (subst; first [congruence|auto]).
Qed.

Lemma has_true m k : JsMap.has m k = true ↔ k ∈ JsMap.keys m.
Proof.
  unfold JsMap.has. rewrite elem_of_keys_get.
  destruct (JsMap.get m k); cbn; split; try done.
Qed.

Lemma has_false m k : JsMap.has m k = false ↔ JsMap.get m k = None.
Proof. unfold JsMap.has. by destruct (JsMap.get m k). Qed.

(** X20: what [diffEnvFiles] lists. A key is [added] exactly when local
    has it and remote has not, [removed] exactly when remote has it and
    local has not, and [changed] exactly when both have it with different
    values; the three lists are all empty exactly when the two maps hold
    the same value for every key. *)
Theorem diffEnvFiles_lists :
  ∀ local remote,
    let diff := diffEnvFiles local remote in
    (∀ key, key ∈ added diff
            ↔ is_Some (JsMap.get local key) ∧ JsMap.get remote key = None)
    ∧ (∀ key, key ∈ removed diff
              ↔ JsMap.get local key = None ∧ is_Some (JsMap.get remote key))
    ∧ (∀ key, key ∈ changed diff
              ↔ ∃ mine theirs,
                  JsMap.get local key = Some mine
                  ∧ JsMap.get remote key = Some theirs ∧ mine ≠ theirs)
    ∧ (added diff = [] ∧ removed diff = [] ∧ changed diff = []
       ↔ ∀ key, JsMap.get local key = JsMap.get remote key).
Proof.
  intros local remote diff.
  assert (Hadded : ∀ key, key ∈ added diff
            ↔ is_Some (JsMap.get local key) ∧ JsMap.get remote key = None).
  { intros key. unfold diff, diffEnvFiles. cbn [added].
    rewrite (proj1 (diff_local_pass local remote (JsMap.keys local) ([], []) key)).
    cbn [fst]. rewrite elem_of_nil, elem_of_keys_get, has_false. tauto. }
  assert (Hremoved : ∀ key, key ∈ removed diff
            ↔ JsMap.get local key = None ∧ is_Some (JsMap.get remote key)).
  { intros key. unfold diff, diffEnvFiles. cbn [removed].
    rewrite diff_remote_pass, elem_of_nil, elem_of_keys_get, has_false. tauto. }
  assert (Hchanged : ∀ key, key ∈ changed diff
            ↔ ∃ mine theirs, JsMap.get local key = Some mine
                ∧ JsMap.get remote key = Some theirs ∧ mine ≠ theirs).
  { intros key. unfold diff, diffEnvFiles. cbn [changed].
    rewrite (proj2 (diff_local_pass local remote (JsMap.keys local) ([], []) key)).
    cbn [snd]. rewrite elem_of_nil, elem_of_keys_get. unfold JsMap.has.
    destruct (JsMap.get local key) as [x|], (JsMap.get remote key) as [y|]; cbn.
    - destruct (String.eqb_spec x y) as [->|Hne].
      + split; [intros [[]|(_ & _ & ?)]; done|]. intros (? & ? & [= ->] & [= ->] & ?).
        done.
      + split; [eauto|]. intros _. right. split_and!; [by eexists|done..].
    - split; [intros [[]|(_ & ? & _)]; done|]. by intros (? & ? & _ & ? & _).
    - split; [intros [[]|([? ?] & _)]; done|]. by intros (? & ? & ? & _).
    - split; [intros [[]|([? ?] & _)]; done|]. by intros (? & ? & ? & _). }
  split_and!; [done..|]. split.
  - intros (Ha & Hr & Hc) key.
    pose proof (Hadded key) as H1. pose proof (Hremoved key) as H2.
    pose proof (Hchanged key) as H3. rewrite Ha in H1. rewrite Hr in H2.
    rewrite Hc in H3. rewrite elem_of_nil in H1, H2, H3.
    destruct (JsMap.get local key) as [x|], (JsMap.get remote key) as [y|];
      [|exfalso; apply H1; eauto|exfalso; apply H2; eauto|done].
    destruct (decide (x = y)) as [->|Hne]; [done|].
    exfalso. apply H3. eauto.
  - intros Hsame. split_and!.
    + destruct (added diff) as [|k l] eqn:E; [done|]. exfalso.
      assert (Hk : k ∈ k :: l) by apply list_elem_of_here.
      apply Hadded in Hk as [[v Hv] Hn]. rewrite Hsame in Hv. congruence.
    + destruct (removed diff) as [|k l] eqn:E; [done|]. exfalso.
      assert (Hk : k ∈ k :: l) by apply list_elem_of_here.
      apply Hremoved in Hk as [Hn [v Hv]]. rewrite Hsame in Hn. congruence.
    + destruct (changed diff) as [|k l] eqn:E; [done|]. exfalso.
      assert (Hk : k ∈ k :: l) by apply list_elem_of_here.
      apply Hchanged in Hk as (x & y & Hx & Hy & Hne). rewrite Hsame in Hx.
      congruence.
Qed.

(** *** The written text does not depend on insertion order *)

Lemma Array_sort_strings_unique compare (l1 l2 : list string) :
  ConsistentComparator compare →
  no_ties compare l1 →
  l1 ≡ₚ l2 →
  Array_sort compare l1 = Array_sort compare l2.
Proof.
  intros [Hflip Htrans] Hties Hperm.
  assert (Hflip' : ∀ x y, Z.sgn (compare y x) = (- Z.sgn (compare x y))%Z)
    by (intros; apply Hflip).
  apply (StronglySorted_unique_strong (sorted_before compare)).
  - intros x1 x2 Hx1 Hx2 H12 H21.
    rewrite Array_sort_perm in Hx1. rewrite Array_sort_perm, <- Hperm in Hx2.
    apply Hties; [done..|]. by apply (compareFn_tie compare Hflip').
  - by apply Array_sort_StronglySorted.
  - by apply Array_sort_StronglySorted.
  - by rewrite !Array_sort_perm.
Qed.

Lemma ordinal_compare_no_ties names : no_ties ordinal_compare names.
Proof. intros a b _ _. apply ordinal_compare_zero. Qed.

(** X21: the written text is canonical. Let the order [sort] uses be a
    consistent comparator that ties no two different keys of the map, as the
    order of strings by code units is. Then two maps that hold every key
    once and the same value for every key serialize to the same text,
    whatever the order their entries were inserted in. *)
Theorem serializeEnvFile_ignores_insertion_order :
  ∀ compareStrings vars1 vars2,
    ConsistentComparator compareStrings →
    no_ties compareStrings (JsMap.keys vars1) →
    JsMap.wf vars1 →
    JsMap.wf vars2 →
    (∀ key, JsMap.get vars1 key = JsMap.get vars2 key) →
    serializeEnvFile compareStrings vars1 = serializeEnvFile compareStrings vars2.
Proof.
  intros compareStrings vars1 vars2 Hcons Hties Hwf1 Hwf2 Hsame.
  unfold serializeEnvFile. cbn zeta.
  assert (Hperm : JsMap.keys vars1 ≡ₚ JsMap.keys vars2).
  { apply NoDup_Permutation; [done..|]. intros k.
    by rewrite !elem_of_keys_get, Hsame. }
  rewrite (Array_sort_strings_unique compareStrings _ (JsMap.keys vars2)) by done.
  do 3 f_equal. apply map_ext. intros key. unfold env_line. by rewrite Hsame.
Qed.

Lemma serializeEnvFile_ignores_insertion_order_witness :
  serializeEnvFile ordinal_compare sample_env
  = serializeEnvFile ordinal_compare sample_env_reordered.
Proof.
  apply serializeEnvFile_ignores_insertion_order.
  - apply ordinal_compare_consistent.
  - apply ordinal_compare_no_ties.
  - apply (bool_decide_unpack _). vm_compute. exact I.
  - apply (bool_decide_unpack _). vm_compute. exact I.
  - intros key. cbn [sample_env sample_env_reordered JsMap.get].
    case_strings; congruence.
Defined.

(** ** The interactive choices *)

Example buildOptions_sample :
  map opt_key (buildOptions
                 {| ce_key := "K"; ce_conflictType := new_key_collision;
                    ce_baseValue := None; ce_localValue := Some "a";
                    ce_remoteValue := Some "b" |})
  = ["l"; "r"; "e"; "s"]%string.
Proof. reflexivity. Qed.

Lemma parseChoice_buildOptions conflict answer :
  parseChoice answer (buildOptions conflict)
  = if String.eqb "l" answer then choice_local
    else if String.eqb "r" answer then choice_remote
    else if String.eqb "b" answer && is_defined (ce_baseValue conflict) then choice_base
    else if String.eqb "e" answer then choice_manual
    else choice_skip.
Proof.
  unfold parseChoice, buildOptions.
  destruct (ce_baseValue conflict), (ce_localValue conflict), (ce_remoteValue conflict);
    cbn [is_defined find app opt_key opt_choice andb].
  all: destruct (String.eqb "l" answer) eqn:Hl; [reflexivity|].
  all: destruct (String.eqb "r" answer) eqn:Hr; [reflexivity|].
  all: destruct (String.eqb "b" answer) eqn:Hb; cbn [andb]; [try reflexivity|].
  all: destruct (String.eqb "e" answer) eqn:He; [try reflexivity|].
  all: destruct (String.eqb "s" answer) eqn:Hs; reflexivity.
Qed.

Lemma prompt_answer_resolution_facts toLowerCase conflict typedAnswer typedValue :
  let resolution := resolveConflict toLowerCase conflict typedAnswer typedValue in
  cr_key resolution = ce_key conflict
  ∧ cr_choice resolution
    = parseChoice (prompt toLowerCase typedAnswer) (buildOptions conflict)
  ∧ cr_manualValue resolution
    = (if decide (cr_choice resolution = choice_manual)
       then Some (prompt toLowerCase typedValue) else None)
  ∧ (cr_choice resolution = choice_base → is_defined (ce_baseValue conflict) = true).
Proof.
  intros resolution.
  set (answer := prompt toLowerCase typedAnswer).
  assert (Hchoice : cr_choice resolution = parseChoice answer (buildOptions conflict)).
  { unfold resolution, resolveConflict. cbn zeta. fold answer.
    by destruct (parseChoice answer (buildOptions conflict)). }
  split_and!.
  - unfold resolution, resolveConflict. cbn zeta. fold answer.
    by destruct (parseChoice answer (buildOptions conflict)).
  - done.
  - rewrite Hchoice. unfold resolution, resolveConflict. cbn zeta. fold answer.
    by destruct (parseChoice answer (buildOptions conflict)).
  - rewrite Hchoice, parseChoice_buildOptions.
    destruct (String.eqb "l" answer); [done|].
    destruct (String.eqb "r" answer); [done|].
    destruct (is_defined (ce_baseValue conflict)); [done|].
    rewrite andb_false_r. by destruct (String.eqb "e" answer).
Qed.

(** What the sample conversion makes of typed lines: capitals and the
    white space around the line are gone, from the choice and from the
    value. *)
Example prompt_sample :
  prompt toLowerCase_ascii "  L " = "l"
  ∧ prompt toLowerCase_ascii "My Value  " = "my value"
  ∧ resolveConflict toLowerCase_ascii
      {| ce_key := "KEY"; ce_conflictType := divergent_edit;
         ce_baseValue := Some "base"; ce_localValue := Some "local";
         ce_remoteValue := Some "remote" |} " E" " Typed Text "
    = {| cr_key := "KEY"; cr_choice := choice_manual;
         cr_manualValue := Some "typed text" |}.
Proof. split_and!; reflexivity. Qed.

(** X22: what a line typed at the prompt resolves to. For every conflict,
    [resolveConflict] builds a resolution of the key of the conflict. Its
    choice is read from the typed line trimmed and lower-cased: local for
    [l], remote for [r], manual for [e], base for [b] when the conflict has
    a base value, and skip for everything else, [b] without a base value
    included. The resolution carries a value exactly when the choice is
    manual, and the value is the second typed line trimmed and lower-cased,
    not the line as typed; so the prompt never builds a manual resolution
    without a value. *)
Theorem prompt_answer_resolution :
  ∀ toLowerCase conflict typedAnswer typedValue,
    let resolution := resolveConflict toLowerCase conflict typedAnswer typedValue in
    let answer := prompt toLowerCase typedAnswer in
    let value := prompt toLowerCase typedValue in
    cr_key resolution = ce_key conflict
    ∧ cr_choice resolution
      = (if String.eqb "l" answer then choice_local
         else if String.eqb "r" answer then choice_remote
         else if String.eqb "b" answer && is_defined (ce_baseValue conflict)
              then choice_base
         else if String.eqb "e" answer then choice_manual
         else choice_skip)
    ∧ cr_manualValue resolution
      = (if decide (cr_choice resolution = choice_manual) then Some value else None)
    ∧ (cr_choice resolution = choice_base → is_defined (ce_baseValue conflict) = true).
Proof.
  intros toLowerCase conflict typedAnswer typedValue resolution answer value.
  assert (Hchoice : cr_choice resolution = parseChoice answer (buildOptions conflict)).
  { unfold resolution, resolveConflict. cbn zeta. fold answer.
    by destruct (parseChoice answer (buildOptions conflict)). }
  split_and!.
  - unfold resolution, resolveConflict. cbn zeta. fold answer.
    by destruct (parseChoice answer (buildOptions conflict)).
  - by rewrite Hchoice, parseChoice_buildOptions.
  - rewrite Hchoice. unfold resolution, resolveConflict. cbn zeta.
    fold answer value.
    by destruct (parseChoice answer (buildOptions conflict)).
  - rewrite Hchoice, parseChoice_buildOptions.
    destruct (String.eqb "l" answer); [done|].
    destruct (String.eqb "r" answer); [done|].
    destruct (is_defined (ce_baseValue conflict)); [done|].
    rewrite andb_false_r. by destruct (String.eqb "e" answer).
Qed.

Lemma conflict_sides key baseVal localVal remoteVal t :
  mergeKey key baseVal localVal remoteVal = Conflict t →
  match t with
  | edit_vs_delete =>
      is_defined baseVal = true
      ∧ negb (is_defined localVal) = is_defined remoteVal
  | divergent_edit =>
      is_defined baseVal = true
      ∧ is_defined localVal = true ∧ is_defined remoteVal = true
  | new_key_collision =>
      is_defined baseVal = false
      ∧ is_defined localVal = true ∧ is_defined remoteVal = true
  end.
Proof.
  destruct baseVal as [b|], localVal as [l|], remoteVal as [r|];
    cbn; case_strings; cbn; intros [= <-]; done.
Qed.

(** X23: the surviving edit is the recommended option. For a conflict of a
    result of [threeWayMergeEnvFile], [buildOptions] labels the options [l]
    and [r] by the sides: when one side deleted the key, that side is
    offered as a deletion and the other, which edited it, is marked
    recommended; when both sides have a value, neither is marked. The
    option [b] is offered exactly when the key is in the base. *)
Theorem recommended_option_is_the_edit :
  ∀ fileName base local remote conflict,
    conflict ∈ conflicts (threeWayMergeEnvFile fileName base local remote) →
    (option_label "l" (buildOptions conflict), option_label "r" (buildOptions conflict))
    = match JsMap.get local (ce_key conflict), JsMap.get remote (ce_key conflict) with
      | None, _ => (Some "Delete (local choice)", Some "Use remote value (recommended)")
      | _, None => (Some "Use local value (recommended)", Some "Delete (remote choice)")
      | Some _, Some _ => (Some "Use local value", Some "Use remote value")
      end
    ∧ (is_Some (option_label "b" (buildOptions conflict))
       ↔ is_Some (base_get base (ce_key conflict))).
Proof.
  intros fileName base local remote conflict Hin.
  pose proof (threeWayMerge_conflicts_record fileName base local remote) as Hrec.
  rewrite Forall_forall in Hrec.
  destruct (Hrec conflict Hin) as (Hout & Hb & Hl & Hr).
  apply conflict_sides in Hout. rewrite <- Hb, <- Hl, <- Hr in *.
  unfold option_label, buildOptions.
  destruct (ce_conflictType conflict), (ce_baseValue conflict),
    (ce_localValue conflict), (ce_remoteValue conflict);
    cbn [is_defined negb] in Hout;
    try (destruct Hout as (? & ? & ?); discriminate);
    destruct Hout as [? ?]; try discriminate.
  all: cbn; split; [reflexivity|].
  all: first [reflexivity | split; intros _; by eexists].
Qed.

Lemma recommended_option_is_the_edit_witness :
  (option_label "l"
     (buildOptions
        {| ce_key := "KEY"; ce_conflictType := edit_vs_delete;
           ce_baseValue := Some "base"; ce_localValue := None;
           ce_remoteValue := Some "remote" |}),
   option_label "r"
     (buildOptions
        {| ce_key := "KEY"; ce_conflictType := edit_vs_delete;
           ce_baseValue := Some "base"; ce_localValue := None;
           ce_remoteValue := Some "remote" |}))
  = (Some "Delete (local choice)", Some "Use remote value (recommended)")
  ∧ (is_Some (option_label "b"
                (buildOptions
                   {| ce_key := "KEY"; ce_conflictType := edit_vs_delete;
                      ce_baseValue := Some "base"; ce_localValue := None;
                      ce_remoteValue := Some "remote" |}))
     ↔ is_Some (Some "base")).
Proof.
  apply (recommended_option_is_the_edit "test.env"
           (Some [("KEY", "base")]) [] [("KEY", "remote")]).
  apply list_elem_of_here.
Defined.

Lemma single_resolution_get mergeResult resolution conflict :
  find_conflict (conflicts mergeResult) (cr_key resolution) = Some conflict →
  JsMap.get (applyResolutions mergeResult [resolution]) (cr_key resolution)
  = match cr_choice resolution with
    | choice_skip => JsMap.get (merged mergeResult) (cr_key resolution)
    | _ => chosen_value conflict resolution
    end.
Proof.
  intros Hfind. unfold applyResolutions. cbn [fold_left].
  destruct (decide (cr_choice resolution = choice_skip)) as [Hs|Hs].
  - rewrite Hs. apply apply_resolution_other. by right.
  - rewrite (apply_resolution_decisive _ _ _ conflict) by done.
    by destruct (cr_choice resolution).
Qed.

(** X24: what a line typed at the prompt does to the key. For a conflict
    of a result of [threeWayMergeEnvFile], applying the resolution
    [resolveConflict] builds from the typed lines leaves the key with: the
    local value for [l] and for a skipped conflict, the remote value for
    [r], the base value, which then exists, for [b], and for [e] the second
    typed line trimmed and lower-cased. Only [l] and [r] can remove the key,
    and only on the side that deleted it. *)
Theorem prompt_answer_outcome :
  ∀ toLowerCase fileName base local remote conflict typedAnswer typedValue,
    let result := threeWayMergeEnvFile fileName base local remote in
    let resolution := resolveConflict toLowerCase conflict typedAnswer typedValue in
    conflict ∈ conflicts result →
    let final := JsMap.get (applyResolutions result [resolution]) (ce_key conflict) in
    match cr_choice resolution with
    | choice_local | choice_skip => final = JsMap.get local (ce_key conflict)
    | choice_remote => final = JsMap.get remote (ce_key conflict)
    | choice_base =>
        ∃ value, base_get base (ce_key conflict) = Some value ∧ final = Some value
    | choice_manual => final = Some (prompt toLowerCase typedValue)
    end.
Proof.
  intros toLowerCase fileName base local remote conflict typedAnswer typedValue
    result resolution Hin final.
  destruct (prompt_answer_resolution_facts toLowerCase conflict typedAnswer typedValue)
    as (Hkey & _ & Hmanual & Hbase).
  fold resolution in Hkey, Hmanual, Hbase.
  destruct (find_conflict_is_Some (conflicts result) (cr_key resolution)) as [c0 Hfind].
  { rewrite Hkey. apply list_elem_of_fmap. by exists conflict. }
  pose proof Hfind as Hc0. apply find_conflict_Some in Hc0 as [Hc0 Hk].
  pose proof (threeWayMerge_conflicts_record fileName base local remote) as Hrec.
  rewrite Forall_forall in Hrec.
  destruct (Hrec c0 Hc0) as (Hout & Hb & Hl & Hr).
  destruct (Hrec conflict Hin) as (_ & Hb' & _).
  rewrite Hk, Hkey in Hout, Hb, Hl, Hr.
  pose proof (single_resolution_get result resolution c0 Hfind) as Hget.
  rewrite Hkey in Hget. fold final in Hget. unfold chosen_value in Hget.
  destruct (cr_choice resolution) eqn:Hc.
  - congruence.
  - congruence.
  - specialize (Hbase eq_refl). rewrite Hb' in Hbase.
    destruct (base_get base (ce_key conflict)) as [value|]; [|done].
    exists value. split; [done|]. congruence.
  - rewrite Hget, Hmanual. by rewrite decide_True.
  - rewrite Hget. apply threeWayMerge_preview_local. by rewrite Hout.
Qed.

Lemma prompt_answer_outcome_witness :
  JsMap.get
    (applyResolutions sample_divergent
       [resolveConflict toLowerCase_ascii
          {| ce_key := "KEY"; ce_conflictType := divergent_edit;
             ce_baseValue := Some "base"; ce_localValue := Some "local";
             ce_remoteValue := Some "remote" |} " E" " Typed Text "]) "KEY"
  = Some "typed text".
Proof.
  exact (prompt_answer_outcome toLowerCase_ascii "test.env" (Some [("KEY", "base")])
           [("KEY", "local")] [("KEY", "remote")]
           {| ce_key := "KEY"; ce_conflictType := divergent_edit;
              ce_baseValue := Some "base"; ce_localValue := Some "local";
              ce_remoteValue := Some "remote" |} " E" " Typed Text "
           ltac:(apply list_elem_of_here)).
Defined.

(** ** Recording pushed files in the manifest *)

Lemma findIndex_name_Some name files i :
  findIndex_name name files = Some i →
  ∃ before f after,
    files = before ++ f :: after ∧ length before = i ∧ fe_name f = name
    ∧ (∀ g, g ∈ before → fe_name g ≠ name).
Proof.
  unfold findIndex_name.
  destruct (list_find _ files) as [[j f]|] eqn:E; [|done]. intros [= <-].
  apply list_find_Some in E as (Hj & Hname & Hbefore).
  exists (take j files), f, (drop (S j) files). split_and!.
  - by rewrite <- (take_drop_middle files j f) at 1.
  - apply length_take_le. apply lookup_lt_Some in Hj. lia.
  - done.
  - intros g Hg. apply list_elem_of_lookup in Hg as [n Hn].
    pose proof (lookup_lt_Some _ _ _ Hn) as Hlt.
    rewrite length_take in Hlt. rewrite lookup_take_lt in Hn by lia.
    apply (Hbefore n g); [done|lia].
Qed.

Lemma findIndex_name_None name files :
  findIndex_name name files = None → ∀ f, f ∈ files → fe_name f ≠ name.
Proof.
  unfold findIndex_name.
  destruct (list_find _ files) as [[j f]|] eqn:E; [done|]. intros _.
  apply list_find_None in E. rewrite Forall_forall in E. exact E.
Qed.

Lemma record_file_cases files entry :
  (∃ before f after,
     files = before ++ f :: after ∧ fe_name f = fe_name entry
     ∧ (∀ g, g ∈ before → fe_name g ≠ fe_name entry)
     ∧ record_file files entry = before ++ entry :: after)
  ∨ ((∀ f, f ∈ files → fe_name f ≠ fe_name entry)
     ∧ record_file files entry = files ++ [entry]).
Proof.
  unfold record_file.
  destruct (findIndex_name (fe_name entry) files) as [i|] eqn:E.
  - left. apply findIndex_name_Some in E as (before & f & after & -> & <- & Hf & Hb).
    exists before, f, after. split_and!; [done..|].
    by rewrite insert_app_r_alt, Nat.sub_diag by lia.
  - right. split; [by apply findIndex_name_None|done].
Qed.

Lemma record_file_names files entry :
  map fe_name (record_file files entry)
  = if decide (fe_name entry ∈ map fe_name files) then map fe_name files
    else map fe_name files ++ [fe_name entry].
Proof.
  destruct (record_file_cases files entry)
    as [(before & f & after & -> & Hf & _ & ->)|[Hnone ->]].
  - rewrite decide_True.
    + rewrite !map_app. cbn [map]. by rewrite Hf.
    + apply list_elem_of_fmap. exists f. split; [done|].
      apply elem_of_app. right. apply list_elem_of_here.
  - rewrite decide_False; [by rewrite map_app|].
    intros (f & Hf & Hin)%list_elem_of_fmap. by apply (Hnone f).
Qed.

Lemma record_file_NoDup files entry :
  NoDup (map fe_name files) → NoDup (map fe_name (record_file files entry)).
Proof.
  intros Hnd. rewrite record_file_names. case_decide as Hin; [done|].
  apply NoDup_app. split_and!; [done| |apply NoDup_singleton].
  intros x Hx ->%list_elem_of_singleton. done.
Qed.

Lemma record_file_elem files entry f :
  NoDup (map fe_name files) →
  f ∈ record_file files entry
  ↔ f = entry ∨ (f ∈ files ∧ fe_name f ≠ fe_name entry).
Proof.
  intros Hnd.
  destruct (record_file_cases files entry)
    as [(before & f0 & after & -> & Hf0 & Hbefore & ->)|[Hnone ->]].
  - rewrite map_app in Hnd. cbn [map] in Hnd.
    apply NoDup_app in Hnd as (_ & Hdisj & Hnd).
    apply NoDup_cons in Hnd as [Hafter _].
    rewrite !elem_of_app, !elem_of_cons. split.
    + intros [Hb|[->|Ha]]; [right|by left|right].
      * split; [by left|by apply Hbefore].
      * split; [by right; right|]. intros Heq. apply Hafter. rewrite Hf0, <- Heq.
        apply list_elem_of_fmap. by exists f.
    + intros [->|[[Hb|[->|Ha]] Hne]]; auto. done.
  - rewrite elem_of_app, list_elem_of_singleton. split.
    + intros [Hin| ->]; [right|by left]. split; [done|by apply Hnone].
    + intros [->|[? _]]; auto.
Qed.

Lemma record_files_fold files entries :
  NoDup (map fe_name files) →
  NoDup (map fe_name (fold_left record_file entries files))
  ∧ ∀ f, f ∈ fold_left record_file entries files
         ↔ (∃ before after, entries = before ++ f :: after
                            ∧ fe_name f ∉ map fe_name after)
           ∨ (f ∈ files ∧ fe_name f ∉ map fe_name entries).
Proof.
  revert files. induction entries as [|e entries IH]; intros files Hnd.
  - cbn [fold_left]. split; [done|]. intros f. split.
    + intros Hf. right. split; [done|]. apply not_elem_of_nil.
    + intros [(before & after & H & _)|[Hf _]]; [|done]. by destruct before.
  - cbn [fold_left].
    destruct (IH (record_file files e) (record_file_NoDup files e Hnd)) as [IH1 IH2].
    split; [done|]. intros f. rewrite IH2, record_file_elem by done. clear IH IH1 IH2.
    cbn [map]. rewrite not_elem_of_cons. split.
    + intros [(before & after & -> & Hlast)|[[->|[Hf Hne]] Hnot]].
      * left. by exists (e :: before), after.
      * left. by exists [], entries.
      * right. split; [done|]. split; [congruence|done].
    + intros [(before & after & Heq & Hlast)|[Hf [Hne Hnot]]].
      * destruct before as [|b before]; cbn in Heq; injection Heq as -> ->.
        -- right. split; [by left|done].
        -- left. by exists before, after.
      * right. split; [|done]. right. split; [done|congruence].
Qed.

(** X25: recording pushed files keeps the manifest a map by name. When the
    file names of a manifest are pairwise distinct, they still are after the
    loop that records the pushed entries, whatever the entries; the manifest
    then holds, for every name pushed, the last entry pushed under that
    name, and every earlier file whose name was not pushed, and nothing
    else. *)
Theorem record_files_keeps_names_distinct :
  ∀ manifest entries,
    NoDup (file_names manifest) →
    let after := record_files manifest entries in
    NoDup (file_names after)
    ∧ pm_version after = pm_version manifest
    ∧ pm_projectName after = pm_projectName manifest
    ∧ ∀ f, f ∈ pm_files after
           ↔ (∃ earlier later, entries = earlier ++ f :: later
                               ∧ fe_name f ∉ map fe_name later)
             ∨ (f ∈ pm_files manifest ∧ fe_name f ∉ map fe_name entries).
Proof.
  intros manifest entries Hnd after.
  destruct (record_files_fold (pm_files manifest) entries Hnd) as [H1 H2].
  by split_and!.
Qed.

Lemma record_files_keeps_names_distinct_witness :
  NoDup (file_names
           (record_files (empty_manifest "demo")
              [sample_file ".env" "h1"; sample_file "b.env" "h2";
               sample_file ".env" "h3"])).
Proof.
  apply (record_files_keeps_names_distinct (empty_manifest "demo")).
  constructor.
Defined.

Example record_files_sample :
  pm_files (record_files (empty_manifest "demo")
              [sample_file ".env" "h1"; sample_file "b.env" "h2";
               sample_file ".env" "h3"])
  = [sample_file ".env" "h3"; sample_file "b.env" "h2"].
Proof. vm_compute. reflexivity. Qed.

Lemma last_with_name_elem (entries : list FileEntry) f :
  NoDup (map fe_name entries) →
  (∃ before after, entries = before ++ f :: after ∧ fe_name f ∉ map fe_name after)
  ↔ f ∈ entries.
Proof.
  intros Hnd. split.
  - intros (before & after & -> & _). apply elem_of_app. right. apply list_elem_of_here.
  - intros (before & after & ->)%list_elem_of_split. exists before, after.
    split; [done|]. rewrite map_app in Hnd. cbn [map] in Hnd.
    apply NoDup_app in Hnd as (_ & _ & Hnd). by apply NoDup_cons in Hnd as [? _].
Qed.

(** X26: the fingerprint does not depend on the order of a push. Let
    [localeCompare] be a consistent comparator. When the file names of a
    manifest are pairwise distinct and the pushed entries have pairwise
    distinct names, recording the entries in any order gives manifests with
    the same fingerprint, provided no two different names of the result
    compare as equal. *)
Theorem fingerprint_ignores_push_order :
  ∀ localeCompare manifest entries1 entries2,
    ConsistentComparator localeCompare →
    NoDup (file_names manifest) →
    NoDup (map fe_name entries1) →
    entries1 ≡ₚ entries2 →
    no_ties localeCompare (file_names (record_files manifest entries1)) →
    getManifestFingerprint localeCompare (record_files manifest entries1)
    = getManifestFingerprint localeCompare (record_files manifest entries2).
Proof.
  intros localeCompare manifest entries1 entries2 Hcons Hnd Hnd1 Hperm Hties.
  assert (Hnd2 : NoDup (map fe_name entries2)) by by rewrite <- Hperm.
  destruct (record_files_fold (pm_files manifest) entries1 Hnd) as [Hn1 He1].
  destruct (record_files_fold (pm_files manifest) entries2 Hnd) as [Hn2 He2].
  apply (fingerprint_depends_on_pairs localeCompare Hcons); try done.
  intros p. unfold name_hash_pairs, record_files, with_files. cbn [pm_files].
  rewrite !list_elem_of_fmap.
  assert (Hsame : ∀ f, f ∈ fold_left record_file entries1 (pm_files manifest)
                       ↔ f ∈ fold_left record_file entries2 (pm_files manifest)).
  { intros f. rewrite He1, He2, !last_with_name_elem by done. by rewrite Hperm. }
  split; intros (f & -> & Hf); exists f; (split; [done|]); by apply Hsame.
Qed.

Lemma fingerprint_ignores_push_order_witness :
  getManifestFingerprint ordinal_compare
    (record_files (sample_manifest [sample_file "old.env" "h0"])
       [sample_file ".env" "h1"; sample_file "b.env" "h2"])
  = getManifestFingerprint ordinal_compare
      (record_files (sample_manifest [sample_file "old.env" "h0"])
         [sample_file "b.env" "h2"; sample_file ".env" "h1"]).
Proof.
  apply fingerprint_ignores_push_order.
  - apply ordinal_compare_consistent.
  - apply (bool_decide_unpack _). vm_compute. exact I.
  - apply (bool_decide_unpack _). vm_compute. exact I.
  - apply perm_swap.
  - apply ordinal_compare_no_ties.
Defined.

(** ** Resolving by flag in the sync command *)

Local Open Scope exec_scope.











Example resolve_by_flag_sample :
  (resolve_by_flag 1%positive strategy_remote ;;;
   let* merged_ref := field_merged 1%positive in
   let* resolved := load_map merged_ref in
   let* before := load_map 2%positive in
   exec_ret (resolved, before)) sample_heap
  = Some (([("KEY", "remote")], [("KEY", "local")]),
          <[1%positive := ResultObject "test.env" clean 5%positive 6%positive 4%positive]>
            (<[6%positive := ConflictArray []]>
               (<[5%positive := MapObject [("KEY", "remote")]]> sample_heap))).
Proof. vm_compute. reflexivity. Qed.

Lemma autoMerged_nonempty fileName base local remote :
  (0 <? length (autoMerged (threeWayMergeEnvFile fileName base local remote)))%nat = true
  ↔ ∃ key action value, key_outcome base local remote key = AutoMerged action value.
Proof.
  assert (Helem : ∀ entry,
    entry ∈ autoMerged (threeWayMergeEnvFile fileName base local remote)
    ↔ key_outcome base local remote (am_key entry)
      = AutoMerged (am_action entry) (am_value entry)).
  { intros entry. cbn [threeWayMergeEnvFile autoMerged].
    rewrite merge_loop_autoMerged. cbn [acc_autoMerged]. rewrite elem_of_nil.
    split; [by intros [[]|[_ ?]]|]. intros H. right. split; [|done].
    by eapply auto_outcome_in_all_keys. }
  rewrite Nat.ltb_lt. split.
  - destruct (autoMerged _) as [|entry rest]; cbn [length]; [lia|]. intros _.
    exists (am_key entry), (am_action entry), (am_value entry).
    apply Helem, list_elem_of_here.
  - intros (key & action & value & H).
    assert (Hin : {| am_key := key; am_action := action; am_value := value |}
                  ∈ autoMerged (threeWayMergeEnvFile fileName base local remote))
      by by apply Helem.
    destruct (autoMerged _); [by apply elem_of_nil in Hin|cbn [length]; lia].
Qed.

(** X28: after a flag, only auto-merges count as changes. For the results
    of merging a list of files, resolved by [--ours] or [--theirs],
    [hasChanges] holds exactly when some file has a key whose outcome is an
    auto-merge: files that differ by conflicts alone are found in sync, and
    the command stops before it writes the resolved maps. *)
Theorem flag_resolution_changes_iff_auto_merge :
  ∀ strategy inputs,
    hasChanges (map (resolved_by_flag strategy) (map merge_input inputs)) = true
    ↔ ∃ input key action value,
        input ∈ inputs
        ∧ key_outcome (mi_base input) (mi_local input) (mi_remote input) key
          = AutoMerged action value.
Proof.
  intros strategy inputs. unfold hasChanges.
  rewrite map_map, existsb_exists. split.
  - intros (r & Hr & Hpred). apply in_map_iff in Hr as (input & <- & Hin).
    assert (H : (0 <? length (autoMerged (merge_input input)))%nat = true).
    { cbn [resolved_by_flag status autoMerged] in Hpred.
      by destruct (0 <? length (autoMerged (merge_input input)))%nat. }
    apply autoMerged_nonempty in H as (key & action & value & H).
    exists input, key, action, value. split; [by apply list_elem_of_In|done].
  - intros (input & key & action & value & Hin & H).
    exists (resolved_by_flag strategy (merge_input input)). split.
    + apply in_map_iff. exists input. split; [done|by apply list_elem_of_In].
    + cbn [resolved_by_flag status autoMerged].
      assert (Hlen : (0 <? length (autoMerged (merge_input input)))%nat = true)
        by (apply autoMerged_nonempty; eauto).
      by rewrite Hlen.
Qed.
